(** * psico.minimizing: energy minimisation glue for a molecular viewer

    A shallow embedding of [src/psico/minimizing.py].  The module is glue
    code: every line either calls the host application (the [cmd] handle the
    source threads through as [_self]), one of the two force-field engines
    (openbabel, RDKit), numpy, or another psico module.  The embedding keeps
    that shape: a Python function becomes a program in a small
    call-and-answer monad whose nodes are the external calls the source makes,
    in source order, and whose control flow ([try]/[finally], [try]/[except],
    [with], [for], early [return]) is written with combinators that follow
    Python's rules.  The external world is a parameter: an environment
    answers each call (with a value or with an exception) and threads its own
    state.

    Python [float]s are idealised as real numbers. *)

From Stdlib Require Import List String ZArith Reals Lra Lia Bool Arith Sorted.
Import ListNotations.

Local Open Scope string_scope.
Local Open Scope Z_scope.

(** ** Python values crossing the boundary *)

(** Exceptions, by the classes the source distinguishes: [CmdException]
    (raised by the module itself and by the host), [ImportError],
    any other subclass of [Exception], and the [BaseException]s that are not
    [Exception]s ([KeyboardInterrupt], [SystemExit]). *)
Inductive exn : Type :=
| CmdException (msg : string)
| ImportError (msg : string)
| PyException (msg : string)
| PyBaseException (msg : string).

(** [except ImportError] *)
Definition is_ImportError (e : exn) : bool :=
  match e with ImportError _ => true | _ => false end.

(** [except Exception] *)
Definition is_Exception (e : exn) : bool :=
  match e with PyBaseException _ => false | _ => true end.

(** [str(e)], as used by ['{}'.format(e)] *)
Definition exn_str (e : exn) : string :=
  match e with
  | CmdException m | ImportError m | PyException m | PyBaseException m => m
  end.

(** What a call or a program ends with. *)
Inductive outcome (A : Type) : Type :=
| Ok (a : A)
| Raised (e : exn).
Arguments Ok {A} a.
Arguments Raised {A} e.

(** A row of an [N x 3] coordinate array. *)
Definition point : Type := (R * R * R)%type.

(** A reference to an object living in an engine (an [OBMol], a force
    field, a constraint set, an RDKit molecule ...). *)
Inductive pyobj : Type := PyRef (n : nat).

(** ** The external calls of the module, in the order of the source *)
Inductive call : Type :=
(* the host, [_self.*] *)
| cmd_iterate_state (state : Z) (selection : string)
| cmd_get_unused_name (prefix : string)
| cmd_select (name selection : string) (enable : Z)
| cmd_delete (name : string)
| cmd_load_raw (content format name : string) (state zoom : Z)
| cmd_fit (mobile target : string) (mobile_state target_state cycles matchmaker : Z)
| cmd_update (target source : string) (target_state source_state matchmaker : Z)
| cmd_flag (flag selection action : string)
| cmd_get_coords (selection : string) (state : Z)
| cmd_load_coords (coords : list point) (selection : string) (state : Z)
| cmd_get_str (format selection : string) (state : Z)
| cmd_lockcm_enter
| cmd_lockcm_exit
(* the interpreter *)
| py_import (module : string)
| py_print (line : string)
| py_print_energy (energy : R) (unit : string)
(* psico.fitting *)
| xfit (mobile target : string) (mobile_state target_state : Z) (mtch : string) (cycles guide : Z)
(* numpy *)
| np_random_sample (rows : nat)
(* openbabel *)
| ob_OBConversion
| ob_SetInAndOutFormats (conv : pyobj) (inf outf : string)
| ob_OBMol
| ob_ReadString (conv mol : pyobj) (molstr : string)
| ob_atom_ids (mol : pyobj)
| ob_AddHydrogens (mol : pyobj)
| ob_OBFFConstraints
| ob_Constraints_Setup (cons mol : pyobj)
| ob_AddAtomConstraint (cons : pyobj) (id : Z)
| ob_FindForceField (ff : string)
| ob_FF_Setup (ff mol cons : pyobj)
| ob_EnableCutOff (ff : pyobj) (on : bool)
| ob_SetVDWCutOff (ff : pyobj) (r : R)
| ob_SetElectrostaticCutOff (ff : pyobj) (r : R)
| ob_SteepestDescent (ff : pyobj) (steps : Z) (econv : R)
| ob_ConjugateGradients (ff : pyobj) (steps : Z) (econv : R)
| ob_GetCoordinates (ff mol : pyobj)
| ob_GetAtomById (mol : pyobj) (id : Z)
| ob_DeleteAtom (mol atom : pyobj)
| ob_WriteString (conv mol : pyobj)
| ob_Energy (ff : pyobj)
| ob_GetUnit (ff : pyobj)
(* RDKit *)
| rd_MolFromMolBlock (molstr : string) (sanitize removeHs : bool)
| rd_MMFFGetMoleculeProperties (mol : pyobj) (variant : string) (verbosity : Z)
| rd_MMFFGetMoleculeForceField (mol : pyobj) (props : option pyobj)
| rd_UFFGetMoleculeForceField (mol : pyobj)
| rd_AddFixedPoint (ff : pyobj) (idx : Z)
| rd_Minimize (ff : pyobj) (maxIts : Z)
| rd_MolToMolBlock (mol : pyobj)
| rd_CalcEnergy (ff : pyobj).

(** The type of the value a call returns.  [cmd_iterate_state] answers with
    the [flags] field of every atom it visits, in iteration order: the
    expression the source passes is applied to them in [get_fixed_indices].
    [np_random_sample rows] answers with a [rows x 3] array. *)
Definition answer (c : call) : Type :=
  match c with
  | cmd_iterate_state _ _ => list Z
  | cmd_get_unused_name _ => string
  | cmd_select _ _ _ => Z
  | cmd_fit _ _ _ _ _ _ => R
  | cmd_get_coords _ _ => list point
  | cmd_get_str _ _ _ => string
  | xfit _ _ _ _ _ _ _ => R
  | np_random_sample _ => list point
  | ob_OBConversion | ob_OBMol | ob_OBFFConstraints => pyobj
  | ob_atom_ids _ => list Z
  | ob_FindForceField _ => option pyobj
  | ob_GetAtomById _ _ => pyobj
  | ob_WriteString _ _ => string
  | ob_Energy _ => R
  | ob_GetUnit _ => string
  | rd_MolFromMolBlock _ _ _ => option pyobj
  | rd_MMFFGetMoleculeProperties _ _ _ => option pyobj
  | rd_MMFFGetMoleculeForceField _ _ => option pyobj
  | rd_UFFGetMoleculeForceField _ => option pyobj
  | rd_Minimize _ _ => Z
  | rd_MolToMolBlock _ => string
  | rd_CalcEnergy _ => R
  | _ => unit
  end.

(** ** Programs *)

(** A program returns, raises, or makes a call and continues with its
    outcome. *)
Inductive prog (A : Type) : Type :=
| Ret (a : A)
| Raise (e : exn)
| Vis (c : call) (k : outcome (answer c) -> prog A).
Arguments Ret {A} a.
Arguments Raise {A} e.
Arguments Vis {A} c k.

(** A call whose exception, if any, propagates. *)
Definition perform (c : call) : prog (answer c) :=
  Vis c (fun r => match r with Ok x => Ret x | Raised e => Raise e end).

Fixpoint bind {A B : Type} (p : prog A) (f : A -> prog B) : prog B :=
  match p with
  | Ret a => f a
  | Raise e => Raise e
  | Vis c k => Vis c (fun r => bind (k r) f)
  end.

Declare Scope prog_scope.
Delimit Scope prog_scope with prog.
Notation "x <- p ;; q" := (bind p (fun x => q))
  (at level 100, p at next level, right associativity) : prog_scope.
Notation "p ;; q" := (bind p (fun _ => q))
  (at level 100, right associativity) : prog_scope.
Local Open Scope prog_scope.

(** [try: p  except ...: h e]: the handler decides per exception (and
    re-raises what no clause matches); an exception raised by the handler
    itself is not handled again. *)
Fixpoint try_except {A : Type} (p : prog A) (h : exn -> prog A) : prog A :=
  match p with
  | Ret a => Ret a
  | Raise e => h e
  | Vis c k => Vis c (fun r => try_except (k r) h)
  end.

(** [try: p  finally: f]: [f] runs on both exits; if [f] raises, its
    exception replaces the pending one. *)
Fixpoint try_finally {A : Type} (p : prog A) (f : prog unit) : prog A :=
  match p with
  | Ret a => f ;; Ret a
  | Raise e => f ;; Raise e
  | Vis c k => Vis c (fun r => try_finally (k r) f)
  end.

(** [with _self.lockcm: p]: the context manager of the host's lock does not
    swallow exceptions. *)
Definition with_lockcm {A : Type} (p : prog A) : prog A :=
  perform cmd_lockcm_enter ;;
  try_finally p (perform cmd_lockcm_exit).

(** [for x in l: body x] *)
Fixpoint for_each {A : Type} (l : list A) (body : A -> prog unit) : prog unit :=
  match l with
  | [] => Ret tt
  | x :: l' => body x ;; for_each l' body
  end.

(** ** Running a program against an environment *)

(** One call with the outcome the environment gave. *)
Inductive event : Type :=
| Ev (c : call) (r : outcome (answer c)).

(** The external world: a state and its answer to every call. *)
Record Env : Type := {
  world : Type;
  handle : forall c : call, world -> outcome (answer c) * world
}.

(** The outcome of a program, the world it leaves and the calls it made. *)
Fixpoint run {A : Type} (E : Env) (p : prog A) (w : world E)
  : outcome A * world E * list event :=
  match p with
  | Ret a => (Ok a, w, [])
  | Raise e => (Raised e, w, [])
  | Vis c k =>
      let '(r, w1) := handle E c w in
      let '(o, w2, t) := run E (k r) w1 in
      (o, w2, Ev c r :: t)
  end.

Definition result_of {A W : Type} (x : outcome A * W * list event) : outcome A := fst (fst x).
Definition world_of {A W : Type} (x : outcome A * W * list event) : W := snd (fst x).
Definition trace_of {A W : Type} (x : outcome A * W * list event) : list event := snd x.

(** ** Small pieces of Python and numpy *)

(** Truth value of an [int]. *)
Definition truthy (z : Z) : bool := negb (z =? 0).

(** Truth value of a [str]. *)
Definition nonempty (s : string) : bool := negb (s =? "")%string.

(** [enumerate(l)], counting from [i]. *)
Fixpoint enumerate_from {A : Type} (i : Z) (l : list A) : list (Z * A) :=
  match l with
  | [] => []
  | x :: l' => (i, x) :: enumerate_from (i + 1) l'
  end.

Definition enumerate {A : Type} (l : list A) : list (Z * A) := enumerate_from 0 l.

(** [set(new).difference(old)], listed once each in the order of [new]. *)
Definition set_difference (new old : list Z) : list Z :=
  nodup Z.eq_dec (filter (fun i => negb (existsb (Z.eqb i) old)) new).

Definition col0 (p : point) : R := fst (fst p).
Definition col1 (p : point) : R := snd (fst p).
Definition col2 (p : point) : R := snd p.

Definition Rsum (l : list R) : R := fold_right Rplus 0%R l.

Definition mean (l : list R) : R := (Rsum l / INR (List.length l))%R.

(** [numpy.std] of one column (population standard deviation). *)
Definition std (l : list R) : R :=
  sqrt (mean (map (fun x => Rsqr (x - mean l)) l)).

(** [coords.std(0).sum()] *)
Definition std0_sum (coords : list point) : R :=
  (std (map col0 coords) + std (map col1 coords) + std (map col2 coords))%R.

Definition Rgtb (x y : R) : bool := if Rgt_dec x y then true else false.

(** [numpy.linspace(start, stop, num, False)] *)
Definition linspace (start stop : R) (num : nat) : list R :=
  map (fun i => (start + INR i * ((stop - start) / INR num))%R) (seq 0 num).

(** [coords[:, 0] += v] and [coords[:, 1] += v] *)
Fixpoint add_col0 (coords : list point) (v : list R) : list point :=
  match coords, v with
  | (x, y, z) :: cs, d :: ds => ((x + d)%R, y, z) :: add_col0 cs ds
  | _, _ => coords
  end.

Fixpoint add_col1 (coords : list point) (v : list R) : list point :=
  match coords, v with
  | (x, y, z) :: cs, d :: ds => (x, (y + d)%R, z) :: add_col1 cs ds
  | _, _ => coords
  end.

(** [coords += sample - 0.5], element by element. *)
Fixpoint add_jitter (coords sample : list point) : list point :=
  match coords, sample with
  | (x, y, z) :: cs, (rx, ry, rz) :: ss =>
      ((x + (rx - 1 / 2))%R, (y + (ry - 1 / 2))%R, (z + (rz - 1 / 2))%R)
      :: add_jitter cs ss
  | _, _ => coords
  end.

(** ** The module *)

Definition get_fixed_indices (selection : string) (state : Z) : prog (list Z) :=
  atom_flags <- perform (cmd_iterate_state state selection) ;;
  let fixed_list := map (fun flags => Z.land flags 8) atom_flags in
  Ret (map fst (filter (fun p => truthy (snd p)) (enumerate fixed_list))).

(** The [try] statement of [_load_or_update]: the preferred fit, the
    fallback when [psico.fitting] cannot be imported, the log line for any
    other [Exception]. *)
Definition _load_or_update_fit (name sele : string) (state : Z) : prog unit :=
  try_except
    (perform (py_import "psico.fitting") ;;
     perform (xfit name sele 1 state "none" 100 0) ;;
     Ret tt)
    (fun e =>
       if is_ImportError e then
         (perform (cmd_fit name sele 1 state 5 (-1)) ;; Ret tt)
       else if is_Exception e then
         perform (py_print ("xfit failed: " ++ exn_str e))
       else Raise e).

Definition _load_or_update (molstr name sele : string) (state : Z) : prog unit :=
  let update := negb (nonempty name) in
  name <- (if update then perform (cmd_get_unused_name "_minimized")
           else (perform (cmd_delete name) ;; Ret name)) ;;
  perform (cmd_load_raw molstr "mol" name 1 0) ;;
  _load_or_update_fit name sele state ;;
  if update then
    (perform (cmd_update sele name state 1 0) ;;
     perform (cmd_delete name))
  else Ret tt.

Definition load_or_update (molstr name sele : string) (state : Z) : prog unit :=
  with_lockcm (_load_or_update molstr name sele state).

Definition randomize_coords_if_collapsed
  (selection : string) (state : Z) (fancy : bool) : prog unit :=
  coords <- perform (cmd_get_coords selection state) ;;
  if (List.length coords <? 2)%nat || Rgtb (std0_sum coords) (1 / 1000) then Ret tt
  else
    (perform (py_import "numpy.random") ;;
     let coords1 :=
       if fancy then
         let angles := linspace 0 (2 * PI) (List.length coords) in
         let width := Rpower (INR (List.length coords)) (1 / 3) in
         let c0 := add_col0 coords (map (fun a => (sin a * width)%R) angles) in
         add_col1 c0 (map (fun a => (cos a * width)%R) angles)
       else coords in
     sample <- perform (np_random_sample (List.length coords1)) ;;
     let coords2 := add_jitter coords1 sample in
     perform (cmd_load_coords coords2 selection state)).

(** The [try] block of [minimize_ob]. *)
Definition minimize_ob_try
  (sele : string) (natoms : Z) (state : Z) (ff : string) (nsteps : Z) (conv : R)
  (cutoff : Z) (cut_vdw cut_elec : R) (name : string) (quiet : Z) : prog unit :=
  (if natoms =? 0 then Raise (CmdException "empty selection") else Ret tt) ;;
  randomize_coords_if_collapsed sele state true ;;
  let ioformat := "mol" in
  molstr <- perform (cmd_get_str ioformat sele state) ;;
  obconversion <- perform ob_OBConversion ;;
  perform (ob_SetInAndOutFormats obconversion ioformat ioformat) ;;
  mol <- perform ob_OBMol ;;
  perform (ob_ReadString obconversion mol molstr) ;;
  orig_ids <- perform (ob_atom_ids mol) ;;
  perform (ob_AddHydrogens mol) ;;
  all_ids <- perform (ob_atom_ids mol) ;;
  let added_ids := set_difference all_ids orig_ids in
  consttrains <- perform ob_OBFFConstraints ;;
  perform (ob_Constraints_Setup consttrains mol) ;;
  fixed_indices <- get_fixed_indices sele state ;;
  for_each fixed_indices
    (fun idx => perform (ob_AddAtomConstraint consttrains (idx + 1))) ;;
  found <- perform (ob_FindForceField ff) ;;
  match found with
  | None =>
      Raise (CmdException
        "FindForceField returned None, please check BABEL_LIBDIR and BABEL_DATADIR")
  | Some ff =>
      perform (ob_FF_Setup ff mol consttrains) ;;
      (if truthy cutoff then
         (perform (ob_EnableCutOff ff true) ;;
          perform (ob_SetVDWCutOff ff cut_vdw) ;;
          perform (ob_SetElectrostaticCutOff ff cut_elec))
       else Ret tt) ;;
      perform (ob_SteepestDescent ff (nsteps / 2) conv) ;;
      perform (ob_ConjugateGradients ff (nsteps / 2) conv) ;;
      perform (ob_GetCoordinates ff mol) ;;
      for_each added_ids
        (fun hydro_id =>
           a <- perform (ob_GetAtomById mol hydro_id) ;;
           perform (ob_DeleteAtom mol a)) ;;
      molstr <- perform (ob_WriteString obconversion mol) ;;
      load_or_update molstr name sele state ;;
      if negb (truthy quiet) then
        (e <- perform (ob_Energy ff) ;;
         u <- perform (ob_GetUnit ff) ;;
         perform (py_print_energy e u))
      else Ret tt
  end.

Definition minimize_ob
  (selection : string) (state : Z) (ff : string) (nsteps : Z) (conv : R)
  (cutoff : Z) (cut_vdw cut_elec : R) (name : string) (quiet : Z) : prog unit :=
  perform (py_import "openbabel") ;;
  try_except (perform (py_import "openbabel.openbabel"))
    (fun e => if is_ImportError e then Ret tt else Raise e) ;;
  sele <- perform (cmd_get_unused_name "_sele") ;;
  natoms <- perform (cmd_select sele selection 0) ;;
  try_finally
    (minimize_ob_try sele natoms state ff nsteps conv cutoff cut_vdw cut_elec name quiet)
    (perform (cmd_delete sele)).

(** The [try] block of [minimize_rdkit]. *)
Definition minimize_rdkit_try
  (sele : string) (natoms : Z) (state : Z) (ff : string) (nsteps : Z)
  (name : string) (quiet : Z) : prog unit :=
  (if natoms =? 0 then Raise (CmdException "empty selection") else Ret tt) ;;
  randomize_coords_if_collapsed sele state true ;;
  molstr <- perform (cmd_get_str "mol" sele state) ;;
  loaded <- perform (rd_MolFromMolBlock molstr true false) ;;
  match loaded with
  | None =>
      Raise (CmdException
        "Failed to load molecule into RDKit. Please check bond orders and formal charges.")
  | Some mol =>
      made <-
        (if prefix "MMFF" ff then
           (props <- perform (rd_MMFFGetMoleculeProperties mol ff
                                (if truthy quiet then 0 else 1)) ;;
            perform (rd_MMFFGetMoleculeForceField mol props))
         else if (ff =? "UFF")%string then
           perform (rd_UFFGetMoleculeForceField mol)
         else Raise (CmdException ("unknown forcefield: " ++ ff))) ;;
      match made with
      | None => Raise (CmdException "forcefield setup failed")
      | Some ff =>
          fixed_indices <- get_fixed_indices sele state ;;
          for_each fixed_indices
            (fun idx => perform (rd_AddFixedPoint ff idx)) ;;
          rc <- perform (rd_Minimize ff nsteps) ;;
          (if truthy rc then
             perform (py_print " Warning: minimization did not converge")
           else Ret tt) ;;
          molstr <- perform (rd_MolToMolBlock mol) ;;
          load_or_update molstr name sele state ;;
          if negb (truthy quiet) then
            (e <- perform (rd_CalcEnergy ff) ;;
             perform (py_print_energy e "kcal/mol"))
          else Ret tt
      end
  end.

Definition minimize_rdkit
  (selection : string) (state : Z) (ff : string) (nsteps : Z)
  (name : string) (quiet : Z) : prog unit :=
  perform (py_import "rdkit") ;;
  perform (py_import "rdkit.Chem") ;;
  sele <- perform (cmd_get_unused_name "_sele") ;;
  natoms <- perform (cmd_select sele selection 0) ;;
  try_finally
    (minimize_rdkit_try sele natoms state ff nsteps name quiet)
    (perform (cmd_delete sele)).

Definition clean_ob
  (selection present : string) (state : Z) (fix_ restrain method : string)
  (save_undo : Z) (message : option string) : prog unit :=
  selection <-
    (if nonempty present then
       (perform (cmd_flag "fix" present "set") ;;
        perform (cmd_flag "fix" selection "clear") ;;
        Ret ("(" ++ selection ++ ")|(" ++ present ++ ")"))
     else Ret selection) ;;
  let ff := if (method =? "mmff")%string then "MMFF94" else method in
  minimize_ob selection state ff 50 (1 / 10000) 0 6 8 "" 1 ;;
  if nonempty present then perform (cmd_flag "fix" present "clear")
  else Ret tt.

(** ** Observations on the calls of a run *)

Definition call_of (ev : event) : call := match ev with Ev c _ => c end.


Definition calls (t : list event) : list call := map call_of t.

(** Constraint registrations, with the identifier handed to the engine. *)
Definition constraint_id (c : call) : option Z :=
  match c with
  | ob_AddAtomConstraint _ id => Some id
  | rd_AddFixedPoint _ idx => Some idx
  | _ => None
  end.

Definition is_constraint (c : call) : bool :=
  match constraint_id c with Some _ => true | None => false end.

(** The calls that iterate the force field. *)
Definition is_minimization (c : call) : bool :=
  match c with
  | ob_SteepestDescent _ _ _ | ob_ConjugateGradients _ _ _ | rd_Minimize _ _ => true
  | _ => false
  end.


(** The calls that write to the host's scene. *)
Definition mutates_scene (c : call) : bool :=
  match c with
  | cmd_select _ _ _ | cmd_delete _ | cmd_load_raw _ _ _ _ _
  | cmd_fit _ _ _ _ _ _ | cmd_update _ _ _ _ _ | cmd_flag _ _ _
  | cmd_load_coords _ _ _ | xfit _ _ _ _ _ _ _ => true
  | _ => false
  end.

(** Modelled from the spec: the host's scene is not part of the sources.
    Names enter the scene when an object is loaded or a named selection is
    made, and leave it when they are deleted; this follows the names through
    the calls of a run. *)
Definition scene_step (names : list string) (ev : event) : list string :=
  match ev with
  | Ev (cmd_load_raw _ _ name _ _) (Ok _) => name :: names
  | Ev (cmd_select name _ _) (Ok _) => name :: names
  | Ev (cmd_delete name) (Ok _) =>
      filter (fun n => negb (n =? name)%string) names
  | _ => names
  end.

Definition scene_after (names : list string) (t : list event) : list string :=
  fold_left scene_step t names.

(** ** A scripted environment

    An environment that answers from a fixed script.  It stands for one
    concrete session: which atoms the selection has, what the engines find,
    which of the fitting calls fail. *)
Record script : Type := {
  env_flags : list Z;              (* [flags] of the atoms of the selection *)
  env_coords : list point;         (* their coordinates *)
  env_sample : list point;         (* the next [random_sample] *)
  env_missing : list string;       (* modules whose import fails *)
  env_xfit : outcome R;            (* how [xfit] ends *)
  env_fit : outcome R;             (* how [cmd.fit] ends *)
  env_forcefields : list string;   (* what [FindForceField] knows *)
  env_heavy : list Z;              (* atom ids of the molecule read *)
  env_hydrogens : list Z;          (* atom ids [AddHydrogens] adds *)
  env_protonated : bool;           (* whether it has added them *)
  env_rdkit_reads : bool;          (* whether RDKit accepts the molfile *)
  env_rc : Z                       (* what RDKit's [Minimize] returns *)
}.

Definition set_coords (s : script) (c : list point) : script :=
  {| env_flags := env_flags s; env_coords := c; env_sample := env_sample s;
     env_missing := env_missing s; env_xfit := env_xfit s; env_fit := env_fit s;
     env_forcefields := env_forcefields s; env_heavy := env_heavy s;
     env_hydrogens := env_hydrogens s; env_protonated := env_protonated s;
     env_rdkit_reads := env_rdkit_reads s; env_rc := env_rc s |}.

Definition set_protonated (s : script) (b : bool) : script :=
  {| env_flags := env_flags s; env_coords := env_coords s; env_sample := env_sample s;
     env_missing := env_missing s; env_xfit := env_xfit s; env_fit := env_fit s;
     env_forcefields := env_forcefields s; env_heavy := env_heavy s;
     env_hydrogens := env_hydrogens s; env_protonated := b;
     env_rdkit_reads := env_rdkit_reads s; env_rc := env_rc s |}.

Definition known (name : string) (l : list string) : bool :=
  existsb (String.eqb name) l.

Definition scripted_handle (c : call) (s : script) : outcome (answer c) * script :=
  match c return outcome (answer c) * script with
  | cmd_iterate_state _ _ => (Ok (env_flags s), s)
  | cmd_get_unused_name prefix => (Ok (prefix ++ "01"), s)
  | cmd_select _ _ _ => (Ok (Z.of_nat (List.length (env_flags s))), s)
  | cmd_fit _ _ _ _ _ _ => (env_fit s, s)
  | cmd_get_coords _ _ => (Ok (env_coords s), s)
  | cmd_load_coords coords _ _ => (Ok tt, set_coords s coords)
  | cmd_get_str _ _ _ => (Ok "molfile", s)
  | py_import m =>
      (if known m (env_missing s)
       then Raised (ImportError ("No module named " ++ m)) else Ok tt, s)
  | xfit _ _ _ _ _ _ _ => (env_xfit s, s)
  | np_random_sample _ => (Ok (env_sample s), s)
  | ob_OBConversion => (Ok (PyRef 0), s)
  | ob_OBMol => (Ok (PyRef 1), s)
  | ob_OBFFConstraints => (Ok (PyRef 2), s)
  | ob_atom_ids _ =>
      (Ok (env_heavy s ++ (if env_protonated s then env_hydrogens s else []))%list, s)
  | ob_AddHydrogens _ => (Ok tt, set_protonated s true)
  | ob_FindForceField ff =>
      (Ok (if known ff (env_forcefields s) then Some (PyRef 3) else None), s)
  | ob_GetAtomById _ id => (Ok (PyRef (4 + Z.to_nat id)), s)
  | ob_WriteString _ _ => (Ok "minimized molfile", s)
  | ob_Energy _ => (Ok 0%R, s)
  | ob_GetUnit _ => (Ok "kcal/mol", s)
  | rd_MolFromMolBlock _ _ _ =>
      (Ok (if env_rdkit_reads s then Some (PyRef 1) else None), s)
  | rd_MMFFGetMoleculeProperties _ _ _ => (Ok (Some (PyRef 2)), s)
  | rd_MMFFGetMoleculeForceField _ _ => (Ok (Some (PyRef 3)), s)
  | rd_UFFGetMoleculeForceField _ => (Ok (Some (PyRef 3)), s)
  | rd_Minimize _ _ => (Ok (env_rc s), s)
  | rd_MolToMolBlock _ => (Ok "minimized molfile", s)
  | rd_CalcEnergy _ => (Ok 0%R, s)
  | cmd_delete _ | cmd_load_raw _ _ _ _ _ | cmd_update _ _ _ _ _
  | cmd_flag _ _ _ | cmd_lockcm_enter | cmd_lockcm_exit
  | py_print _ | py_print_energy _ _
  | ob_SetInAndOutFormats _ _ _ | ob_ReadString _ _ _
  | ob_Constraints_Setup _ _ | ob_AddAtomConstraint _ _ | ob_FF_Setup _ _ _
  | ob_EnableCutOff _ _ | ob_SetVDWCutOff _ _ | ob_SetElectrostaticCutOff _ _
  | ob_SteepestDescent _ _ _ | ob_ConjugateGradients _ _ _
  | ob_GetCoordinates _ _ | ob_DeleteAtom _ _ | rd_AddFixedPoint _ _ => (Ok tt, s)
  end.

Definition scripted : Env := {| world := script; handle := scripted_handle |}.

(** A session with four atoms at distinct places, the second and third
    flagged fixed (bit [0x8]); every engine and fitting call succeeds. *)
Definition session : script :=
  {| env_flags := [0; 8; 12; 3];
     env_coords := [(0, 0, 0); (1, 0, 0); (0, 1, 0); (0, 0, 1)]%R;
     env_sample := [];
     env_missing := [];
     env_xfit := Ok 0%R;
     env_fit := Ok 0%R;
     env_forcefields := ["GAFF"; "MMFF94s"; "MMFF94"; "UFF"; "Ghemical"];
     env_heavy := [0; 1; 2; 3];
     env_hydrogens := [4; 5];
     env_protonated := false;
     env_rdkit_reads := true;
     env_rc := 0 |}.

(** * Properties *)

(** ** Running the combinators *)

Lemma run_perform (E : Env) (c : call) (w : world E) :
  run E (perform c) w =
  (fst (handle E c w), snd (handle E c w), [Ev c (fst (handle E c w))]).
Proof.
  unfold perform; simpl.
  destruct (handle E c w) as [[x | e] w1]; reflexivity.
Qed.

Lemma run_bind {A B : Type} (E : Env) (p : prog A) (f : A -> prog B) (w : world E) :
  run E (bind p f) w =
  match run E p w with
  | (Ok a, w1, t1) =>
      let '(o, w2, t2) := run E (f a) w1 in (o, w2, (t1 ++ t2)%list)
  | (Raised e, w1, t1) => (Raised e, w1, t1)
  end.
Proof.
  revert w; induction p as [a | e | c k IH]; intros w; simpl.
  - destruct (run E (f a) w) as [[o w2] t2]; reflexivity.
  - reflexivity.
  - destruct (handle E c w) as [r w1].
    rewrite IH.
    destruct (run E (k r) w1) as [[[a | e] w2] t1]; [ | reflexivity].
    destruct (run E (f a) w2) as [[o w3] t2]; reflexivity.
Qed.

Lemma run_try_except {A : Type} (E : Env) (p : prog A) (h : exn -> prog A) (w : world E) :
  run E (try_except p h) w =
  match run E p w with
  | (Ok a, w1, t1) => (Ok a, w1, t1)
  | (Raised e, w1, t1) =>
      let '(o, w2, t2) := run E (h e) w1 in (o, w2, (t1 ++ t2)%list)
  end.
Proof.
  revert w; induction p as [a | e | c k IH]; intros w; simpl.
  - reflexivity.
  - destruct (run E (h e) w) as [[o w2] t2]; reflexivity.
  - destruct (handle E c w) as [r w1].
    rewrite IH.
    destruct (run E (k r) w1) as [[[a | e] w2] t1]; [reflexivity | ].
    destruct (run E (h e) w2) as [[o w3] t2]; reflexivity.
Qed.

Lemma run_try_finally {A : Type} (E : Env) (p : prog A) (f : prog unit) (w : world E) :
  run E (try_finally p f) w =
  let '(o, w1, t1) := run E p w in
  match run E f w1 with
  | (Ok _, w2, t2) => (o, w2, (t1 ++ t2)%list)
  | (Raised e, w2, t2) => (Raised e, w2, (t1 ++ t2)%list)
  end.
Proof.
  revert w; induction p as [a | e | c k IH]; intros w; simpl.
  - rewrite run_bind; simpl.
    destruct (run E f w) as [[[u | e] w2] t2]; simpl;
      rewrite ?app_nil_r; reflexivity.
  - rewrite run_bind; simpl.
    destruct (run E f w) as [[[u | e'] w2] t2]; simpl;
      rewrite ?app_nil_r; reflexivity.
  - destruct (handle E c w) as [r w1].
    rewrite IH.
    destruct (run E (k r) w1) as [[o w2] t1].
    destruct (run E f w2) as [[[u | e] w3] t2]; reflexivity.
Qed.

(** ** Lists, indices and the flag bit *)

Lemma truthy_land8 (flags : Z) : truthy (Z.land flags 8) = Z.testbit flags 3.
Proof.
  assert (H : Z.land flags 8 = if Z.testbit flags 3 then 8 else 0).
  { apply Z.bits_inj'; intros n Hn.
    rewrite Z.land_spec.
    change 8 with (2 ^ 3).
    rewrite Z.pow2_bits_eqb by lia.
    destruct (Z.eqb_spec 3 n) as [<- | Hne].
    - rewrite andb_true_r.
      destruct (Z.testbit flags 3).
      + rewrite Z.pow2_bits_eqb by lia. reflexivity.
      + rewrite Z.bits_0. reflexivity.
    - rewrite andb_false_r.
      destruct (Z.testbit flags 3).
      + rewrite Z.pow2_bits_eqb by lia.
        symmetry; apply Z.eqb_neq; exact Hne.
      + rewrite Z.bits_0. reflexivity. }
  unfold truthy; rewrite H.
  destruct (Z.testbit flags 3); reflexivity.
Qed.

Lemma in_enumerate_from {A : Type} (d : A) (l : list A) (k i : Z) (x : A) :
  In (i, x) (enumerate_from k l) <->
  k <= i < k + Z.of_nat (List.length l) /\ nth (Z.to_nat (i - k)) l d = x.
Proof.
  revert k; induction l as [ | y l IH]; intros k; simpl.
  - split; [tauto | lia].
  - rewrite IH. split.
    + intros [Heq | [Hr Hn]].
      * inversion Heq; subst. rewrite Z.sub_diag. simpl. split; [lia | reflexivity].
      * split; [lia | ].
        replace (Z.to_nat (i - k)) with (S (Z.to_nat (i - (k + 1)))) by lia.
        exact Hn.
    + intros [Hr Hn].
      destruct (Z.eq_dec i k) as [-> | Hne].
      * left. rewrite Z.sub_diag in Hn. simpl in Hn. subst; reflexivity.
      * right. split; [lia | ].
        replace (Z.to_nat (i - k)) with (S (Z.to_nat (i - (k + 1)))) in Hn by lia.
        exact Hn.
Qed.

Lemma enumerate_from_fst_lt {A : Type} (l : list A) (k i : Z) (x : A) :
  In (i, x) (enumerate_from k l) -> k <= i.
Proof.
  revert k; induction l as [ | y l IH]; intros k; simpl; [tauto | ].
  intros [Heq | Hin].
  - inversion Heq; lia.
  - apply IH in Hin; lia.
Qed.

Lemma NoDup_enumerate_filter {A : Type} (f : Z * A -> bool) (l : list A) (k : Z) :
  NoDup (map fst (filter f (enumerate_from k l))).
Proof.
  revert k; induction l as [ | y l IH]; intros k; simpl.
  - constructor.
  - destruct (f (k, y)); simpl; [ | apply IH].
    constructor; [ | apply IH].
    intros Hin. apply in_map_iff in Hin. destruct Hin as [[i x] [Hi Hin]].
    simpl in Hi; subst i.
    apply filter_In in Hin. destruct Hin as [Hin _].
    apply enumerate_from_fst_lt in Hin. lia.
Qed.

(** The indices the comprehension of [get_fixed_indices] keeps. *)
Definition fixed_positions (atom_flags : list Z) : list Z :=
  map fst (filter (fun p => truthy (snd p))
             (enumerate (map (fun flags => Z.land flags 8) atom_flags))).

Lemma in_fixed_positions (atom_flags : list Z) (i : Z) :
  In i (fixed_positions atom_flags) <->
  0 <= i < Z.of_nat (List.length atom_flags) /\
  Z.testbit (nth (Z.to_nat i) atom_flags 0) 3 = true.
Proof.
  unfold fixed_positions, enumerate.
  rewrite in_map_iff. split.
  - intros [[j x] [Hj Hin]]. simpl in Hj; subst j.
    apply filter_In in Hin. destruct Hin as [Hin Ht]. simpl in Ht.
    apply (in_enumerate_from 0) in Hin.
    rewrite length_map, Z.sub_0_r in Hin. destruct Hin as [Hr Hn].
    split; [lia | ].
    rewrite <- truthy_land8.
    change 0 with (Z.land 0 8) in Hn.
    rewrite (map_nth (fun flags => Z.land flags 8)) in Hn.
    rewrite Hn; exact Ht.
  - intros [Hr Hb].
    exists (i, Z.land (nth (Z.to_nat i) atom_flags 0) 8). split; [reflexivity | ].
    apply filter_In. split.
    + apply (in_enumerate_from 0).
      rewrite length_map, Z.sub_0_r. split; [lia | ].
      change 0 with (Z.land 0 8) at 1.
      apply (map_nth (fun flags => Z.land flags 8)).
    + simpl. rewrite truthy_land8. exact Hb.
Qed.

(** ** The Fixed-Atom Locator *)

(** C6: [get_fixed_indices] returns exactly the 0-based positions, in the
    iteration order of the selection, of the atoms whose flag bit [0x8] is
    set.  Every index is non-negative and below the number of atoms; the
    result is empty when the selection is empty or no atom is fixed; the
    function returns (it does not raise) whatever the flags are, and its only
    call is the host's iteration, so the world it leaves is the one the
    iteration left and nothing is written to the scene. *)
Theorem get_fixed_indices_positions
  (E : Env) (w w1 : world E) (selection : string) (state : Z) (atom_flags : list Z) :
  handle E (cmd_iterate_state state selection) w = (Ok atom_flags, w1) ->
  exists l : list Z,
    run E (get_fixed_indices selection state) w
    = (Ok l, w1, [Ev (cmd_iterate_state state selection) (Ok atom_flags)]) /\
    (forall i : Z,
        In i l <->
        0 <= i < Z.of_nat (List.length atom_flags) /\
        Z.testbit (nth (Z.to_nat i) atom_flags 0) 3 = true) /\
    NoDup l /\
    (atom_flags = [] -> l = []) /\
    ((forall flags, In flags atom_flags -> Z.testbit flags 3 = false) -> l = []) /\
    existsb mutates_scene
      (calls (trace_of (run E (get_fixed_indices selection state) w))) = false.
Proof.
  intros Hit.
  exists (fixed_positions atom_flags).
  assert (Hrun : run E (get_fixed_indices selection state) w
                 = (Ok (fixed_positions atom_flags), w1,
                    [Ev (cmd_iterate_state state selection) (Ok atom_flags)])).
  { unfold get_fixed_indices; simpl. rewrite Hit. reflexivity. }
  split; [exact Hrun | ].
  split; [apply in_fixed_positions | ].
  split; [apply NoDup_enumerate_filter | ].
  split; [intros ->; reflexivity | ].
  split.
  - intros Hnone.
    destruct (fixed_positions atom_flags) as [ | i l] eqn:Hl; [reflexivity | exfalso].
    assert (Hin : In i (fixed_positions atom_flags)) by (rewrite Hl; left; reflexivity).
    apply in_fixed_positions in Hin. destruct Hin as [Hr Hb].
    rewrite Hnone in Hb; [discriminate | ].
    apply nth_In. lia.
  - rewrite Hrun. reflexivity.
Qed.

(** In the session of [session] the atoms at positions 1 and 2 are fixed. *)
Lemma get_fixed_indices_positions_witness :
  exists l : list Z,
    run scripted (get_fixed_indices "sele" (-1)) session
    = (Ok l, session, [Ev (cmd_iterate_state (-1) "sele") (Ok [0; 8; 12; 3])]) /\
    (forall i : Z,
        In i l <->
        0 <= i < 4 /\ Z.testbit (nth (Z.to_nat i) [0; 8; 12; 3] 0) 3 = true) /\
    NoDup l /\
    ([0; 8; 12; 3] = [] -> l = []) /\
    ((forall flags, In flags [0; 8; 12; 3] -> Z.testbit flags 3 = false) -> l = []) /\
    existsb mutates_scene
      (calls (trace_of (run scripted (get_fixed_indices "sele" (-1)) session))) = false.
Proof.
  apply (get_fixed_indices_positions scripted session session "sele" (-1) [0; 8; 12; 3]).
  reflexivity.
Defined.

Example get_fixed_indices_session :
  result_of (run scripted (get_fixed_indices "sele" (-1)) session) = Ok [1; 2].
Proof. reflexivity. Qed.

(** ** Every run of a program

    [all_runs p Q]: whatever the environment answers to the calls of [p],
    the calls made and the outcome satisfy [Q]. *)
Fixpoint all_runs {A : Type} (p : prog A) (Q : list event -> outcome A -> Prop) : Prop :=
  match p with
  | Ret a => Q [] (Ok a)
  | Raise e => Q [] (Raised e)
  | Vis c k => forall r, all_runs (k r) (fun t o => Q (Ev c r :: t) o)
  end.

Lemma all_runs_run {A : Type} (p : prog A) (Q : list event -> outcome A -> Prop) :
  all_runs p Q ->
  forall (E : Env) (w : world E),
    Q (trace_of (run E p w)) (result_of (run E p w)).
Proof.
  revert Q; induction p as [a | e | c k IH]; intros Q H E w; simpl in *.
  - exact H.
  - exact H.
  - destruct (handle E c w) as [r w1].
    specialize (IH r _ (H r) E w1).
    destruct (run E (k r) w1) as [[o w2] t]. exact IH.
Qed.

Lemma all_runs_mono {A : Type} (p : prog A) (Q Q' : list event -> outcome A -> Prop) :
  (forall t o, Q t o -> Q' t o) -> all_runs p Q -> all_runs p Q'.
Proof.
  revert Q Q'; induction p as [a | e | c k IH]; intros Q Q' HQ H; simpl in *.
  - apply HQ, H.
  - apply HQ, H.
  - intros r. apply (IH r _ _ (fun t o => HQ (Ev c r :: t) o)), H.
Qed.

Lemma all_runs_any {A : Type} (p : prog A) (Q : list event -> outcome A -> Prop) :
  (forall t o, Q t o) -> all_runs p Q.
Proof.
  revert Q; induction p as [a | e | c k IH]; intros Q HQ; simpl.
  - apply HQ.
  - apply HQ.
  - intros r. apply IH. intros t o. apply HQ.
Qed.

Lemma all_runs_bind {A B : Type} (p : prog A) (f : A -> prog B)
  (Q : list event -> outcome B -> Prop) :
  all_runs p (fun t o =>
    match o with
    | Ok a => all_runs (f a) (fun t' o' => Q (t ++ t')%list o')
    | Raised e => Q t (Raised e)
    end) ->
  all_runs (bind p f) Q.
Proof.
  revert Q; induction p as [a | e | c k IH]; intros Q H; simpl in *.
  - exact H.
  - exact H.
  - intros r. apply IH. exact (H r).
Qed.

Lemma all_runs_try_finally {A : Type} (p : prog A) (f : prog unit)
  (Q : list event -> outcome A -> Prop) :
  all_runs p (fun t o =>
    all_runs f (fun t' o' =>
      Q (t ++ t')%list
        (match o' with Ok _ => o | Raised e => Raised e end))) ->
  all_runs (try_finally p f) Q.
Proof.
  revert Q; induction p as [a | e | c k IH]; intros Q H; simpl in *.
  - apply all_runs_bind.
    apply (all_runs_mono f _ _) with (2 := H).
    intros t [u | e] HQ; simpl; [rewrite app_nil_r | ]; exact HQ.
  - apply all_runs_bind.
    apply (all_runs_mono f _ _) with (2 := H).
    intros t [u | e'] HQ; simpl; [rewrite app_nil_r | ]; exact HQ.
  - intros r. apply IH. exact (H r).
Qed.

Lemma all_runs_try_except {A : Type} (p : prog A) (h : exn -> prog A)
  (Q : list event -> outcome A -> Prop) :
  all_runs p (fun t o =>
    match o with
    | Ok a => Q t (Ok a)
    | Raised e => all_runs (h e) (fun t' o' => Q (t ++ t')%list o')
    end) ->
  all_runs (try_except p h) Q.
Proof.
  revert Q; induction p as [a | e | c k IH]; intros Q H; simpl in *.
  - exact H.
  - exact H.
  - intros r. apply IH. exact (H r).
Qed.

(** ** An empty selection *)

(** What the adapter's [select] call was answered. *)
Definition selected (ev : event) : option (outcome Z) :=
  match ev with
  | Ev c r =>
      match c return outcome (answer c) -> option (outcome Z) with
      | cmd_select _ _ _ => fun r => Some r
      | _ => fun _ => None
      end r
  end.

Fixpoint select_outcome (t : list event) : option (outcome Z) :=
  match t with
  | [] => None
  | ev :: t' =>
      match selected ev with
      | Some r => Some r
      | None => select_outcome t'
      end
  end.

(** The calls an adapter makes before it selects: imports and the name of
    the temporary selection. *)
Definition is_prologue (c : call) : bool :=
  match c with
  | py_import _ | cmd_get_unused_name _ => true
  | _ => false
  end.

(** An adapter run on an empty selection: after [select] counted no atom,
    the one further call deletes the temporary selection, and the
    empty-selection error is what the caller gets (unless that deletion
    itself raised, whose exception then takes its place). *)
Definition aborts_on_empty (selection : string) (t : list event) (o : outcome unit) : Prop :=
  exists (before : list event) (sele : string) (d : outcome unit),
    t = (before ++ [Ev (cmd_select sele selection 0) (Ok 0);
                    Ev (cmd_delete sele) d])%list /\
    forallb is_prologue (calls before) = true /\
    o = match d with
        | Ok _ => Raised (CmdException "empty selection")
        | Raised e => Raised e
        end.

(** Both adapters open and close the same way: a fresh name for the
    temporary selection, the selection itself, the [try] block, and the
    deletion of the temporary selection in [finally]. *)
Definition select_then (selection : string) (body : string -> Z -> prog unit) : prog unit :=
  sele <- perform (cmd_get_unused_name "_sele") ;;
  natoms <- perform (cmd_select sele selection 0) ;;
  try_finally (body sele natoms) (perform (cmd_delete sele)).

Lemma select_then_empty (selection : string) (body : string -> Z -> prog unit) :
  (forall sele, body sele 0 = Raise (CmdException "empty selection")) ->
  forall pre : list event,
    forallb is_prologue (calls pre) = true ->
    all_runs (select_then selection body)
      (fun t o =>
         select_outcome t = Some (Ok 0) ->
         aborts_on_empty selection (pre ++ t)%list o).
Proof.
  intros Hbody pre Hpre. unfold select_then. simpl.
  intros [sele | e]; simpl; [ | discriminate].
  intros [natoms | e]; simpl.
  - destruct (Z.eq_dec natoms 0) as [-> | Hne].
    + rewrite Hbody. simpl.
      intros d.
      assert (Hshape :
        aborts_on_empty selection
          (pre ++ [Ev (cmd_get_unused_name "_sele") (Ok sele);
                   Ev (cmd_select sele selection 0) (Ok 0);
                   Ev (cmd_delete sele) d])%list
          (match d with
           | Ok _ => Raised (CmdException "empty selection")
           | Raised e => Raised e
           end)).
      { exists (pre ++ [Ev (cmd_get_unused_name "_sele") (Ok sele)])%list, sele, d.
        split; [rewrite <- app_assoc; reflexivity | ].
        split; [ | reflexivity].
        unfold calls. rewrite map_app, forallb_app.
        fold (calls pre). rewrite Hpre. reflexivity. }
      destruct d as [[] | e]; simpl; intros _; exact Hshape.
    + apply all_runs_any. intros t o H.
      inversion H. contradiction.
  - discriminate.
Qed.

Lemma minimize_ob_all_runs_empty
  (selection : string) (state : Z) (ff : string) (nsteps : Z) (conv : R)
  (cutoff : Z) (cut_vdw cut_elec : R) (name : string) (quiet : Z) :
  all_runs
    (minimize_ob selection state ff nsteps conv cutoff cut_vdw cut_elec name quiet)
    (fun t o => select_outcome t = Some (Ok 0) -> aborts_on_empty selection t o).
Proof.
  unfold minimize_ob. simpl.
  intros [[] | e1]; simpl; [ | discriminate].
  intros r2.
  assert (Htail :
    all_runs
      (select_then selection (fun sele natoms =>
         minimize_ob_try sele natoms state ff nsteps conv cutoff cut_vdw cut_elec
           name quiet))
      (fun t o =>
         select_outcome t = Some (Ok 0) ->
         aborts_on_empty selection
           ([Ev (py_import "openbabel") (Ok tt);
             Ev (py_import "openbabel.openbabel") r2] ++ t)%list o)).
  { apply select_then_empty; [ | reflexivity].
    intros sele. reflexivity. }
  destruct r2 as [[] | e2]; simpl.
  - exact Htail.
  - destruct e2; simpl; try discriminate.
    exact Htail.
Qed.

Lemma minimize_rdkit_all_runs_empty
  (selection : string) (state : Z) (ff : string) (nsteps : Z)
  (name : string) (quiet : Z) :
  all_runs
    (minimize_rdkit selection state ff nsteps name quiet)
    (fun t o => select_outcome t = Some (Ok 0) -> aborts_on_empty selection t o).
Proof.
  unfold minimize_rdkit. simpl.
  intros [[] | e1]; simpl; [ | discriminate].
  intros [[] | e2]; simpl; [ | discriminate].
  apply (select_then_empty selection
           (fun sele natoms => minimize_rdkit_try sele natoms state ff nsteps name quiet)
           (fun sele => eq_refl)
           [Ev (py_import "rdkit") (Ok tt); Ev (py_import "rdkit.Chem") (Ok tt)]).
  reflexivity.
Qed.

(** C8: whenever the selection of [minimize_ob] or of [minimize_rdkit]
    resolves to zero atoms, the adapter raises the empty-selection error at
    once: after the [select] call that counted no atom, its only further
    call deletes the temporary selection, so export, guard, constraints,
    minimisation and reconciliation are all skipped, and the error reaches
    the caller after that deletion. *)
Theorem empty_selection_aborts
  (E : Env) (w : world E) (selection : string) (state : Z) (ff : string)
  (nsteps : Z) (conv : R) (cutoff : Z) (cut_vdw cut_elec : R)
  (name : string) (quiet : Z) :
  let ob := run E (minimize_ob selection state ff nsteps conv cutoff cut_vdw
                     cut_elec name quiet) w in
  let rd := run E (minimize_rdkit selection state ff nsteps name quiet) w in
  (select_outcome (trace_of ob) = Some (Ok 0) ->
   aborts_on_empty selection (trace_of ob) (result_of ob)) /\
  (select_outcome (trace_of rd) = Some (Ok 0) ->
   aborts_on_empty selection (trace_of rd) (result_of rd)).
Proof.
  split.
  - apply (all_runs_run _ _ (minimize_ob_all_runs_empty _ _ _ _ _ _ _ _ _ _)).
  - apply (all_runs_run _ _ (minimize_rdkit_all_runs_empty _ _ _ _ _ _)).
Qed.

(** A session whose selection matches no atom. *)
Definition empty_session : script :=
  {| env_flags := []; env_coords := []; env_sample := []; env_missing := [];
     env_xfit := Ok 0%R; env_fit := Ok 0%R;
     env_forcefields := ["UFF"; "MMFF94"]; env_heavy := []; env_hydrogens := [];
     env_protonated := false; env_rdkit_reads := true; env_rc := 0 |}.

Lemma empty_selection_aborts_witness :
  aborts_on_empty "none"
    (trace_of (run scripted (minimize_ob "none" (-1) "UFF" 500 (1 / 10000) 0 6 8 "" 1)
                 empty_session))
    (result_of (run scripted (minimize_ob "none" (-1) "UFF" 500 (1 / 10000) 0 6 8 "" 1)
                  empty_session)) /\
  aborts_on_empty "none"
    (trace_of (run scripted (minimize_rdkit "none" (-1) "MMFF94" 200 "" 1) empty_session))
    (result_of (run scripted (minimize_rdkit "none" (-1) "MMFF94" 200 "" 1) empty_session)).
Proof.
  destruct (empty_selection_aborts scripted empty_session
              "none" (-1) "UFF" 500 (1 / 10000) 0 6 8 "" 1) as [Hob _].
  destruct (empty_selection_aborts scripted empty_session
              "none" (-1) "MMFF94" 200 (1 / 10000) 0 6 8 "" 1) as [_ Hrd].
  split; [apply Hob | apply Hrd]; reflexivity.
Defined.

Example minimize_ob_empty_session :
  run scripted (minimize_ob "none" (-1) "UFF" 500 (1 / 10000) 0 6 8 "" 1) empty_session
  = (Raised (CmdException "empty selection"), empty_session,
     [Ev (py_import "openbabel") (Ok tt);
      Ev (py_import "openbabel.openbabel") (Ok tt);
      Ev (cmd_get_unused_name "_sele") (Ok "_sele01");
      Ev (cmd_select "_sele01" "none" 0) (Ok 0);
      Ev (cmd_delete "_sele01") (Ok tt)]).
Proof. reflexivity. Qed.

(** ** The Result Reconciler *)

(** The calls of the preferred fit. *)
Definition is_preferred (c : call) : bool :=
  match c with
  | py_import _ | xfit _ _ _ _ _ _ _ => true
  | _ => false
  end.

Definition raised (ev : event) : option exn :=
  match ev with
  | Ev _ (Raised e) => Some e
  | Ev _ (Ok _) => None
  end.

(** The first failure of the preferred fit in a trace: its exception and
    the calls made after it. *)
Fixpoint preferred_failure (t : list event) : option (exn * list event) :=
  match t with
  | [] => None
  | ev :: t' =>
      if is_preferred (call_of ev) then
        match raised ev with
        | Some e => Some (e, t')
        | None => preferred_failure t'
        end
      else preferred_failure t'
  end.

(** The calls of the fit step: none of them adds or removes a name. *)
Definition is_fit_step (c : call) : bool :=
  match c with
  | py_import _ | xfit _ _ _ _ _ _ _ | cmd_fit _ _ _ _ _ _ | py_print _ => true
  | _ => false
  end.



Definition session_no_fitting : script :=
  {| env_flags := env_flags session; env_coords := env_coords session;
     env_sample := []; env_missing := ["psico.fitting"];
     env_xfit := Ok 0%R;
     env_fit := Ok 0%R;
     env_forcefields := env_forcefields session; env_heavy := env_heavy session;
     env_hydrogens := env_hydrogens session; env_protonated := false;
     env_rdkit_reads := true; env_rc := 0 |}.


Local Arguments String.append : simpl never.

(** Symbolic execution: take the next answer of the environment, by cases. *)
Ltac next_answer :=
  let x := fresh "x" in
  let e := fresh "e" in
  intros [x | e];
  [ try (match goal with u : unit |- _ => destruct u end)
  | destruct e ];
  simpl.







Lemma filter_absent (x : string) (names : list string) :
  ~ In x names ->
  filter (fun n => negb (n =? x)%string) names = names.
Proof.
  induction names as [ | n names IH]; intros Hx; simpl; [reflexivity | ].
  destruct (String.eqb_spec n x) as [-> | Hne]; simpl.
  - exfalso. apply Hx. left; reflexivity.
  - rewrite IH; [reflexivity | ].
    intros Hin. apply Hx. right; exact Hin.
Qed.

(** A run of update mode that returns normally: the temporary name, the
    load, the fit step, the coordinate update onto the selection, and the
    deletion of the temporary object. *)
Definition update_mode_run
  (molstr sele : string) (state : Z) (t : list event) : Prop :=
  exists (tmp : string) (fit_step : list event),
    t = (Ev (cmd_get_unused_name "_minimized") (Ok tmp)
         :: Ev (cmd_load_raw molstr "mol" tmp 1 0) (Ok tt)
         :: fit_step
         ++ [Ev (cmd_update sele tmp state 1 0) (Ok tt);
             Ev (cmd_delete tmp) (Ok tt)])%list /\
    forallb is_fit_step (calls fit_step) = true /\
    forall names : list string,
      ~ In tmp names -> scene_after names t = names.

Ltac update_leaf :=
  let H := fresh "H" in
  intros H; first
    [ discriminate H
    | match goal with
      | |- update_mode_run _ _ _ (Ev _ (Ok ?tmp) :: _ :: ?rest) =>
          exists tmp, (removelast (removelast rest))
      end;
      split; [reflexivity | ];
      split; [reflexivity | ];
      let names := fresh "names" in
      let Hfresh := fresh "Hfresh" in
      intros names Hfresh;
      unfold scene_after; simpl;
      rewrite String.eqb_refl; simpl;
      apply filter_absent; exact Hfresh ].

Lemma _load_or_update_all_runs_update (molstr sele : string) (state : Z) :
  all_runs (_load_or_update molstr "" sele state)
    (fun t o => o = Ok tt -> update_mode_run molstr sele state t).
Proof.
  unfold _load_or_update, _load_or_update_fit. simpl.
  repeat first [ next_answer | update_leaf ].
Qed.




(** ** The Degeneracy Guard *)

Lemma Rgtb_true (x y : R) : (x > y)%R -> Rgtb x y = true.
Proof.
  intros H. unfold Rgtb. destruct (Rgt_dec x y) as [_ | Hn]; [reflexivity | contradiction].
Qed.




Lemma std_unit_axis (l : list R) :
  l = [0; 1; 0; 0]%R \/ l = [0; 0; 1; 0]%R \/ l = [0; 0; 0; 1]%R \/ l = [1; 0; 0; 0]%R ->
  std l = sqrt (3 / 16).
Proof.
  intros H. unfold std. f_equal.
  destruct H as [-> | [-> | [-> | ->]]];
    unfold mean, Rsum, Rsqr; simpl; field.
Qed.

Lemma sqrt_3_16_large : (sqrt (3 / 16) > 1 / 1000)%R.
Proof.
  assert (H : (sqrt (Rsqr (1 / 1000)) < sqrt (3 / 16))%R).
  { apply sqrt_lt_1; unfold Rsqr; lra. }
  rewrite sqrt_Rsqr in H by lra. lra.
Qed.

Lemma session_spread : (std0_sum (env_coords session) > 1 / 1000)%R.
Proof.
  unfold std0_sum. simpl.
  rewrite !std_unit_axis by tauto.
  pose proof sqrt_3_16_large. lra.
Qed.


(** *** The degenerate case *)





























(** ** The adapters *)

(** The calls before the first iteration of the force field. *)
Fixpoint before_minimization (t : list event) : list event :=
  match t with
  | [] => []
  | ev :: t' =>
      if is_minimization (call_of ev) then [] else ev :: before_minimization t'
  end.

(** The constraint registrations of a trace, in order. *)
Definition registered (t : list event) : list call :=
  filter is_constraint (calls t).

(** The indices the Fixed-Atom Locator produced in a run: those of the
    flags the host's iteration answered. *)
Fixpoint locator_answer (t : list event) : option (list Z) :=
  match t with
  | [] => None
  | Ev c r :: t' =>
      match c return outcome (answer c) -> option (list Z) with
      | cmd_iterate_state _ _ => fun r =>
          match r with
          | Ok atom_flags => Some (fixed_positions atom_flags)
          | Raised _ => None
          end
      | _ => fun _ => locator_answer t'
      end r
  end.

(** Every index of the Locator is registered, through [register], before
    the first minimisation call, and nothing is registered after it. *)
Definition registers_before_minimizing (register : Z -> call) (t : list event) : Prop :=
  exists fixed : list Z,
    locator_answer t = Some fixed /\
    registered (before_minimization t) = map register fixed /\
    registered t = registered (before_minimization t).

(** The minimisation calls of a trace, in order. *)
Definition minimizations (t : list event) : list call :=
  filter is_minimization (calls t).

(** The calls of the reconciler. *)
Definition is_reconciler_call (c : call) : bool :=
  match c with
  | cmd_lockcm_enter | cmd_lockcm_exit | cmd_get_unused_name _ | cmd_delete _
  | cmd_load_raw _ _ _ _ _ | py_import _ | xfit _ _ _ _ _ _ _
  | cmd_fit _ _ _ _ _ _ | py_print _ | cmd_update _ _ _ _ _ => true
  | _ => false
  end.

(** [all_calls P p]: in every run, every call of [p] satisfies [P]. *)
Definition all_calls {A : Type} (P : call -> bool) (p : prog A) : Prop :=
  all_runs p (fun t _ => forallb P (calls t) = true).

Lemma all_calls_bind {A B : Type} (P : call -> bool) (p : prog A) (f : A -> prog B) :
  all_calls P p -> (forall a, all_calls P (f a)) -> all_calls P (bind p f).
Proof.
  unfold all_calls. intros Hp Hf.
  apply all_runs_bind.
  apply (all_runs_mono p _ _) with (2 := Hp).
  intros t [a | e] Ht; [ | exact Ht].
  apply (all_runs_mono (f a) _ _) with (2 := Hf a).
  intros t' o' Ht'. unfold calls. rewrite map_app, forallb_app.
  fold (calls t) (calls t'). rewrite Ht, Ht'. reflexivity.
Qed.

Lemma all_calls_perform (P : call -> bool) (c : call) :
  P c = true -> all_calls P (perform c).
Proof.
  unfold all_calls, perform. simpl. intros Hc [x | e]; simpl; rewrite Hc; reflexivity.
Qed.

Lemma all_calls_try_finally {A : Type} (P : call -> bool) (p : prog A) (f : prog unit) :
  all_calls P p -> all_calls P f -> all_calls P (try_finally p f).
Proof.
  unfold all_calls. intros Hp Hf.
  apply all_runs_try_finally.
  apply (all_runs_mono p _ _) with (2 := Hp).
  intros t o Ht.
  apply (all_runs_mono f _ _) with (2 := Hf).
  intros t' o' Ht'. unfold calls. rewrite map_app, forallb_app.
  fold (calls t) (calls t'). rewrite Ht, Ht'. reflexivity.
Qed.

Lemma all_calls_try_except {A : Type} (P : call -> bool) (p : prog A) (h : exn -> prog A) :
  all_calls P p -> (forall e, all_calls P (h e)) -> all_calls P (try_except p h).
Proof.
  unfold all_calls. intros Hp Hh.
  apply all_runs_try_except.
  apply (all_runs_mono p _ _) with (2 := Hp).
  intros t [a | e] Ht; [exact Ht | ].
  apply (all_runs_mono (h e) _ _) with (2 := Hh e).
  intros t' o' Ht'. unfold calls. rewrite map_app, forallb_app.
  fold (calls t) (calls t'). rewrite Ht, Ht'. reflexivity.
Qed.

Lemma all_calls_for_each {A : Type} (P : call -> bool) (l : list A) (body : A -> prog unit) :
  (forall x, all_calls P (body x)) -> all_calls P (for_each l body).
Proof.
  intros Hbody. induction l as [ | x l IH]; simpl.
  - reflexivity.
  - apply all_calls_bind; [apply Hbody | intros _; exact IH].
Qed.

Lemma all_calls_weaken {A : Type} (P P' : call -> bool) (p : prog A) :
  (forall c, P c = true -> P' c = true) -> all_calls P p -> all_calls P' p.
Proof.
  intros HP. apply all_runs_mono.
  intros t _ Ht.
  rewrite forallb_forall in *. intros c Hc. apply HP, Ht, Hc.
Qed.

(** Proving [all_calls] by walking the program. *)
Ltac walk_calls :=
  repeat first
    [ apply all_calls_bind; [ | intros ? ]
    | apply all_calls_perform; reflexivity
    | apply all_calls_try_finally
    | apply all_calls_try_except; [ | intros ? ]
    | apply all_calls_for_each; intros ?
    | match goal with
      | |- all_calls _ (if ?b then _ else _) => destruct b
      | |- all_calls _ (match ?x with Some _ => _ | None => _ end) => destruct x
      | |- all_calls _ (Ret _) => reflexivity
      | |- all_calls _ (Raise _) => reflexivity
      end ].

Lemma load_or_update_calls (molstr name sele : string) (state : Z) :
  all_calls is_reconciler_call (load_or_update molstr name sele state).
Proof.
  unfold load_or_update, with_lockcm, _load_or_update, _load_or_update_fit.
  walk_calls.
Qed.

Lemma all_runs_perform (c : call) (Q : list event -> outcome (answer c) -> Prop) :
  (forall r, Q [Ev c r] r) -> all_runs (perform c) Q.
Proof.
  intros H. unfold perform. simpl. intros [x | e]; simpl; apply H.
Qed.

Lemma all_runs_perform_bind {B : Type} (c : call) (f : answer c -> prog B)
  (Q : list event -> outcome B -> Prop) :
  (forall x, all_runs (f x) (fun t o => Q (Ev c (Ok x) :: t) o)) ->
  (forall e, Q [Ev c (Raised e)] (Raised e)) ->
  all_runs (bind (perform c) f) Q.
Proof.
  intros Hok Hraise. unfold perform. simpl. intros [x | e]; simpl.
  - apply Hok.
  - apply Hraise.
Qed.

(** Loops whose every iteration is one call. *)
Lemma all_runs_for_each_calls {A : Type} (c : A -> call) (l : list A)
  (body : A -> prog unit) (Q : list event -> outcome unit -> Prop) :
  (forall x, all_runs (body x) (fun t _ => calls t = [c x])) ->
  (forall t, calls t = map c l -> Q t (Ok tt)) ->
  (forall t e, (exists m, calls t = map c (firstn m l)) -> Q t (Raised e)) ->
  all_runs (for_each l body) Q.
Proof.
  intros Hbody. revert Q.
  induction l as [ | x l IH]; intros Q Hok Hraise; simpl.
  - apply Hok. reflexivity.
  - apply all_runs_bind.
    apply (all_runs_mono (body x) _ _) with (2 := Hbody x).
    intros t [[] | e] Ht.
    + apply IH.
      * intros t' Ht'. apply Hok.
        unfold calls in *. rewrite map_app, Ht, Ht'. reflexivity.
      * intros t' e [m Ht']. apply Hraise. exists (S m).
        unfold calls in *. rewrite map_app, Ht, Ht'. reflexivity.
    + apply Hraise. exists 1%nat. rewrite Ht. reflexivity.
Qed.

Lemma perform_one_call (c : call) :
  all_runs (perform c) (fun t _ => calls t = [c]).
Proof.
  apply all_runs_perform. reflexivity.
Qed.

(** Traces made of constraint registrations only. *)
Lemma registrations_only (register : Z -> call) (l : list Z) (t : list event) :
  (forall idx, is_constraint (register idx) = true) ->
  (forall idx, is_minimization (register idx) = false) ->
  calls t = map register l ->
  registered t = map register l /\
  existsb is_minimization (calls t) = false.
Proof.
  intros Hc Hm Ht. unfold registered. rewrite Ht. clear Ht. split.
  - induction l as [ | idx l IH]; cbn [map filter]; [reflexivity | ].
    rewrite Hc, IH. reflexivity.
  - induction l as [ | idx l IH]; cbn [map existsb]; [reflexivity | ].
    rewrite Hm, IH. reflexivity.
Qed.

Lemma before_minimization_app (t b : list event) :
  existsb is_minimization (calls t) = false ->
  before_minimization (t ++ b) = (t ++ before_minimization b)%list.
Proof.
  induction t as [ | ev t IH]; simpl; intros H; [reflexivity | ].
  apply orb_false_elim in H. destruct H as [Hev Ht].
  rewrite Hev, IH by exact Ht. reflexivity.
Qed.

Lemma registered_app (a b : list event) :
  registered (a ++ b) = (registered a ++ registered b)%list.
Proof.
  unfold registered, calls. rewrite map_app, filter_app. reflexivity.
Qed.

Lemma all_runs_bind_assoc {A B C : Type} (p : prog A) (f : A -> prog B) (g : B -> prog C)
  (Q : list event -> outcome C -> Prop) :
  all_runs (bind p (fun a => bind (f a) g)) Q -> all_runs (bind (bind p f) g) Q.
Proof.
  revert Q; induction p as [a | e | c k IH]; intros Q H; simpl in *.
  - exact H.
  - exact H.
  - intros r. apply IH, H.
Qed.

(** One step of a program, whatever the environment answers. *)
Ltac exec_step :=
  cbv beta iota zeta;
  lazymatch goal with
  | |- all_runs (bind (bind _ _) _) _ => apply all_runs_bind_assoc
  | |- all_runs (bind (try_except _ _) _) _ =>
      apply all_runs_bind; apply all_runs_try_except
  | |- all_runs (bind (perform _) _) _ =>
      apply all_runs_perform_bind; [intros ? | intros ?]
  | |- all_runs (bind (if ?b then _ else _) _) _ => destruct b eqn:?; cbn [bind]
  | |- all_runs (bind (Ret _) _) _ => cbn [bind]
  | |- all_runs (bind (Raise _) _) _ => cbn [bind]
  | |- all_runs (perform _) _ => apply all_runs_perform; intros [? | ?]
  | |- all_runs (Ret _) _ => cbn [all_runs]
  | |- all_runs (Raise _) _ => cbn [all_runs]
  | |- all_runs (match ?x with Some _ => _ | None => _ end) _ => destruct x
  | |- all_runs (if ?b then _ else _) _ => destruct b eqn:?
  end.

(** The calls of the stages before the constraints: neither a
    registration nor a minimisation. *)
Definition is_setup_call (c : call) : bool :=
  negb (is_constraint c) && negb (is_minimization c).

Definition not_constraint (c : call) : bool := negb (is_constraint c).


Lemma setup_trace (t : list event) :
  forallb is_setup_call (calls t) = true ->
  registered t = [] /\ existsb is_minimization (calls t) = false.
Proof.
  unfold registered.
  induction t as [ | [c r] t IH]; cbn [calls map forallb filter existsb call_of];
    intros H; [split; reflexivity | ].
  apply andb_prop in H. destruct H as [Hc Ht].
  destruct (IH Ht) as [IH1 IH2].
  unfold is_setup_call in Hc. apply andb_prop in Hc. destruct Hc as [Hc1 Hc2].
  apply negb_true_iff in Hc1, Hc2.
  fold (calls t). rewrite Hc1, Hc2, IH1, IH2. split; reflexivity.
Qed.

Lemma unconstrained_trace (t : list event) :
  forallb not_constraint (calls t) = true ->
  registered t = [] /\ registered (before_minimization t) = [].
Proof.
  unfold registered.
  induction t as [ | [c r] t IH];
    cbn [calls map forallb filter before_minimization call_of];
    intros H; [split; reflexivity | ].
  apply andb_prop in H. destruct H as [Hc Ht].
  destruct (IH Ht) as [IH1 IH2].
  unfold not_constraint in Hc. apply negb_true_iff in Hc.
  fold (calls t). rewrite Hc, IH1. split; [reflexivity | ].
  destruct (is_minimization c); [reflexivity | ].
  cbn [calls map filter call_of]. fold (calls (before_minimization t)).
  rewrite Hc. exact IH2.
Qed.

Lemma locator_answer_app (a b : list event) (fixed : list Z) :
  locator_answer a = Some fixed -> locator_answer (a ++ b) = Some fixed.
Proof.
  induction a as [ | [c r] a IH]; [discriminate | ].
  destruct c; cbn [locator_answer app]; try exact IH.
  destruct r; [tauto | discriminate].
Qed.

(** A run that got past the constraint loop: setup calls [tA] in which the
    Locator answered, the registrations [tL], and calls [tB] that register
    nothing. *)
Lemma registers_compose (register : Z -> call) (fixed : list Z)
  (tA tL tB : list event) :
  (forall idx, is_constraint (register idx) = true) ->
  (forall idx, is_minimization (register idx) = false) ->
  locator_answer tA = Some fixed ->
  forallb is_setup_call (calls tA) = true ->
  calls tL = map register fixed ->
  forallb not_constraint (calls tB) = true ->
  registers_before_minimizing register (tA ++ tL ++ tB).
Proof.
  intros Hc Hm Hloc HA HL HB.
  destruct (setup_trace tA HA) as [HA1 HA2].
  destruct (registrations_only register fixed tL Hc Hm HL) as [HL1 HL2].
  destruct (unconstrained_trace tB HB) as [HB1 HB2].
  exists fixed.
  split; [apply locator_answer_app; exact Hloc | ].
  rewrite !before_minimization_app by assumption.
  rewrite !registered_app, HA1, HL1, HB1, HB2.
  cbn [app]. rewrite app_nil_r.
  split; reflexivity.
Qed.

(** A run that stopped in the constraint loop, or before it, never iterated
    the force field. *)
Lemma aborted_in_loop (register : Z -> call) (fixed : list Z) (m : nat)
  (tA tL : list event) (c : call) (r : outcome (answer c)) :
  (forall idx, is_constraint (register idx) = true) ->
  (forall idx, is_minimization (register idx) = false) ->
  forallb is_setup_call (calls tA) = true ->
  calls tL = map register (firstn m fixed) ->
  is_minimization c = false ->
  existsb is_minimization (calls (tA ++ tL ++ [Ev c r])) = false.
Proof.
  intros Hc Hm HA HL Hcall.
  destruct (setup_trace tA HA) as [_ HA2].
  destruct (registrations_only register _ tL Hc Hm HL) as [_ HL2].
  unfold calls in *. rewrite !map_app, !existsb_app, HA2, HL2.
  cbn [map existsb call_of]. rewrite Hcall. reflexivity.
Qed.

(** Split a trace written with conses in front of an append. *)
Ltac front T :=
  lazymatch T with
  | ?ev :: ?rest => let f := front rest in constr:(ev :: f)
  | _ => constr:(@nil event)
  end.

Ltac back T :=
  lazymatch T with
  | _ :: ?rest => back rest
  | _ => T
  end.

Ltac walk_tail :=
  repeat
    lazymatch goal with
    | |- all_calls _ (bind _ _) => apply all_calls_bind; [ | intros ? ]
    | |- all_calls _ (perform _) => apply all_calls_perform; reflexivity
    | |- all_calls _ (load_or_update _ _ _ _) =>
        apply (all_calls_weaken is_reconciler_call);
        [ let c := fresh "c" in
          let H := fresh "H" in
          intros c H; destruct c; first [discriminate H | reflexivity]
        | apply load_or_update_calls ]
    | |- all_calls _ (for_each _ _) => apply all_calls_for_each; intros ?
    | |- all_calls _ (if ?b then _ else _) => destruct b
    | |- all_calls _ (match ?x with Some _ => _ | None => _ end) => destruct x
    | |- all_calls _ (Ret _) => reflexivity
    | |- all_calls _ (Raise _) => reflexivity
    end.

Lemma unconstrained_then_delete (tB : list event) (name : string) (r : outcome unit) :
  forallb not_constraint (calls tB) = true ->
  forallb not_constraint (calls (tB ++ [Ev (cmd_delete name) r])) = true.
Proof.
  intros HB. unfold calls in *. rewrite map_app, forallb_app, HB. reflexivity.
Qed.

(** The run from the constraint loop on: [tail_proof] shows that what
    follows the loop registers nothing. *)
Ltac from_loop register :=
  apply all_runs_bind;
  apply all_runs_for_each_calls with (c := register);
  [ intros ?; apply perform_one_call
  | let tL := fresh "tL" in
    let HL := fresh "HL" in
    intros tL HL;
    apply all_runs_mono with (Q := fun t _ => forallb not_constraint (calls t) = true);
    [ let tB := fresh "tB" in
      let HB := fresh "HB" in
      intros tB ? HB;
      exec_step;
      ( intros _;
        cbn [app]; rewrite <- app_assoc;
        match goal with
        | |- exists cons, registers_before_minimizing _ ?T =>
            let f := front T in
            let b := back T in
            change T with (f ++ b)%list
        end;
        eexists;
        eapply registers_compose;
        [ intros ?; reflexivity
        | intros ?; reflexivity
        | reflexivity
        | reflexivity
        | exact HL
        | apply unconstrained_then_delete; exact HB ] )
    | match goal with
      | |- all_runs ?p _ => change (all_calls not_constraint p)
      end;
      walk_tail ]
  | let tL := fresh "tL" in
    let HL := fresh "HL" in
    let m := fresh "m" in
    let H := fresh "H" in
    intros tL ? [m HL];
    exec_step;
    ( intros H; exfalso;
      cbn [app] in H;
      match type of H with
      | existsb _ (calls ?T) = true =>
          let f := front T in
          let b := back T in
          change T with (f ++ b)%list in H
      end;
      erewrite (aborted_in_loop register) in H;
      [ discriminate H
      | intros ?; reflexivity
      | intros ?; reflexivity
      | reflexivity
      | exact HL
      | reflexivity ] ) ].

Lemma minimize_ob_try_registers
  (sele : string) (natoms : Z) (state : Z) (ff : string) (nsteps : Z) (conv : R)
  (cutoff : Z) (cut_vdw cut_elec : R) (name : string) (quiet : Z) :
  all_runs
    (try_finally
       (minimize_ob_try sele natoms state ff nsteps conv cutoff cut_vdw cut_elec
          name quiet)
       (perform (cmd_delete sele)))
    (fun t _ =>
       existsb is_minimization (calls t) = true ->
       exists cons,
         registers_before_minimizing
           (fun idx => ob_AddAtomConstraint cons (idx + 1)) t).
Proof.
  apply all_runs_try_finally.
  unfold minimize_ob_try, randomize_coords_if_collapsed, get_fixed_indices.
  do 40 (try exec_step);
    try (let H := fresh "H" in intros H; simpl in H; discriminate H).
  all: lazymatch goal with
       | |- all_runs (bind (for_each _ (fun idx => perform (@?c idx))) _) _ =>
           from_loop c
       end.
Qed.

(** The calls before the [try] block. *)
Definition is_opening (c : call) : bool :=
  match c with
  | py_import _ | cmd_get_unused_name _ | cmd_select _ _ _ => true
  | _ => false
  end.

Lemma registers_after_opening (register : pyobj -> Z -> call) (pre t : list event) :
  forallb is_opening (calls pre) = true ->
  (existsb is_minimization (calls t) = true ->
   exists h, registers_before_minimizing (register h) t) ->
  existsb is_minimization (calls (pre ++ t)) = true ->
  exists h, registers_before_minimizing (register h) (pre ++ t).
Proof.
  induction pre as [ | [c r] pre IH]; cbn [app calls map forallb call_of existsb];
    intros Hpre Ht Hmin; [exact (Ht Hmin) | ].
  apply andb_prop in Hpre. destruct Hpre as [Hc Hpre].
  assert (Hm : is_minimization c = false) by (destruct c; first [discriminate Hc | reflexivity]).
  rewrite Hm in Hmin. cbn [orb] in Hmin.
  destruct (IH Hpre Ht Hmin) as [h [fixed [Hloc [Hreg Hall]]]].
  exists h, fixed.
  unfold registered in *.
  cbn [before_minimization call_of calls map filter]. rewrite Hm.
  cbn [calls map filter call_of].
  assert (Hk : is_constraint c = false) by (destruct c; first [discriminate Hc | reflexivity]).
  rewrite Hk.
  split; [ | split; assumption].
  destruct c; first [discriminate Hc | exact Hloc].
Qed.

(** From the [try] block to the adapter: the opening calls change
    nothing. *)
Ltac after_opening register block :=
  eapply all_runs_mono; [ | apply block ];
  cbv beta;
  let t := fresh "t" in
  let Ht := fresh "Ht" in
  intros t ? Ht; cbn [app];
  match goal with
  | |- existsb _ (calls ?T) = true -> _ =>
      let f := front T in
      change T with (f ++ t)%list
  end;
  apply (registers_after_opening register); [reflexivity | exact Ht].

Lemma minimize_ob_all_runs_registers
  (selection : string) (state : Z) (ff : string) (nsteps : Z) (conv : R)
  (cutoff : Z) (cut_vdw cut_elec : R) (name : string) (quiet : Z) :
  all_runs
    (minimize_ob selection state ff nsteps conv cutoff cut_vdw cut_elec name quiet)
    (fun t _ =>
       existsb is_minimization (calls t) = true ->
       exists cons,
         registers_before_minimizing
           (fun idx => ob_AddAtomConstraint cons (idx + 1)) t).
Proof.
  unfold minimize_ob.
  do 8 (try exec_step);
    try (let H := fresh "H" in intros H; simpl in H; discriminate H).
  all: after_opening
         (fun cons idx => ob_AddAtomConstraint cons (idx + 1))
         minimize_ob_try_registers.
Qed.

Lemma minimize_rdkit_try_registers
  (sele : string) (natoms : Z) (state : Z) (ff : string) (nsteps : Z)
  (name : string) (quiet : Z) :
  all_runs
    (try_finally
       (minimize_rdkit_try sele natoms state ff nsteps name quiet)
       (perform (cmd_delete sele)))
    (fun t _ =>
       existsb is_minimization (calls t) = true ->
       exists field,
         registers_before_minimizing (fun idx => rd_AddFixedPoint field idx) t).
Proof.
  apply all_runs_try_finally.
  unfold minimize_rdkit_try, randomize_coords_if_collapsed, get_fixed_indices.
  do 40 (try exec_step);
    try (let H := fresh "H" in intros H; simpl in H; discriminate H).
  all: lazymatch goal with
       | |- all_runs (bind (for_each _ (fun idx => perform (@?c idx))) _) _ =>
           from_loop c
       end.
Qed.

Lemma minimize_rdkit_all_runs_registers
  (selection : string) (state : Z) (ff : string) (nsteps : Z)
  (name : string) (quiet : Z) :
  all_runs
    (minimize_rdkit selection state ff nsteps name quiet)
    (fun t _ =>
       existsb is_minimization (calls t) = true ->
       exists field,
         registers_before_minimizing (fun idx => rd_AddFixedPoint field idx) t).
Proof.
  unfold minimize_rdkit.
  do 8 (try exec_step);
    try (let H := fresh "H" in intros H; simpl in H; discriminate H).
  all: after_opening
         (fun field idx => rd_AddFixedPoint field idx)
         minimize_rdkit_try_registers.
Qed.

(** C7: in every run that reaches the minimisation, each index [idx] the
    Fixed-Atom Locator produced has been registered before the first
    minimisation call, by [minimize_ob] as the constraint on atom
    [idx + 1] (openbabel numbers atoms from 1) and by [minimize_rdkit] as
    the fixed point [idx] (RDKit numbers them from 0); these are all the
    registrations of the run, in the order of the indices. *)
Theorem fixed_indices_registered
  (E : Env) (w : world E) (selection : string) (state : Z) (ff : string)
  (nsteps : Z) (conv : R) (cutoff : Z) (cut_vdw cut_elec : R)
  (name : string) (quiet : Z) :
  let ob := trace_of (run E (minimize_ob selection state ff nsteps conv cutoff
                               cut_vdw cut_elec name quiet) w) in
  let rd := trace_of (run E (minimize_rdkit selection state ff nsteps name quiet) w) in
  (existsb is_minimization (calls ob) = true ->
   exists consttrains,
     registers_before_minimizing
       (fun idx => ob_AddAtomConstraint consttrains (idx + 1)) ob) /\
  (existsb is_minimization (calls rd) = true ->
   exists field,
     registers_before_minimizing (fun idx => rd_AddFixedPoint field idx) rd).
Proof.
  split.
  - apply (all_runs_run _ _ (minimize_ob_all_runs_registers _ _ _ _ _ _ _ _ _ _)).
  - apply (all_runs_run _ _ (minimize_rdkit_all_runs_registers _ _ _ _ _ _)).
Qed.

Lemma session_guard_test :
  Rgtb (std0_sum [(0, 0, 0); (1, 0, 0); (0, 1, 0); (0, 0, 1)]%R) (1 / 1000) = true.
Proof. apply Rgtb_true. exact session_spread. Qed.

(** Running an adapter in [session]: the guard's test is the one step that
    does not compute. *)
Ltac run_in_session :=
  unfold minimize_ob, minimize_ob_try, minimize_rdkit, minimize_rdkit_try,
    randomize_coords_if_collapsed;
  cbn -[Rgtb std0_sum IZR];
  rewrite session_guard_test;
  reflexivity.

Lemma minimize_ob_session_registrations :
  registered
    (trace_of (run scripted (minimize_ob "all" (-1) "UFF" 500 (1 / 10000) 0 6 8 "" 1)
                 session))
  = [ob_AddAtomConstraint (PyRef 2) 2; ob_AddAtomConstraint (PyRef 2) 3].
Proof. run_in_session. Qed.

Lemma minimize_rdkit_session_registrations :
  registered
    (trace_of (run scripted (minimize_rdkit "all" (-1) "MMFF94" 200 "" 1) session))
  = [rd_AddFixedPoint (PyRef 3) 1; rd_AddFixedPoint (PyRef 3) 2].
Proof. run_in_session. Qed.

Lemma minimize_ob_session_minimizes :
  existsb is_minimization
    (calls (trace_of (run scripted
                        (minimize_ob "all" (-1) "UFF" 500 (1 / 10000) 0 6 8 "" 1)
                        session)))
  = true.
Proof. run_in_session. Qed.

Lemma minimize_rdkit_session_minimizes :
  existsb is_minimization
    (calls (trace_of (run scripted (minimize_rdkit "all" (-1) "MMFF94" 200 "" 1)
                        session)))
  = true.
Proof. run_in_session. Qed.

Lemma fixed_indices_registered_witness :
  (exists consttrains,
     registers_before_minimizing
       (fun idx => ob_AddAtomConstraint consttrains (idx + 1))
       (trace_of (run scripted
                    (minimize_ob "all" (-1) "UFF" 500 (1 / 10000) 0 6 8 "" 1)
                    session))) /\
  (exists field,
     registers_before_minimizing (fun idx => rd_AddFixedPoint field idx)
       (trace_of (run scripted (minimize_rdkit "all" (-1) "MMFF94" 200 "" 1) session))).
Proof.
  destruct (fixed_indices_registered scripted session
              "all" (-1) "UFF" 500 (1 / 10000) 0 6 8 "" 1) as [Hob _].
  destruct (fixed_indices_registered scripted session
              "all" (-1) "MMFF94" 200 (1 / 10000) 0 6 8 "" 1) as [_ Hrd].
  split.
  - apply Hob. exact minimize_ob_session_minimizes.
  - apply Hrd. exact minimize_rdkit_session_minimizes.
Defined.

(** *** The step budget of [minimize_ob] *)












Example minimize_ob_session_budget :
  let r := run scripted (minimize_ob "all" (-1) "UFF" 501 (1 / 10000) 0 6 8 "" 1)
             session in
  result_of r = Ok tt /\
  minimizations (trace_of r)
  = [ob_SteepestDescent (PyRef 3) 250 (1 / 10000);
     ob_ConjugateGradients (PyRef 3) 250 (1 / 10000)].
Proof.
  split; run_in_session.
Qed.

(** ** [clean_ob] *)

Definition is_flag (c : call) : bool :=
  match c with cmd_flag _ _ _ => true | _ => false end.

(** The run of [clean_ob] with a non-empty [present], from the run of the
    minimisation it wraps: the flag is set on [present] and cleared on the
    selection first; the closing [flag clear] on [present] is called when,
    and only when, [minimize_ob] returned. *)
Lemma run_clean_ob
  (E : Env) (w w1 w2 : world E) (selection present : string) (state : Z)
  (fix_ restrain method : string) (save_undo : Z) (message : option string) :
  nonempty present = true ->
  handle E (cmd_flag "fix" present "set") w = (Ok tt, w1) ->
  handle E (cmd_flag "fix" selection "clear") w1 = (Ok tt, w2) ->
  let ff := if (method =? "mmff")%string then "MMFF94" else method in
  let m := run E (minimize_ob ("(" ++ selection ++ ")|(" ++ present ++ ")")
                    state ff 50 (1 / 10000) 0 6 8 "" 1) w2 in
  let opening := [Ev (cmd_flag "fix" present "set") (Ok tt);
                  Ev (cmd_flag "fix" selection "clear") (Ok tt)] in
  let closing := cmd_flag "fix" present "clear" in
  run E (clean_ob selection present state fix_ restrain method save_undo message) w
  = match result_of m with
    | Ok _ =>
        (fst (handle E closing (world_of m)), snd (handle E closing (world_of m)),
         (opening ++ trace_of m
          ++ [Ev closing (fst (handle E closing (world_of m)))])%list)
    | Raised e => (Raised e, world_of m, (opening ++ trace_of m)%list)
    end.
Proof.
  intros Hpresent Hset Hclear ff m opening closing.
  unfold clean_ob. rewrite Hpresent.
  rewrite run_bind.
  assert (Hopen :
    run E (perform (cmd_flag "fix" present "set") ;;
           perform (cmd_flag "fix" selection "clear") ;;
           Ret ("(" ++ selection ++ ")|(" ++ present ++ ")")) w
    = (Ok ("(" ++ selection ++ ")|(" ++ present ++ ")"), w2, opening)).
  { simpl. rewrite Hset. simpl. rewrite Hclear. reflexivity. }
  rewrite Hopen. cbv zeta. rewrite run_bind. fold ff. fold m.
  destruct m as [[[[] | e] w3] tm]; unfold result_of, world_of, trace_of; simpl.
  - fold closing. destruct (handle E closing w3) as [[[] | e] w4]; reflexivity.
  - reflexivity.
Qed.

(** A session in which the force field asked for is unknown to openbabel. *)
Definition clean_ob_failing_run : outcome unit * script * list event :=
  run scripted (clean_ob "polymer" "ligand" (-1) "" "" "nosuchff" 1 None) session.

(** C1, the failing execution: [present] is non-empty and the minimisation
    raises (openbabel does not know the force field).  The flag was set on
    [present] and cleared on the selection before the minimisation, the
    exception leaves [clean_ob], and the flag is not cleared on [present]:
    the two opening calls are the only [flag] calls of the run. *)
Theorem clean_ob_leaves_flag_on_error :
  result_of clean_ob_failing_run
  = Raised (CmdException
      "FindForceField returned None, please check BABEL_LIBDIR and BABEL_DATADIR") /\
  filter is_flag (calls (trace_of clean_ob_failing_run))
  = [cmd_flag "fix" "ligand" "set"; cmd_flag "fix" "polymer" "clear"] /\
  existsb is_minimization (calls (trace_of clean_ob_failing_run)) = false /\
  last (calls (trace_of clean_ob_failing_run)) cmd_lockcm_enter = cmd_delete "_sele01".
Proof.
  unfold clean_ob_failing_run, clean_ob.
  repeat split; run_in_session.
Qed.

(** When the minimisation returns, the flag is cleared on [present] as the
    last call. *)
Example clean_ob_session :
  let r := run scripted (clean_ob "polymer" "ligand" (-1) "" "" "mmff" 1 None) session in
  result_of r = Ok tt /\
  filter is_flag (calls (trace_of r))
  = [cmd_flag "fix" "ligand" "set"; cmd_flag "fix" "polymer" "clear";
     cmd_flag "fix" "ligand" "clear"] /\
  last (calls (trace_of r)) cmd_lockcm_enter = cmd_flag "fix" "ligand" "clear".
Proof.
  unfold clean_ob.
  repeat split; run_in_session.
Qed.

(** ** Concurrent reconciliations

    Modelled from the spec: the host's lock ([_self.lockcm]) is not part of
    the sources; the spec describes it as one process-wide exclusive lock.
    Here several threads each run [load_or_update] against one shared
    scene, one call at a time in any order; entering the lock succeeds only
    while no thread holds it, and leaving it releases it. *)

Inductive position : Type :=
| Waiting   (* has not entered the lock yet *)
| Inside    (* holds the lock *)
| Gone.     (* has left it *)

Record thread : Type := {
  code : prog unit;       (* what the thread has still to run *)
  pos : position
}.

(** One call, with the thread that made it and where that thread stood. *)
Definition entry : Type := (nat * position * event)%type.

Definition entry_thread (x : entry) : nat := fst (fst x).

Definition is_lock (c : call) : bool :=
  match c with
  | cmd_lockcm_enter | cmd_lockcm_exit => true
  | _ => false
  end.

(** A program that never touches the lock. *)
Fixpoint lock_free {A : Type} (p : prog A) : Prop :=
  match p with
  | Ret _ | Raise _ => True
  | Vis c k => is_lock c = false /\ forall r, lock_free (k r)
  end.

Fixpoint replace_nth {A : Type} (i : nat) (x : A) (l : list A) : list A :=
  match l, i with
  | [], _ => []
  | _ :: l', O => x :: l'
  | y :: l', S i' => y :: replace_nth i' x l'
  end.

(** No call of one thread falls between two calls of another. *)
Definition no_interleaving (ks : list nat) : Prop :=
  forall (l1 l2 l3 l4 : list nat) (a b : nat),
    ks = (l1 ++ a :: l2 ++ b :: l3 ++ a :: l4)%list -> a = b.

Record invocation : Type := {
  inv_molstr : string;
  inv_name : string;
  inv_sele : string;
  inv_state : Z
}.

Section Interleaving.

Variable E : Env.

Record system : Type := {
  shared : world E;            (* the host and the engines *)
  owner : option nat;          (* the thread holding the lock *)
  threads : list thread;
  calls_made : list entry     (* every call but the lock's, in order *)
}.

(** Thread [i] runs its next call, if it can. *)
Definition thread_step (i : nat) (s : system) : system :=
  match nth_error (threads s) i with
  | None => s
  | Some th =>
      match code th with
      | Ret _ | Raise _ => s
      | Vis c k =>
          match c as c0 return (outcome (answer c0) -> prog unit) -> system with
          | cmd_lockcm_enter => fun k =>
              match owner s with
              | None =>
                  {| shared := shared s;
                     owner := Some i;
                     threads := replace_nth i {| code := k (Ok tt); pos := Inside |}
                                  (threads s);
                     calls_made := calls_made s |}
              | Some _ => s
              end
          | cmd_lockcm_exit => fun k =>
              match owner s with
              | Some j =>
                  if (j =? i)%nat then
                    {| shared := shared s;
                       owner := None;
                       threads := replace_nth i {| code := k (Ok tt); pos := Gone |}
                                    (threads s);
                       calls_made := calls_made s |}
                  else s
              | None => s
              end
          | c0 => fun k =>
              let '(r, w) := handle E c0 (shared s) in
              {| shared := w;
                 owner := owner s;
                 threads := replace_nth i {| code := k r; pos := pos th |} (threads s);
                 calls_made := (calls_made s ++ [(i, pos th, Ev c0 r)])%list |}
          end k
      end
  end.

Definition run_schedule (schedule : list nat) (s : system) : system :=
  fold_left (fun s i => thread_step i s) schedule s.

(** Every thread about to call [load_or_update]. *)
Definition start (w : world E) (invocations : list invocation) : system :=
  {| shared := w;
     owner := None;
     threads :=
       map (fun a =>
              {| code := load_or_update (inv_molstr a) (inv_name a) (inv_sele a)
                           (inv_state a);
                 pos := Waiting |})
         invocations;
     calls_made := [] |}.

End Interleaving.

Arguments shared {E} s.
Arguments owner {E} s.
Arguments threads {E} s.
Arguments calls_made {E} s.
Arguments thread_step {E} i s.
Arguments run_schedule {E} schedule s.

(** The threads of the calls made, in order. *)
Definition callers {E : Env} (s : system E) : list nat :=
  map entry_thread (calls_made s).

(** Built one call at a time: each call is by a thread that has made none
    yet, or by the thread of the call before. *)
Inductive serial : list nat -> Prop :=
| serial_nil : serial []
| serial_snoc (ks : list nat) (k : nat) :
    serial ks ->
    ~ In k ks \/ (exists l, ks = (l ++ [k])%list) ->
    serial (ks ++ [k]).

(** In a serial list, a thread that calls again later is also the next to
    call. *)
Lemma serial_next (ks : list nat) :
  serial ks ->
  forall (l r : list nat) (a : nat),
    ks = (l ++ a :: r)%list -> In a r -> exists r', r = a :: r'.
Proof.
  induction 1 as [ | ks k Hks IH Hk]; intros l r a Heq Hin.
  - destruct l; discriminate Heq.
  - destruct (exists_last (l := r)) as [r' [z Hr]];
      [intros ->; contradiction | ].
    subst r.
    assert (Hsplit : (ks ++ [k] = (l ++ a :: r') ++ [z])%list).
    { rewrite Heq, <- app_assoc. reflexivity. }
    apply app_inj_tail in Hsplit. destruct Hsplit as [Hks' <-].
    apply in_app_or in Hin. destruct Hin as [Hin | [<- | []]].
    + destruct (IH l r' a Hks' Hin) as [r'' ->].
      exists (r'' ++ [k])%list. reflexivity.
    + destruct Hk as [Hnew | [l0 Hlast]].
      * exfalso. apply Hnew. rewrite Hks'. apply in_or_app. right. left. reflexivity.
      * destruct r' as [ | x r'].
        -- exists []. reflexivity.
        -- destruct (exists_last (l := x :: r')) as [r'' [z Hr]]; [discriminate | ].
           rewrite Hr in Hks'.
           assert (Hsplit : (l0 ++ [k] = (l ++ k :: r'') ++ [z])%list).
           { rewrite <- Hlast, Hks', <- app_assoc. reflexivity. }
           apply app_inj_tail in Hsplit. destruct Hsplit as [_ <-].
           rewrite Hr.
           assert (Hin : In k (x :: r')) by (rewrite Hr; apply in_or_app; right; left; reflexivity).
           destruct (IH l (x :: r') k) as [r3 Hr3].
           ++ rewrite Hks', Hr. reflexivity.
           ++ exact Hin.
           ++ rewrite <- Hr, Hr3. exists (r3 ++ [k])%list. reflexivity.
Qed.

Lemma serial_no_interleaving (ks : list nat) : serial ks -> no_interleaving ks.
Proof.
  intros Hks l1 l2. revert l1.
  induction l2 as [ | x l2 IH]; intros l1 l3 l4 a b Heq.
  - destruct (serial_next ks Hks l1 (b :: l3 ++ a :: l4) a Heq) as [r' Hr'].
    + right. apply in_or_app. right. left. reflexivity.
    + inversion Hr'. reflexivity.
  - destruct (serial_next ks Hks l1 ((x :: l2) ++ b :: l3 ++ a :: l4) a Heq) as [r' Hr'].
    + apply in_or_app. right. right. apply in_or_app. right. left. reflexivity.
    + inversion Hr'; subst x.
      apply (IH (l1 ++ [a])%list l3 l4 a b).
      rewrite Heq, <- app_assoc. reflexivity.
Qed.

(** *** The invariant *)

Definition thread_ok {E : Env} (s : system E) (i : nat) (th : thread) : Prop :=
  match pos th with
  | Waiting =>
      (exists molstr name sele state,
          code th = load_or_update molstr name sele state) /\
      owner s <> Some i /\ ~ In i (callers s)
  | Inside =>
      (exists q, lock_free q /\ code th = try_finally q (perform cmd_lockcm_exit)) /\
      owner s = Some i
  | Gone =>
      match code th with Vis _ _ => False | _ => True end /\
      owner s <> Some i
  end.

Record invariant {E : Env} (s : system E) : Prop := {
  inv_threads :
    forall i th, nth_error (threads s) i = Some th -> thread_ok s i th;
  inv_inside :
    forall x, In x (calls_made s) -> snd (fst x) = Inside;
  inv_serial : serial (callers s);
  inv_owner :
    forall i, owner s = Some i ->
              ~ In i (callers s) \/ exists l, callers s = (l ++ [i])%list
}.

Lemma nth_error_replace_nth {A : Type} (l : list A) (i j : nat) (x y : A) :
  nth_error (replace_nth i x l) j = Some y ->
  (i = j /\ y = x) \/ (i <> j /\ nth_error l j = Some y).
Proof.
  revert i j; induction l as [ | z l IH]; intros i j H.
  - destruct i, j; discriminate H.
  - destruct i as [ | i], j as [ | j]; cbn [replace_nth nth_error] in H.
    + inversion H. left. split; reflexivity.
    + right. split; [discriminate | exact H].
    + right. split; [discriminate | exact H].
    + destruct (IH i j H) as [[-> ->] | [Hne Hnth]].
      * left. split; reflexivity.
      * right. split; [congruence | exact Hnth].
Qed.

Lemma _load_or_update_lock_free (molstr name sele : string) (state : Z) :
  lock_free (_load_or_update molstr name sele state).
Proof.
  unfold _load_or_update, _load_or_update_fit.
  destruct (nonempty name); simpl;
    repeat first
      [ split; [reflexivity | ]
      | exact I
      | let x := fresh "x" in
        let e := fresh "e" in
        intros [x | e]; [ | try destruct e]; simpl ].
Qed.

Lemma invariant_start {E : Env} (w : world E) (invocations : list invocation) :
  invariant (start E w invocations).
Proof.
  split.
  - intros i th Hth. unfold start in Hth. cbn [threads] in Hth.
    rewrite nth_error_map in Hth.
    destruct (nth_error invocations i) as [a | ]; [ | discriminate Hth].
    inversion Hth. unfold thread_ok. cbn [pos code].
    split; [eexists _, _, _, _; reflexivity | ].
    split; [discriminate | intros []].
  - intros x [].
  - constructor.
  - intros i H. discriminate H.
Qed.

(** The lock changes hands, or the owner makes a call: the other threads
    stay as they were. *)
Lemma others_after_enter {E : Env} (s s' : system E) (i j : nat) (th : thread) :
  owner s = None -> owner s' = Some i -> callers s' = callers s ->
  i <> j -> thread_ok s j th -> thread_ok s' j th.
Proof.
  intros Ho Ho' Hc Hne. unfold thread_ok.
  destruct (pos th); rewrite ?Ho, ?Ho', ?Hc.
  - intros [H1 [_ H3]]. split; [exact H1 | split; [congruence | exact H3]].
  - intros [_ H]. discriminate H.
  - intros [H1 _]. split; [exact H1 | congruence].
Qed.

Lemma others_after_exit {E : Env} (s s' : system E) (i j : nat) (th : thread) :
  owner s = Some i -> owner s' = None -> callers s' = callers s ->
  i <> j -> thread_ok s j th -> thread_ok s' j th.
Proof.
  intros Ho Ho' Hc Hne. unfold thread_ok.
  destruct (pos th); rewrite ?Ho, ?Ho', ?Hc.
  - intros [H1 [_ H3]]. split; [exact H1 | split; [discriminate | exact H3]].
  - intros [_ H]. congruence.
  - intros [H1 _]. split; [exact H1 | discriminate].
Qed.

Lemma others_after_call {E : Env} (s s' : system E) (i j : nat) (th : thread) :
  owner s = Some i -> owner s' = Some i ->
  callers s' = (callers s ++ [i])%list ->
  i <> j -> thread_ok s j th -> thread_ok s' j th.
Proof.
  intros Ho Ho' Hc Hne. unfold thread_ok.
  destruct (pos th); rewrite ?Ho, ?Ho', ?Hc.
  - intros [H1 [H2 H3]]. split; [exact H1 | split; [exact H2 | ]].
    intros Hin. apply in_app_or in Hin. destruct Hin as [Hin | [Heq | []]].
    + exact (H3 Hin).
    + exact (Hne Heq).
  - intros [_ H]. congruence.
  - intros [H1 H2]. split; [exact H1 | exact H2].
Qed.

Lemma invariant_step {E : Env} (i : nat) (s : system E) :
  invariant s -> invariant (thread_step i s).
Proof.
  intros Hinv. unfold thread_step.
  destruct (nth_error (threads s) i) as [th | ] eqn:Hth; [ | exact Hinv].
  pose proof (inv_threads s Hinv i th Hth) as Hok. unfold thread_ok in Hok.
  destruct (pos th) eqn:Hpos.
  - (* about to enter *)
    destruct Hok as [[molstr [name [sele [state Hcode]]]] [Hown Hnew]].
    rewrite Hcode. unfold load_or_update, with_lockcm. cbn [bind perform].
    destruct (owner s) as [j | ] eqn:Ho; [exact Hinv | ].
    split; cbn [threads owner calls_made].
    + intros j thj Hj. apply nth_error_replace_nth in Hj.
      destruct Hj as [[<- ->] | [Hne Hj]].
      * unfold thread_ok. cbn [pos code owner].
        split; [ | reflexivity].
        exists (_load_or_update molstr name sele state).
        split; [apply _load_or_update_lock_free | reflexivity].
      * apply others_after_enter with (s := s) (i := i);
          [exact Ho | reflexivity | reflexivity | exact Hne | ].
        apply (inv_threads s Hinv j thj Hj).
    + apply (inv_inside s Hinv).
    + apply (inv_serial s Hinv).
    + intros k Hk. inversion Hk; subst k. left. exact Hnew.
  - (* inside *)
    destruct Hok as [[q [Hfree Hcode]] Hown].
    rewrite Hcode.
    destruct q as [a | e | c k]; cbn [try_finally bind perform].
    + rewrite Hown, Nat.eqb_refl.
      split; cbn [threads owner calls_made].
      * intros j thj Hj. apply nth_error_replace_nth in Hj.
        destruct Hj as [[<- ->] | [Hne Hj]].
        -- unfold thread_ok. cbn [pos code owner bind]. split; [exact I | discriminate].
        -- apply others_after_exit with (s := s) (i := i);
             [exact Hown | reflexivity | reflexivity | exact Hne | ].
           apply (inv_threads s Hinv j thj Hj).
      * apply (inv_inside s Hinv).
      * apply (inv_serial s Hinv).
      * intros k Hk. discriminate Hk.
    + rewrite Hown, Nat.eqb_refl.
      split; cbn [threads owner calls_made].
      * intros j thj Hj. apply nth_error_replace_nth in Hj.
        destruct Hj as [[<- ->] | [Hne Hj]].
        -- unfold thread_ok. cbn [pos code owner bind]. split; [exact I | discriminate].
        -- apply others_after_exit with (s := s) (i := i);
             [exact Hown | reflexivity | reflexivity | exact Hne | ].
           apply (inv_threads s Hinv j thj Hj).
      * apply (inv_inside s Hinv).
      * apply (inv_serial s Hinv).
      * intros k Hk. discriminate Hk.
    + cbn [lock_free] in Hfree. destruct Hfree as [Hlock Hk].
      destruct c; try discriminate Hlock;
        destruct (handle E _ (shared s)) as [res w'] eqn:Hres;
        (split; cbn [threads owner calls_made];
         [ intros j thj Hj; apply nth_error_replace_nth in Hj;
           destruct Hj as [[<- ->] | [Hne Hj]];
           [ unfold thread_ok; cbn [pos code owner];
             split; [ | exact Hown];
             eexists; split; [apply (Hk res) | reflexivity]
           | apply others_after_call with (s := s) (i := i);
             [ exact Hown
             | exact Hown
             | unfold callers; cbn [calls_made]; rewrite map_app; reflexivity
             | exact Hne
             | apply (inv_threads s Hinv j thj Hj) ] ]
         | intros x Hx; apply in_app_or in Hx;
           destruct Hx as [Hx | [<- | []]];
           [ apply (inv_inside s Hinv x Hx) | reflexivity ]
         | unfold callers; cbn [calls_made]; rewrite map_app;
           apply serial_snoc; [apply (inv_serial s Hinv) | ];
           apply (inv_owner s Hinv i Hown)
         | intros k' Hk'; right;
           unfold callers; cbn [calls_made]; rewrite map_app;
           rewrite Hown in Hk'; inversion Hk'; subst k';
           eexists; reflexivity ]).
  - (* gone *)
    destruct (code th); [exact Hinv | exact Hinv | ].
    destruct Hok as [[] _].
Qed.

Lemma invariant_run_schedule {E : Env} (schedule : list nat) (s : system E) :
  invariant s -> invariant (run_schedule schedule s).
Proof.
  revert s; induction schedule as [ | i schedule IH]; intros s Hinv.
  - exact Hinv.
  - apply IH, invariant_step, Hinv.
Qed.

(** One run of [load_or_update]: the lock is entered first; if that
    succeeds, the calls of [_load_or_update] follow, none of them a lock
    call, and the lock is left last, whatever happened in between. *)
Definition bracketed (t : list event) : Prop :=
  (exists e, t = [Ev cmd_lockcm_enter (Raised e)]) \/
  (exists (body : list event) (r : outcome unit),
      t = (Ev cmd_lockcm_enter (Ok tt) :: body ++ [Ev cmd_lockcm_exit r])%list /\
      existsb is_lock (calls body) = false).

Definition not_lock (c : call) : bool := negb (is_lock c).

Lemma _load_or_update_calls (molstr name sele : string) (state : Z) :
  all_calls not_lock (_load_or_update molstr name sele state).
Proof.
  unfold _load_or_update, _load_or_update_fit.
  walk_calls.
Qed.

Lemma load_or_update_bracketed (molstr name sele : string) (state : Z) :
  all_runs (load_or_update molstr name sele state) (fun t _ => bracketed t).
Proof.
  unfold load_or_update, with_lockcm.
  apply all_runs_perform_bind.
  - intros [].
    apply all_runs_try_finally.
    apply (all_runs_mono _ _ _) with (2 := _load_or_update_calls molstr name sele state).
    intros body o Hbody.
    apply all_runs_perform. intros r.
    right. exists body, r. split; [reflexivity | ].
    clear - Hbody.
    induction (calls body) as [ | c cs IH]; cbn [forallb existsb] in *; [reflexivity | ].
    apply andb_prop in Hbody. destruct Hbody as [Hc Hcs].
    unfold not_lock in Hc. apply negb_true_iff in Hc.
    rewrite Hc. apply IH, Hcs.
  - intros e. left. exists e. reflexivity.
Qed.

(** C9: a run of [load_or_update] makes all its calls, the scene mutation
    among them, between entering and leaving the host's lock.  With the lock
    exclusive, however the calls of any number of concurrent invocations are
    scheduled: every call of an invocation is made while it holds the lock,
    at most one invocation is inside the lock at any time, and the calls on
    the shared scene are never interleaved (no call of one invocation falls
    between two calls of another). *)
Theorem reconciliations_are_serialized
  (E : Env) (w : world E) (molstr name sele : string) (state : Z)
  (invocations : list invocation) (schedule : list nat) :
  let s := run_schedule schedule (start E w invocations) in
  bracketed (trace_of (run E (load_or_update molstr name sele state) w)) /\
  (forall x, In x (calls_made s) -> snd (fst x) = Inside) /\
  (forall i j thi thj,
      nth_error (threads s) i = Some thi ->
      nth_error (threads s) j = Some thj ->
      pos thi = Inside -> pos thj = Inside -> i = j) /\
  no_interleaving (callers s).
Proof.
  intros s.
  assert (Hinv : invariant s)
    by (apply invariant_run_schedule, invariant_start).
  split.
  { apply (all_runs_run _ _ (load_or_update_bracketed molstr name sele state) E w). }
  split; [apply (inv_inside s Hinv) | ].
  split.
  - intros i j thi thj Hi Hj Hpi Hpj.
    pose proof (inv_threads s Hinv i thi Hi) as Hoki.
    pose proof (inv_threads s Hinv j thj Hj) as Hokj.
    unfold thread_ok in Hoki, Hokj. rewrite Hpi in Hoki. rewrite Hpj in Hokj.
    destruct Hoki as [_ Hoi]. destruct Hokj as [_ Hoj].
    rewrite Hoi in Hoj. inversion Hoj. reflexivity.
  - apply serial_no_interleaving, (inv_serial s Hinv).
Qed.

(** Two invocations taking turns: the second cannot enter before the first
    has left, and the calls come out one invocation after the other. *)
Example two_reconciliations :
  let s := run_schedule [0; 1; 0; 1; 0; 1; 0; 1; 0; 1; 0; 1; 0; 1; 0; 1; 1; 1; 1; 1; 1; 1; 1]%nat
             (start scripted session
                [{| inv_molstr := "a"; inv_name := ""; inv_sele := "sele_a"; inv_state := 1 |};
                 {| inv_molstr := "b"; inv_name := ""; inv_sele := "sele_b"; inv_state := 1 |}]) in
  callers s = [0; 0; 0; 0; 0; 0; 1; 1; 1; 1; 1; 1]%nat /\
  owner s = None /\
  map pos (threads s) = [Gone; Gone].
Proof.
  split; [reflexivity | split; reflexivity].
Qed.

(** * Further properties of the module *)

(** ** The order of the Locator's result *)

Lemma enumerate_filter_sorted {A : Type} (f : Z * A -> bool) (l : list A) (k : Z) :
  StronglySorted Z.lt (map fst (filter f (enumerate_from k l))).
Proof.
  revert k; induction l as [ | y l IH]; intros k; simpl.
  - constructor.
  - destruct (f (k, y)); simpl; [ | apply IH].
    constructor; [apply IH | ].
    apply Forall_forall. intros i Hin.
    apply in_map_iff in Hin. destruct Hin as [[j x] [Hj Hin]].
    simpl in Hj; subst j.
    apply filter_In in Hin. destruct Hin as [Hin _].
    apply enumerate_from_fst_lt in Hin. lia.
Qed.

Lemma enumerate_filter_count (l : list Z) (k : Z) :
  List.length
    (map fst (filter (fun p => truthy (snd p))
                (enumerate_from k (map (fun flags => Z.land flags 8) l))))
  = List.length (filter (fun flags => Z.testbit flags 3) l).
Proof.
  revert k; induction l as [ | y l IH]; intros k;
    cbn [map enumerate_from filter snd]; [reflexivity | ].
  rewrite truthy_land8.
  destruct (Z.testbit y 3); cbn [map List.length]; rewrite IH; reflexivity.
Qed.

(** X1: [get_fixed_indices] lists the indices in strictly increasing
    order, one for each atom whose fix bit is set; when the host's
    iteration raises, the exception is the caller's and no list is built. *)
Theorem get_fixed_indices_ordered
  (E : Env) (w : world E) (selection : string) (state : Z) :
  let r := run E (get_fixed_indices selection state) w in
  match result_of r with
  | Ok l =>
      exists atom_flags : list Z,
        trace_of r = [Ev (cmd_iterate_state state selection) (Ok atom_flags)] /\
        StronglySorted Z.lt l /\
        List.length l
        = List.length (filter (fun flags => Z.testbit flags 3) atom_flags)
  | Raised e =>
      trace_of r = [Ev (cmd_iterate_state state selection) (Raised e)]
  end.
Proof.
  unfold get_fixed_indices; simpl.
  destruct (handle E (cmd_iterate_state state selection) w) as [[atom_flags | e] w1];
    simpl; [ | reflexivity].
  exists atom_flags.
  split; [reflexivity | ].
  split; [apply enumerate_filter_sorted | apply enumerate_filter_count].
Qed.

(** ** The temporary selection *)

Definition is_import (c : call) : bool :=
  match c with py_import _ => true | _ => false end.

Definition is_delete (c : call) : bool :=
  match c with cmd_delete _ => true | _ => false end.

(** How an adapter's run ends.  Once [select] has returned, the last call
    of the run deletes the temporary selection it made, under the name the
    host generated, whatever happened in between; an exception of that
    deletion is the caller's.  When [select] did not return (it raised, or
    an import or the name generation raised before it), the run raised and
    nothing was deleted. *)
Definition releases_selection (selection : string) (t : list event) (o : outcome unit) : Prop :=
  match select_outcome t with
  | Some (Ok n) =>
      exists (imports body : list event) (sele : string) (d : outcome unit),
        t = (imports ++ Ev (cmd_get_unused_name "_sele") (Ok sele)
                     :: Ev (cmd_select sele selection 0) (Ok n)
                     :: body ++ [Ev (cmd_delete sele) d])%list /\
        forallb is_import (calls imports) = true /\
        (forall e, d = Raised e -> o = Raised e)
  | _ =>
      existsb is_delete (calls t) = false /\ exists e, o = Raised e
  end.

Lemma imports_transparent (pre t : list event) :
  forallb is_import (calls pre) = true ->
  select_outcome (pre ++ t) = select_outcome t /\
  existsb is_delete (calls (pre ++ t)) = existsb is_delete (calls t).
Proof.
  induction pre as [ | [c r] pre IH]; cbn [app calls map forallb call_of];
    intros H; [split; reflexivity | ].
  apply andb_prop in H. destruct H as [Hc Hpre].
  destruct (IH Hpre) as [IH1 IH2].
  destruct c; try discriminate Hc.
  cbn [select_outcome selected existsb is_delete orb calls map call_of].
  split; assumption.
Qed.

Lemma select_then_releases
  (selection : string) (body : string -> Z -> prog unit) (pre : list event) :
  forallb is_import (calls pre) = true ->
  all_runs (select_then selection body)
    (fun t o => releases_selection selection (pre ++ t)%list o).
Proof.
  intros Hpre. unfold select_then. simpl.
  intros [sele | e]; simpl.
  - intros [n | e]; simpl.
    + apply all_runs_try_finally. apply all_runs_any. intros tb ob.
      apply all_runs_perform. intros d.
      unfold releases_selection.
      rewrite (proj1 (imports_transparent pre _ Hpre)).
      cbn [select_outcome selected].
      exists pre, tb, sele, d.
      split; [reflexivity | ].
      split; [exact Hpre | ].
      intros e ->. reflexivity.
    + unfold releases_selection.
      rewrite (proj1 (imports_transparent pre _ Hpre)),
        (proj2 (imports_transparent pre _ Hpre)).
      cbn.
      split; [reflexivity | exists e; reflexivity].
  - unfold releases_selection.
    rewrite (proj1 (imports_transparent pre _ Hpre)),
      (proj2 (imports_transparent pre _ Hpre)).
    cbn.
    split; [reflexivity | exists e; reflexivity].
Qed.

Lemma minimize_ob_all_runs_releases
  (selection : string) (state : Z) (ff : string) (nsteps : Z) (conv : R)
  (cutoff : Z) (cut_vdw cut_elec : R) (name : string) (quiet : Z) :
  all_runs
    (minimize_ob selection state ff nsteps conv cutoff cut_vdw cut_elec name quiet)
    (releases_selection selection).
Proof.
  unfold minimize_ob. simpl.
  intros [[] | e1]; simpl;
    [ | split; [reflexivity | exists e1; reflexivity] ].
  intros r2.
  assert (Htail :
    all_runs
      (select_then selection (fun sele natoms =>
         minimize_ob_try sele natoms state ff nsteps conv cutoff cut_vdw cut_elec
           name quiet))
      (fun t o =>
         releases_selection selection
           ([Ev (py_import "openbabel") (Ok tt);
             Ev (py_import "openbabel.openbabel") r2] ++ t)%list o)).
  { apply select_then_releases. reflexivity. }
  destruct r2 as [[] | e2]; simpl.
  - exact Htail.
  - destruct e2; simpl;
      first [ exact Htail
            | split; [reflexivity | eexists; reflexivity] ].
Qed.

Lemma minimize_rdkit_all_runs_releases
  (selection : string) (state : Z) (ff : string) (nsteps : Z)
  (name : string) (quiet : Z) :
  all_runs
    (minimize_rdkit selection state ff nsteps name quiet)
    (releases_selection selection).
Proof.
  unfold minimize_rdkit. simpl.
  intros [[] | e1]; simpl;
    [ | split; [reflexivity | exists e1; reflexivity] ].
  intros [[] | e2]; simpl;
    [ | split; [reflexivity | exists e2; reflexivity] ].
  apply (select_then_releases selection
           (fun sele natoms => minimize_rdkit_try sele natoms state ff nsteps name quiet)
           [Ev (py_import "rdkit") (Ok tt); Ev (py_import "rdkit.Chem") (Ok tt)]).
  reflexivity.
Qed.

(** X2: both adapters release the temporary selection in every run: once
    [select] has returned, whatever the try block does (return, or raise at
    any call), the last call of the run deletes the selection under the
    name the host generated for it; and a run in which [select] did not
    return deletes nothing. *)
Theorem temporary_selection_released
  (E : Env) (w : world E) (selection : string) (state : Z) (ff : string)
  (nsteps : Z) (conv : R) (cutoff : Z) (cut_vdw cut_elec : R)
  (name : string) (quiet : Z) :
  let ob := run E (minimize_ob selection state ff nsteps conv cutoff cut_vdw
                     cut_elec name quiet) w in
  let rd := run E (minimize_rdkit selection state ff nsteps name quiet) w in
  releases_selection selection (trace_of ob) (result_of ob) /\
  releases_selection selection (trace_of rd) (result_of rd).
Proof.
  split.
  - apply (all_runs_run _ _ (minimize_ob_all_runs_releases _ _ _ _ _ _ _ _ _ _)).
  - apply (all_runs_run _ _ (minimize_rdkit_all_runs_releases _ _ _ _ _ _)).
Qed.

(** ** What a run shows

    [collect f t]: the values [f] picks from the events of [t], in the
    order of the run. *)
Fixpoint collect {A : Type} (f : event -> option A) (t : list event) : list A :=
  match t with
  | [] => []
  | ev :: t' =>
      match f ev with
      | Some a => a :: collect f t'
      | None => collect f t'
      end
  end.

Lemma collect_app {A : Type} (f : event -> option A) (a b : list event) :
  collect f (a ++ b) = (collect f a ++ collect f b)%list.
Proof.
  induction a as [ | ev a IH]; cbn [app collect]; [reflexivity | ].
  destruct (f ev); rewrite IH; reflexivity.
Qed.

(** Calls of a class that [f] does not look at show nothing. *)
Lemma collect_class {A : Type} (f : event -> option A) (P : call -> bool)
  (t : list event) :
  (forall c r, P c = true -> f (Ev c r) = None) ->
  forallb P (calls t) = true ->
  collect f t = [].
Proof.
  intros Hf.
  induction t as [ | [c r] t IH]; cbn [calls map forallb collect call_of];
    intros H; [reflexivity | ].
  apply andb_prop in H. destruct H as [Hc Ht].
  rewrite (Hf c r Hc). apply IH, Ht.
Qed.

(** A stage of which only the class of its calls matters. *)
Lemma all_runs_class_bind {A B : Type} (P : call -> bool) (p : prog A)
  (f : A -> prog B) (Q : list event -> outcome B -> Prop) :
  all_calls P p ->
  (forall t a, forallb P (calls t) = true ->
     all_runs (f a) (fun t' o' => Q (t ++ t')%list o')) ->
  (forall t e, forallb P (calls t) = true -> Q t (Raised e)) ->
  all_runs (bind p f) Q.
Proof.
  intros Hp Hok Hraise. apply all_runs_bind.
  apply (all_runs_mono p _ _) with (2 := Hp).
  intros t [a | e] Ht; [apply Hok | apply Hraise]; exact Ht.
Qed.

Ltac class_step P :=
  lazymatch goal with
  | |- all_runs (bind (for_each _ _) _) _ =>
      apply (all_runs_class_bind P); [ walk_tail | intros ? [] ? | intros ? ? ? ]
  | |- all_runs (bind (load_or_update _ _ _ _) _) _ =>
      apply (all_runs_class_bind P); [ walk_tail | intros ? [] ? | intros ? ? ? ]
  end.

(** Rewriting [collect] over the stages of a run that show nothing. *)
Ltac collect_silent :=
  repeat
    match goal with
    | H : forallb ?P (calls ?t) = true |- context [collect ?f ?t] =>
        rewrite (collect_class f P t
                   ltac:(let c := fresh "c" in
                         let r := fresh "r" in
                         let Hc := fresh "Hc" in
                         intros c r Hc; destruct c;
                         first [discriminate Hc | reflexivity])
                   H)
    end.

(** An adapter's run that returned: the imports, the temporary selection
    under the generated name, the calls [body] of the try block, and the
    deletion of the selection. *)
Definition adapter_returned
  (selection : string) (try_block : string -> list event -> Prop)
  (t : list event) : Prop :=
  exists (imports body : list event) (sele : string) (n : Z),
    t = (imports ++ Ev (cmd_get_unused_name "_sele") (Ok sele)
                 :: Ev (cmd_select sele selection 0) (Ok n)
                 :: body ++ [Ev (cmd_delete sele) (Ok tt)])%list /\
    forallb is_import (calls imports) = true /\
    try_block sele body.

Lemma select_then_returned
  (selection : string) (body : string -> Z -> prog unit)
  (try_block : string -> list event -> Prop) (pre : list event) :
  forallb is_import (calls pre) = true ->
  (forall sele n, all_runs (body sele n) (fun t o => o = Ok tt -> try_block sele t)) ->
  all_runs (select_then selection body)
    (fun t o => o = Ok tt -> adapter_returned selection try_block (pre ++ t)%list).
Proof.
  intros Hpre Hbody. unfold select_then. simpl.
  intros [sele | e]; simpl; [ | discriminate].
  intros [n | e]; simpl; [ | discriminate].
  apply all_runs_try_finally.
  apply (all_runs_mono (body sele n) _ _) with (2 := Hbody sele n).
  intros tb ob Hb.
  apply all_runs_perform. intros [[] | e]; [ | discriminate].
  intros Hob.
  exists pre, tb, sele, n.
  split; [reflexivity | ].
  split; [exact Hpre | exact (Hb Hob)].
Qed.

Lemma minimize_ob_returned
  (selection : string) (state : Z) (ff : string) (nsteps : Z) (conv : R)
  (cutoff : Z) (cut_vdw cut_elec : R) (name : string) (quiet : Z)
  (try_block : string -> list event -> Prop) :
  (forall sele natoms,
     all_runs
       (minimize_ob_try sele natoms state ff nsteps conv cutoff cut_vdw cut_elec
          name quiet)
       (fun t o => o = Ok tt -> try_block sele t)) ->
  all_runs
    (minimize_ob selection state ff nsteps conv cutoff cut_vdw cut_elec name quiet)
    (fun t o => o = Ok tt -> adapter_returned selection try_block t).
Proof.
  intros Hbody. unfold minimize_ob. simpl.
  intros [[] | e1]; simpl; [ | discriminate].
  intros r2.
  assert (Htail :
    all_runs
      (select_then selection (fun sele natoms =>
         minimize_ob_try sele natoms state ff nsteps conv cutoff cut_vdw cut_elec
           name quiet))
      (fun t o =>
         o = Ok tt ->
         adapter_returned selection try_block
           ([Ev (py_import "openbabel") (Ok tt);
             Ev (py_import "openbabel.openbabel") r2] ++ t)%list)).
  { apply select_then_returned; [reflexivity | exact Hbody]. }
  destruct r2 as [[] | e2]; simpl.
  - exact Htail.
  - destruct e2; simpl; first [exact Htail | discriminate].
Qed.

Lemma minimize_rdkit_returned
  (selection : string) (state : Z) (ff : string) (nsteps : Z)
  (name : string) (quiet : Z)
  (try_block : string -> list event -> Prop) :
  (forall sele natoms,
     all_runs
       (minimize_rdkit_try sele natoms state ff nsteps name quiet)
       (fun t o => o = Ok tt -> try_block sele t)) ->
  all_runs
    (minimize_rdkit selection state ff nsteps name quiet)
    (fun t o => o = Ok tt -> adapter_returned selection try_block t).
Proof.
  intros Hbody. unfold minimize_rdkit. simpl.
  intros [[] | e1]; simpl; [ | discriminate].
  intros [[] | e2]; simpl; [ | discriminate].
  apply (select_then_returned selection
           (fun sele natoms => minimize_rdkit_try sele natoms state ff nsteps name quiet)
           try_block
           [Ev (py_import "rdkit") (Ok tt); Ev (py_import "rdkit.Chem") (Ok tt)]).
  - reflexivity.
  - exact Hbody.
Qed.

(** What [collect] shows of an adapter's run is what it shows of the try
    block, when the imports, the selection and its deletion show nothing. *)
Lemma collect_adapter_run {A : Type} (f : event -> option A)
  (imports body : list event) (sele : string) (selection : string) (n : Z)
  (d : outcome unit) :
  (forall c r, is_opening c = true -> f (Ev c r) = None) ->
  (forall name r, f (Ev (cmd_delete name) r) = None) ->
  forallb is_import (calls imports) = true ->
  collect f (imports ++ Ev (cmd_get_unused_name "_sele") (Ok sele)
                     :: Ev (cmd_select sele selection 0) (Ok n)
                     :: body ++ [Ev (cmd_delete sele) d])
  = collect f body.
Proof.
  intros Hopen Hdel Himp.
  rewrite collect_app.
  rewrite (collect_class f is_import imports).
  - cbn [app collect].
    rewrite (Hopen (cmd_get_unused_name "_sele") (Ok sele) eq_refl).
    rewrite (Hopen (cmd_select sele selection 0) (Ok n) eq_refl).
    rewrite collect_app. cbn [collect].
    rewrite (Hdel sele d). apply app_nil_r.
  - intros c r Hc. apply Hopen. destruct c; first [discriminate Hc | reflexivity].
  - exact Himp.
Qed.

Lemma none_of_class (P : call -> bool) (l : list call) :
  forallb (fun c => negb (P c)) l = true -> existsb P l = false.
Proof.
  induction l as [ | c l IH]; cbn [forallb existsb]; intros H; [reflexivity | ].
  apply andb_prop in H. destruct H as [Hc Hl].
  apply negb_true_iff in Hc. rewrite Hc, (IH Hl). reflexivity.
Qed.

(** ** The hydrogens openbabel adds *)

(** The atom identifiers the molecule listed, each time it was asked. *)
Definition atom_ids_listed (ev : event) : option (list Z) :=
  match ev with
  | Ev c r =>
      match c return outcome (answer c) -> option (list Z) with
      | ob_atom_ids _ => fun r => match r with Ok l => Some l | Raised _ => None end
      | _ => fun _ => None
      end r
  end.

(** The identifiers looked up for removal, the atoms those lookups found,
    and the atoms deleted. *)
Definition looked_up (ev : event) : option Z :=
  match call_of ev with ob_GetAtomById _ id => Some id | _ => None end.

Definition found_atom (ev : event) : option pyobj :=
  match ev with
  | Ev c r =>
      match c return outcome (answer c) -> option pyobj with
      | ob_GetAtomById _ _ => fun r => match r with Ok a => Some a | Raised _ => None end
      | _ => fun _ => None
      end r
  end.

Definition deleted_atom (ev : event) : option pyobj :=
  match call_of ev with ob_DeleteAtom _ a => Some a | _ => None end.

Definition is_atom_bookkeeping (c : call) : bool :=
  match c with
  | ob_atom_ids _ | ob_GetAtomById _ _ | ob_DeleteAtom _ _ => true
  | _ => false
  end.

Definition no_atom_bookkeeping (c : call) : bool := negb (is_atom_bookkeeping c).

(** The molecule was listed twice, before and after [AddHydrogens]; the
    identifiers looked up are those of the second listing that are not in
    the first, once each, and the atoms deleted are the ones found. *)
Definition removes_added_hydrogens (t : list event) : Prop :=
  exists orig_ids all_ids : list Z,
    collect atom_ids_listed t = [orig_ids; all_ids] /\
    (forall id, In id (collect looked_up t) <-> In id all_ids /\ ~ In id orig_ids) /\
    NoDup (collect looked_up t) /\
    collect deleted_atom t = collect found_atom t.

Lemma set_difference_spec (new old : list Z) (id : Z) :
  In id (set_difference new old) <-> In id new /\ ~ In id old.
Proof.
  unfold set_difference. rewrite nodup_In, filter_In.
  split; intros [Hnew Hold]; (split; [exact Hnew | ]).
  - intros Hin. apply negb_true_iff in Hold.
    assert (Hex : existsb (Z.eqb id) old = true).
    { apply existsb_exists. exists id. split; [exact Hin | apply Z.eqb_refl]. }
    congruence.
  - apply negb_true_iff.
    destruct (existsb (Z.eqb id) old) eqn:Hex; [exfalso | reflexivity].
    apply existsb_exists in Hex. destruct Hex as [x [Hin Heq]].
    apply Z.eqb_eq in Heq. subst x. exact (Hold Hin).
Qed.

Lemma set_difference_NoDup (new old : list Z) : NoDup (set_difference new old).
Proof. apply NoDup_nodup. Qed.

Lemma hydrogen_loop (mol : pyobj) (ids : list Z) :
  all_runs
    (for_each ids
       (fun hydro_id =>
          a <- perform (ob_GetAtomById mol hydro_id) ;;
          perform (ob_DeleteAtom mol a)))
    (fun t o =>
       o = Ok tt ->
       collect looked_up t = ids /\
       collect deleted_atom t = collect found_atom t /\
       collect atom_ids_listed t = []).
Proof.
  induction ids as [ | id ids IH]; cbn [for_each].
  - intros _. repeat split.
  - apply all_runs_bind.
    apply all_runs_perform_bind; [intros a | intros e; discriminate].
    apply all_runs_perform. intros [[] | e]; [ | discriminate].
    apply (all_runs_mono _ _ _) with (2 := IH).
    intros t o H Ho. destruct (H Ho) as [H1 [H2 H3]].
    cbn [app collect looked_up deleted_atom found_atom atom_ids_listed call_of].
    rewrite H1, H2, H3. repeat split.
Qed.

Ltac hydrogen_step :=
  lazymatch goal with
  | |- all_runs (bind (for_each _ (fun id => bind (perform (ob_GetAtomById _ _)) _)) _) _ =>
      apply all_runs_bind;
      eapply all_runs_mono; [ | apply hydrogen_loop ];
      cbv beta;
      let tH := fresh "tH" in
      let HH := fresh "HH" in
      intros tH [[] | ?] HH;
      [ destruct (HH eq_refl) as [? [? ?]]; clear HH | ]
  end.

Lemma minimize_ob_try_hydrogens
  (sele : string) (natoms : Z) (state : Z) (ff : string) (nsteps : Z) (conv : R)
  (cutoff : Z) (cut_vdw cut_elec : R) (name : string) (quiet : Z) :
  all_runs
    (minimize_ob_try sele natoms state ff nsteps conv cutoff cut_vdw cut_elec
       name quiet)
    (fun t o => o = Ok tt -> removes_added_hydrogens t).
Proof.
  unfold minimize_ob_try, randomize_coords_if_collapsed, get_fixed_indices.
  repeat first [ exec_step | hydrogen_step | class_step no_atom_bookkeeping ].
  all: cbv beta; try discriminate.
  all: intros _; unfold removes_added_hydrogens.
  all: repeat first
         [ progress cbn [app collect looked_up deleted_atom found_atom
                         atom_ids_listed call_of]
         | rewrite collect_app ].
  all: collect_silent.
  all: repeat match goal with
              | H : collect _ ?t = _ |- context [collect _ ?t] => rewrite H
              end.
  all: cbn [app]; rewrite ?app_nil_r.
  all: eexists; eexists; split; [reflexivity | ].
  all: split; [intros id; apply set_difference_spec | ].
  all: split; [apply set_difference_NoDup | reflexivity].
Qed.

(** X3: in every run of [minimize_ob] that returns, the molecule's atoms
    were listed twice (before and after [AddHydrogens]), and the atoms
    removed after the minimisation are exactly the hydrogens openbabel
    added: an identifier is looked up if and only if it is in the second
    listing and not in the first, none twice, and each atom found is the
    atom deleted. *)
Theorem minimize_ob_removes_added_hydrogens
  (E : Env) (w : world E) (selection : string) (state : Z) (ff : string)
  (nsteps : Z) (conv : R) (cutoff : Z) (cut_vdw cut_elec : R)
  (name : string) (quiet : Z) :
  let r := run E (minimize_ob selection state ff nsteps conv cutoff cut_vdw
                    cut_elec name quiet) w in
  result_of r = Ok tt ->
  removes_added_hydrogens (trace_of r).
Proof.
  intros r Hr.
  pose proof (all_runs_run _ _
                (minimize_ob_returned selection state ff nsteps conv cutoff
                   cut_vdw cut_elec name quiet
                   (fun _ t => removes_added_hydrogens t)
                   (fun sele natoms =>
                      minimize_ob_try_hydrogens sele natoms state ff nsteps conv
                        cutoff cut_vdw cut_elec name quiet))
                E w Hr) as H.
  destruct H as [imports [body [sele [n [Ht [Himp [orig_ids [all_ids H]]]]]]]].
  fold r in Ht. rewrite Ht.
  exists orig_ids, all_ids.
  rewrite !(collect_adapter_run _ imports body sele selection n) by
    first [ exact Himp
          | intros c0 r0 Hc; destruct c0; first [discriminate Hc | reflexivity]
          | reflexivity ].
  exact H.
Qed.

Lemma minimize_ob_removes_added_hydrogens_witness :
  removes_added_hydrogens
    (trace_of (run scripted (minimize_ob "polymer" (-1) "UFF" 500 (1 / 10000) 0 6 8 "" 1)
                 session)).
Proof.
  apply (minimize_ob_removes_added_hydrogens scripted session
           "polymer" (-1) "UFF" 500 (1 / 10000) 0 6 8 "" 1).
  run_in_session.
Defined.

(** ** The cut-off of [minimize_ob] *)

Definition is_cutoff (c : call) : bool :=
  match c with
  | ob_EnableCutOff _ _ | ob_SetVDWCutOff _ _ | ob_SetElectrostaticCutOff _ _ => true
  | _ => false
  end.

Definition no_cutoff (c : call) : bool := negb (is_cutoff c).

(** The cut-off and minimisation calls of a run, in order. *)
Definition field_step (ev : event) : option call :=
  if is_cutoff (call_of ev) || is_minimization (call_of ev)
  then Some (call_of ev) else None.

Definition no_field_step (c : call) : bool :=
  negb (is_cutoff c || is_minimization c).

(** With a non-zero [cutoff] the cut-off is switched on and both distances
    are set, on the force field that is then minimised and before its
    first minimisation call; with [cutoff = 0] the two minimisation calls
    are all there is. *)
Definition cutoff_protocol
  (nsteps : Z) (conv : R) (cutoff : Z) (cut_vdw cut_elec : R) (t : list event) : Prop :=
  exists field : pyobj,
    collect field_step t
    = ((if truthy cutoff
        then [ob_EnableCutOff field true;
              ob_SetVDWCutOff field cut_vdw;
              ob_SetElectrostaticCutOff field cut_elec]
        else [])
       ++ [ob_SteepestDescent field (nsteps / 2) conv;
           ob_ConjugateGradients field (nsteps / 2) conv])%list.

Lemma minimize_ob_try_cutoff
  (sele : string) (natoms : Z) (state : Z) (ff : string) (nsteps : Z) (conv : R)
  (cutoff : Z) (cut_vdw cut_elec : R) (name : string) (quiet : Z) :
  all_runs
    (minimize_ob_try sele natoms state ff nsteps conv cutoff cut_vdw cut_elec
       name quiet)
    (fun t o => o = Ok tt -> cutoff_protocol nsteps conv cutoff cut_vdw cut_elec t).
Proof.
  unfold minimize_ob_try, randomize_coords_if_collapsed, get_fixed_indices.
  destruct (truthy cutoff) eqn:Hcut; unfold cutoff_protocol; rewrite ?Hcut.
  all: repeat first [ exec_step | class_step no_field_step ].
  all: cbv beta; try discriminate.
  all: intros _.
  all: repeat first
         [ progress cbn [app collect field_step is_cutoff is_minimization orb call_of]
         | rewrite collect_app ].
  all: collect_silent.
  all: cbn [app]; eexists; reflexivity.
Qed.

Lemma minimize_ob_all_calls_no_cutoff
  (selection : string) (state : Z) (ff : string) (nsteps : Z) (conv : R)
  (cutoff : Z) (cut_vdw cut_elec : R) (name : string) (quiet : Z) :
  truthy cutoff = false ->
  all_calls no_cutoff
    (minimize_ob selection state ff nsteps conv cutoff cut_vdw cut_elec name quiet).
Proof.
  intros Hcut.
  unfold minimize_ob, minimize_ob_try, randomize_coords_if_collapsed,
    get_fixed_indices, load_or_update, with_lockcm, _load_or_update,
    _load_or_update_fit.
  rewrite Hcut.
  walk_calls.
Qed.

(** X4: [minimize_ob] makes the three cut-off calls exactly when [cutoff]
    is non-zero.  With [cutoff = 0] no run makes any of them.  In every run
    that returns, the cut-off and minimisation calls are, in this order:
    (when [cutoff] is non-zero) [EnableCutOff(True)], [SetVDWCutOff(cut_vdw)]
    and [SetElectrostaticCutOff(cut_elec)], then the steepest-descent and
    the conjugate-gradient call, all on the same force field. *)
Theorem minimize_ob_cutoff
  (E : Env) (w : world E) (selection : string) (state : Z) (ff : string)
  (nsteps : Z) (conv : R) (cutoff : Z) (cut_vdw cut_elec : R)
  (name : string) (quiet : Z) :
  let r := run E (minimize_ob selection state ff nsteps conv cutoff cut_vdw
                    cut_elec name quiet) w in
  (cutoff = 0 -> existsb is_cutoff (calls (trace_of r)) = false) /\
  (result_of r = Ok tt ->
   cutoff_protocol nsteps conv cutoff cut_vdw cut_elec (trace_of r)).
Proof.
  intros r. split.
  - intros ->.
    pose proof (all_runs_run _ _
                  (minimize_ob_all_calls_no_cutoff selection state ff nsteps conv 0
                     cut_vdw cut_elec name quiet eq_refl) E w) as H.
    apply (none_of_class is_cutoff). exact H.
  - intros Hr.
    pose proof (all_runs_run _ _
                  (minimize_ob_returned selection state ff nsteps conv cutoff
                     cut_vdw cut_elec name quiet
                     (fun _ t => cutoff_protocol nsteps conv cutoff cut_vdw cut_elec t)
                     (fun sele natoms =>
                        minimize_ob_try_cutoff sele natoms state ff nsteps conv
                          cutoff cut_vdw cut_elec name quiet))
                  E w Hr) as H.
    destruct H as [imports [body [sele [n [Ht [Himp [field H]]]]]]].
    fold r in Ht. rewrite Ht.
    exists field.
    rewrite (collect_adapter_run _ imports body sele selection n) by
      first [ exact Himp
            | intros c0 r0 Hc; destruct c0; first [discriminate Hc | reflexivity]
            | reflexivity ].
    exact H.
Qed.

Lemma minimize_ob_cutoff_witness :
  existsb is_cutoff
    (calls (trace_of (run scripted
                        (minimize_ob "polymer" (-1) "UFF" 500 (1 / 10000) 0 6 8 "" 1)
                        session))) = false /\
  cutoff_protocol 500 (1 / 10000) 1 6 8
    (trace_of (run scripted (minimize_ob "polymer" (-1) "UFF" 500 (1 / 10000) 1 6 8 "" 1)
                 session)).
Proof.
  split.
  - apply (minimize_ob_cutoff scripted session
             "polymer" (-1) "UFF" 500 (1 / 10000) 0 6 8 "" 1).
    reflexivity.
  - apply (minimize_ob_cutoff scripted session
             "polymer" (-1) "UFF" 500 (1 / 10000) 1 6 8 "" 1).
    run_in_session.
Defined.

(** ** The energy report *)

Definition is_energy_call (c : call) : bool :=
  match c with
  | ob_Energy _ | ob_GetUnit _ | rd_CalcEnergy _ | py_print_energy _ _ => true
  | _ => false
  end.

Definition no_energy_call (c : call) : bool := negb (is_energy_call c).

Definition energy_report (ev : event) : option event :=
  if is_energy_call (call_of ev) then Some ev else None.

Definition minimised (ev : event) : option call :=
  if is_minimization (call_of ev) then Some (call_of ev) else None.

Definition no_report_no_step (c : call) : bool :=
  negb (is_energy_call c) && negb (is_minimization c).

(** A run of [minimize_ob] that reports: the energy and its unit are asked
    of the force field that was minimised, and what they answered is what
    is printed. *)
Definition ob_reports (nsteps : Z) (conv : R) (quiet : Z) (t : list event) : Prop :=
  if truthy quiet then collect energy_report t = []
  else
    exists (field : pyobj) (e : R) (u : string),
      collect minimised t
      = [ob_SteepestDescent field (nsteps / 2) conv;
         ob_ConjugateGradients field (nsteps / 2) conv] /\
      collect energy_report t
      = [Ev (ob_Energy field) (Ok e); Ev (ob_GetUnit field) (Ok u);
         Ev (py_print_energy e u) (Ok tt)].

(** The same for [minimize_rdkit], whose unit is fixed. *)
Definition rdkit_reports (nsteps : Z) (quiet : Z) (t : list event) : Prop :=
  if truthy quiet then collect energy_report t = []
  else
    exists (field : pyobj) (e : R),
      collect minimised t = [rd_Minimize field nsteps] /\
      collect energy_report t
      = [Ev (rd_CalcEnergy field) (Ok e); Ev (py_print_energy e "kcal/mol") (Ok tt)].

Ltac show_reports :=
  repeat first
    [ progress cbn [app collect energy_report minimised is_energy_call
                    is_minimization call_of]
    | rewrite collect_app ];
  collect_silent;
  cbn [app].

Lemma minimize_ob_try_reports
  (sele : string) (natoms : Z) (state : Z) (ff : string) (nsteps : Z) (conv : R)
  (cutoff : Z) (cut_vdw cut_elec : R) (name : string) (quiet : Z) :
  all_runs
    (minimize_ob_try sele natoms state ff nsteps conv cutoff cut_vdw cut_elec
       name quiet)
    (fun t o => o = Ok tt -> ob_reports nsteps conv quiet t).
Proof.
  unfold minimize_ob_try, randomize_coords_if_collapsed, get_fixed_indices.
  destruct (truthy quiet) eqn:Hq; unfold ob_reports; rewrite ?Hq; cbn [negb].
  all: repeat first [ exec_step | class_step no_report_no_step ].
  all: cbv beta; try discriminate.
  all: intros _; show_reports.
  all: first [ reflexivity
             | match goal with |- context [Ev (py_print_energy _ _) (Ok ?a)] => destruct a end;
               eexists; eexists; eexists; split; reflexivity ].
Qed.

Lemma minimize_rdkit_try_reports
  (sele : string) (natoms : Z) (state : Z) (ff : string) (nsteps : Z)
  (name : string) (quiet : Z) :
  all_runs
    (minimize_rdkit_try sele natoms state ff nsteps name quiet)
    (fun t o => o = Ok tt -> rdkit_reports nsteps quiet t).
Proof.
  unfold minimize_rdkit_try, randomize_coords_if_collapsed, get_fixed_indices.
  destruct (truthy quiet) eqn:Hq; unfold rdkit_reports; rewrite ?Hq; cbn [negb].
  all: repeat first [ exec_step | class_step no_report_no_step ].
  all: cbv beta; try discriminate.
  all: intros _; show_reports.
  all: first [ reflexivity
             | match goal with |- context [Ev (py_print_energy _ _) (Ok ?a)] => destruct a end;
               eexists; eexists; split; reflexivity ].
Qed.

Lemma adapters_all_calls_quiet
  (selection : string) (state : Z) (ff : string) (nsteps : Z) (conv : R)
  (cutoff : Z) (cut_vdw cut_elec : R) (name : string) (quiet : Z) :
  truthy quiet = true ->
  all_calls no_energy_call
    (minimize_ob selection state ff nsteps conv cutoff cut_vdw cut_elec name quiet) /\
  all_calls no_energy_call
    (minimize_rdkit selection state ff nsteps name quiet).
Proof.
  intros Hq.
  unfold minimize_ob, minimize_ob_try, minimize_rdkit, minimize_rdkit_try,
    randomize_coords_if_collapsed,
    get_fixed_indices, load_or_update, with_lockcm, _load_or_update,
    _load_or_update_fit.
  rewrite Hq. cbn [negb].
  split; walk_calls.
Qed.

(** X5: the energy report follows [quiet].  With a non-zero [quiet]
    neither adapter asks the engine for the energy or prints it, in any
    run.  With [quiet = 0], in every run that returns, [minimize_ob] asks
    the force field it minimised for the energy and for its unit and
    prints what it was answered, and [minimize_rdkit] asks the force field
    it minimised for the energy and prints it in kcal/mol; no other energy
    call is made. *)
Theorem energy_report_follows_quiet
  (E : Env) (w : world E) (selection : string) (state : Z) (ff : string)
  (nsteps : Z) (conv : R) (cutoff : Z) (cut_vdw cut_elec : R)
  (name : string) (quiet : Z) :
  let ob := run E (minimize_ob selection state ff nsteps conv cutoff cut_vdw
                     cut_elec name quiet) w in
  let rd := run E (minimize_rdkit selection state ff nsteps name quiet) w in
  (quiet <> 0 ->
   existsb is_energy_call (calls (trace_of ob)) = false /\
   existsb is_energy_call (calls (trace_of rd)) = false) /\
  (result_of ob = Ok tt -> ob_reports nsteps conv quiet (trace_of ob)) /\
  (result_of rd = Ok tt -> rdkit_reports nsteps quiet (trace_of rd)).
Proof.
  intros ob rd. split; [ | split].
  - intros Hq.
    assert (Ht : truthy quiet = true).
    { unfold truthy. apply negb_true_iff, Z.eqb_neq, Hq. }
    destruct (adapters_all_calls_quiet selection state ff nsteps conv cutoff
                cut_vdw cut_elec name quiet Ht) as [Hob Hrd].
    split; apply (none_of_class is_energy_call).
    + exact (all_runs_run _ _ Hob E w).
    + exact (all_runs_run _ _ Hrd E w).
  - intros Hr.
    pose proof (all_runs_run _ _
                  (minimize_ob_returned selection state ff nsteps conv cutoff
                     cut_vdw cut_elec name quiet
                     (fun _ t => ob_reports nsteps conv quiet t)
                     (fun sele natoms =>
                        minimize_ob_try_reports sele natoms state ff nsteps conv
                          cutoff cut_vdw cut_elec name quiet))
                  E w Hr) as H.
    destruct H as [imports [body [sele [n [Ht [Himp H]]]]]].
    fold ob in Ht. rewrite Ht.
    unfold ob_reports in *.
    rewrite !(collect_adapter_run _ imports body sele selection n) by
      first [ exact Himp
            | intros c0 r0 Hc; destruct c0; first [discriminate Hc | reflexivity]
            | reflexivity ].
    exact H.
  - intros Hr.
    pose proof (all_runs_run _ _
                  (minimize_rdkit_returned selection state ff nsteps name quiet
                     (fun _ t => rdkit_reports nsteps quiet t)
                     (fun sele natoms =>
                        minimize_rdkit_try_reports sele natoms state ff nsteps
                          name quiet))
                  E w Hr) as H.
    destruct H as [imports [body [sele [n [Ht [Himp H]]]]]].
    fold rd in Ht. rewrite Ht.
    unfold rdkit_reports in *.
    rewrite !(collect_adapter_run _ imports body sele selection n) by
      first [ exact Himp
            | intros c0 r0 Hc; destruct c0; first [discriminate Hc | reflexivity]
            | reflexivity ].
    exact H.
Qed.

Lemma energy_report_follows_quiet_witness :
  (existsb is_energy_call
     (calls (trace_of (run scripted
                         (minimize_ob "polymer" (-1) "UFF" 500 (1 / 10000) 0 6 8 "" 1)
                         session))) = false /\
   existsb is_energy_call
     (calls (trace_of (run scripted (minimize_rdkit "polymer" (-1) "UFF" 500 "" 1)
                         session))) = false) /\
  ob_reports 500 (1 / 10000) 0
    (trace_of (run scripted (minimize_ob "polymer" (-1) "UFF" 500 (1 / 10000) 0 6 8 "" 0)
                 session)) /\
  rdkit_reports 500 0
    (trace_of (run scripted (minimize_rdkit "polymer" (-1) "UFF" 500 "" 0) session)).
Proof.
  destruct (energy_report_follows_quiet scripted session
              "polymer" (-1) "UFF" 500 (1 / 10000) 0 6 8 "" 1) as [Hquiet _].
  destruct (energy_report_follows_quiet scripted session
              "polymer" (-1) "UFF" 500 (1 / 10000) 0 6 8 "" 0) as [_ [Hob Hrd]].
  split; [apply Hquiet; discriminate | ].
  split; [apply Hob | apply Hrd]; run_in_session.
Defined.

(** ** The force field of [minimize_rdkit] *)

Definition is_field_built (c : call) : bool :=
  match c with
  | rd_MMFFGetMoleculeProperties _ _ _ | rd_MMFFGetMoleculeForceField _ _
  | rd_UFFGetMoleculeForceField _ => true
  | _ => false
  end.

Definition is_warning (c : call) : bool :=
  match c with
  | py_print line => (line =? " Warning: minimization did not converge")%string
  | _ => false
  end.

(** The calls that build the force field, the minimisation and the
    warning, with their outcomes, in order. *)
Definition rdkit_step (ev : event) : option event :=
  if is_field_built (call_of ev) || is_minimization (call_of ev)
     || is_warning (call_of ev)
  then Some ev else None.

Definition no_rdkit_step (c : call) : bool :=
  negb (is_field_built c || is_minimization c || is_warning c).

(** A name that starts with [MMFF] gets the MMFF force field of that
    variant (verbose unless [quiet]); [UFF] gets the UFF force field; the
    force field built is minimised once, with the whole step budget; a
    non-zero return of [Minimize] is followed by the warning. *)
Definition rdkit_protocol (ff : string) (nsteps quiet : Z) (t : list event) : Prop :=
  exists (mol : pyobj) (props : option pyobj) (field : pyobj) (rc : Z),
    collect rdkit_step t
    = ((if prefix "MMFF" ff
        then [Ev (rd_MMFFGetMoleculeProperties mol ff (if truthy quiet then 0 else 1))
                (Ok props);
              Ev (rd_MMFFGetMoleculeForceField mol props) (Ok (Some field))]
        else [Ev (rd_UFFGetMoleculeForceField mol) (Ok (Some field))])
       ++ Ev (rd_Minimize field nsteps) (Ok rc)
       :: (if truthy rc
           then [Ev (py_print " Warning: minimization did not converge") (Ok tt)]
           else []))%list /\
    (prefix "MMFF" ff = false -> ff = "UFF").

Lemma load_or_update_no_rdkit_step (molstr name sele : string) (state : Z) :
  all_calls no_rdkit_step (load_or_update molstr name sele state).
Proof.
  unfold load_or_update, with_lockcm, _load_or_update, _load_or_update_fit.
  walk_calls.
Qed.

Ltac reconcile_step lemma :=
  lazymatch goal with
  | |- all_runs (bind (load_or_update _ _ _ _) _) _ =>
      apply (all_runs_class_bind _ _ _ _ (lemma _ _ _ _));
      [ intros ? [] ? | intros ? ? ? ]
  end.

Lemma rdkit_step_silent (c : call) (r : outcome (answer c)) :
  no_rdkit_step c = true -> rdkit_step (Ev c r) = None.
Proof.
  unfold no_rdkit_step, rdkit_step. cbn [call_of].
  intros H. apply negb_true_iff in H. rewrite H. reflexivity.
Qed.

Lemma minimize_rdkit_try_protocol
  (sele : string) (natoms : Z) (state : Z) (ff : string) (nsteps : Z)
  (name : string) (quiet : Z) :
  all_runs
    (minimize_rdkit_try sele natoms state ff nsteps name quiet)
    (fun t o => o = Ok tt -> rdkit_protocol ff nsteps quiet t).
Proof.
  unfold minimize_rdkit_try, randomize_coords_if_collapsed, get_fixed_indices,
    rdkit_protocol.
  repeat first [ exec_step
               | reconcile_step load_or_update_no_rdkit_step
               | class_step no_rdkit_step ].
  all: cbv beta; try discriminate.
  all: intros _.
  all: repeat first
         [ progress cbn [app collect rdkit_step is_field_built is_minimization
                         is_warning orb call_of String.eqb Ascii.eqb Bool.eqb]
         | rewrite collect_app ].
  all: repeat match goal with
              | H : forallb no_rdkit_step (calls ?t) = true |- _ =>
                  rewrite (collect_class rdkit_step no_rdkit_step t rdkit_step_silent H)
              end.
  all: cbn [app].
  all: first
         [ match goal with
           | |- context [Ev (rd_MMFFGetMoleculeForceField ?m ?pr) _] => exists m, pr
           end
         | match goal with
           | |- context [Ev (rd_UFFGetMoleculeForceField ?m) _] => exists m, None
           end ].
  all: match goal with
       | |- context [Ev (rd_Minimize ?f _) (Ok ?rc)] => exists f, rc
       end.
  all: repeat match goal with
              | H : truthy ?rc = _ |- context [truthy ?rc] => rewrite H
              end.
  all: try match goal with
           | |- context [Ev (py_print _) (Ok ?a)] => destruct a
           end.
  all: split; [reflexivity | ].
  all: intros Hp; first [discriminate Hp | apply String.eqb_eq; assumption].
Qed.

(** X6: a run of [minimize_rdkit] that returns built its force field by
    the name given: a name that starts with [MMFF] by
    [MMFFGetMoleculeProperties] (verbosity 0 when [quiet] is non-zero, 1
    otherwise) and [MMFFGetMoleculeForceField] on those properties, the name
    [UFF] by [UFFGetMoleculeForceField], and no other name returns; the
    force field built was minimised by one [Minimize] call with the whole
    budget [nsteps]; and a non-zero return of [Minimize] (no convergence)
    is followed by the warning line and does not stop the run. *)
Theorem minimize_rdkit_protocol
  (E : Env) (w : world E) (selection : string) (state : Z) (ff : string)
  (nsteps : Z) (name : string) (quiet : Z) :
  let r := run E (minimize_rdkit selection state ff nsteps name quiet) w in
  result_of r = Ok tt ->
  rdkit_protocol ff nsteps quiet (trace_of r).
Proof.
  intros r Hr.
  pose proof (all_runs_run _ _
                (minimize_rdkit_returned selection state ff nsteps name quiet
                   (fun _ t => rdkit_protocol ff nsteps quiet t)
                   (fun sele natoms =>
                      minimize_rdkit_try_protocol sele natoms state ff nsteps
                        name quiet))
                E w Hr) as H.
  destruct H as [imports [body [sele [n [Ht [Himp H]]]]]].
  fold r in Ht. rewrite Ht.
  unfold rdkit_protocol in *.
  rewrite (collect_adapter_run _ imports body sele selection n) by
    first [ exact Himp
          | intros c0 r0 Hc; destruct c0; first [discriminate Hc | reflexivity]
          | reflexivity ].
  exact H.
Qed.

(** A session in which RDKit's minimisation does not converge. *)
Definition session_not_converged : script :=
  {| env_flags := env_flags session; env_coords := env_coords session;
     env_sample := []; env_missing := [];
     env_xfit := Ok 0%R; env_fit := Ok 0%R;
     env_forcefields := env_forcefields session; env_heavy := env_heavy session;
     env_hydrogens := env_hydrogens session; env_protonated := false;
     env_rdkit_reads := true; env_rc := 1 |}.

Lemma minimize_rdkit_protocol_witness :
  rdkit_protocol "MMFF94s" 200 1
    (trace_of (run scripted (minimize_rdkit "polymer" (-1) "MMFF94s" 200 "" 1)
                 session_not_converged)).
Proof.
  apply (minimize_rdkit_protocol scripted session_not_converged
           "polymer" (-1) "MMFF94s" 200 "" 1).
  run_in_session.
Defined.

(** ** When the engine refuses *)

(** An adapter's run, whatever its outcome.  Once [select] has returned:
    the imports, the temporary selection, the calls [body] and the outcome
    [ob] of the try block, and the deletion of the selection, whose
    exception, if any, replaces [ob].  Otherwise the run made no call other
    than imports, the name generation and [select]. *)
Definition adapter_ran
  (selection : string) (try_block : string -> list event -> outcome unit -> Prop)
  (t : list event) (o : outcome unit) : Prop :=
  match select_outcome t with
  | Some (Ok n) =>
      exists (imports body : list event) (sele : string)
             (ob d : outcome unit),
        t = (imports ++ Ev (cmd_get_unused_name "_sele") (Ok sele)
                     :: Ev (cmd_select sele selection 0) (Ok n)
                     :: body ++ [Ev (cmd_delete sele) d])%list /\
        forallb is_import (calls imports) = true /\
        try_block sele body ob /\
        o = match d with Ok _ => ob | Raised e => Raised e end
  | _ => forallb is_opening (calls t) = true
  end.

Lemma imports_opening (pre t : list event) :
  forallb is_import (calls pre) = true ->
  forallb is_opening (calls (pre ++ t)) = forallb is_opening (calls t).
Proof.
  induction pre as [ | [c r] pre IH]; cbn [app calls map forallb call_of];
    intros H; [reflexivity | ].
  apply andb_prop in H. destruct H as [Hc Hpre].
  fold (calls (pre ++ t)). rewrite (IH Hpre).
  destruct c; try discriminate Hc. reflexivity.
Qed.

Lemma select_then_ran
  (selection : string) (body : string -> Z -> prog unit)
  (try_block : string -> list event -> outcome unit -> Prop) (pre : list event) :
  forallb is_import (calls pre) = true ->
  (forall sele n, all_runs (body sele n) (try_block sele)) ->
  all_runs (select_then selection body)
    (fun t o => adapter_ran selection try_block (pre ++ t)%list o).
Proof.
  intros Hpre Hbody. unfold select_then. simpl.
  intros [sele | e]; simpl.
  - intros [n | e]; simpl.
    + apply all_runs_try_finally.
      apply (all_runs_mono (body sele n) _ _) with (2 := Hbody sele n).
      intros tb ob Hb.
      apply all_runs_perform. intros d.
      unfold adapter_ran.
      rewrite (proj1 (imports_transparent pre _ Hpre)).
      cbn [select_outcome selected].
      exists pre, tb, sele, ob, d.
      split; [reflexivity | ].
      split; [exact Hpre | ].
      split; [exact Hb | reflexivity].
    + unfold adapter_ran.
      rewrite (proj1 (imports_transparent pre _ Hpre)).
      cbn [select_outcome selected].
      rewrite (imports_opening pre _ Hpre). reflexivity.
  - unfold adapter_ran.
    rewrite (proj1 (imports_transparent pre _ Hpre)).
    cbn [select_outcome selected].
    rewrite (imports_opening pre _ Hpre). reflexivity.
Qed.

Lemma minimize_ob_ran
  (selection : string) (state : Z) (ff : string) (nsteps : Z) (conv : R)
  (cutoff : Z) (cut_vdw cut_elec : R) (name : string) (quiet : Z)
  (try_block : string -> list event -> outcome unit -> Prop) :
  (forall sele natoms,
     all_runs
       (minimize_ob_try sele natoms state ff nsteps conv cutoff cut_vdw cut_elec
          name quiet)
       (try_block sele)) ->
  all_runs
    (minimize_ob selection state ff nsteps conv cutoff cut_vdw cut_elec name quiet)
    (adapter_ran selection try_block).
Proof.
  intros Hbody. unfold minimize_ob. simpl.
  intros [[] | e1]; simpl; [ | reflexivity].
  intros r2.
  assert (Htail :
    all_runs
      (select_then selection (fun sele natoms =>
         minimize_ob_try sele natoms state ff nsteps conv cutoff cut_vdw cut_elec
           name quiet))
      (fun t o =>
         adapter_ran selection try_block
           ([Ev (py_import "openbabel") (Ok tt);
             Ev (py_import "openbabel.openbabel") r2] ++ t)%list o)).
  { apply select_then_ran; [reflexivity | exact Hbody]. }
  destruct r2 as [[] | e2]; simpl.
  - exact Htail.
  - destruct e2; simpl; first [exact Htail | reflexivity].
Qed.

Lemma minimize_rdkit_ran
  (selection : string) (state : Z) (ff : string) (nsteps : Z)
  (name : string) (quiet : Z)
  (try_block : string -> list event -> outcome unit -> Prop) :
  (forall sele natoms,
     all_runs
       (minimize_rdkit_try sele natoms state ff nsteps name quiet)
       (try_block sele)) ->
  all_runs
    (minimize_rdkit selection state ff nsteps name quiet)
    (adapter_ran selection try_block).
Proof.
  intros Hbody. unfold minimize_rdkit. simpl.
  intros [[] | e1]; simpl; [ | reflexivity].
  intros [[] | e2]; simpl; [ | reflexivity].
  apply (select_then_ran selection
           (fun sele natoms => minimize_rdkit_try sele natoms state ff nsteps name quiet)
           try_block
           [Ev (py_import "rdkit") (Ok tt); Ev (py_import "rdkit.Chem") (Ok tt)]).
  - reflexivity.
  - exact Hbody.
Qed.

(** The calls that produce or merge a result: the minimisation, the lock
    of the reconciler, the load and the update. *)
Definition is_result_step (c : call) : bool :=
  match c with
  | ob_SteepestDescent _ _ _ | ob_ConjugateGradients _ _ _ | rd_Minimize _ _
  | cmd_lockcm_enter | cmd_load_raw _ _ _ _ _ | cmd_update _ _ _ _ _ => true
  | _ => false
  end.

Definition result_step (ev : event) : option call :=
  if is_result_step (call_of ev) then Some (call_of ev) else None.

Definition no_result_step (c : call) : bool := negb (is_result_step c).

(** A refused run: nothing was minimised, loaded or updated; the last call
    deleted the temporary selection; the caller gets the [CmdException]
    with [msg] (or the exception of that deletion). *)
Definition refused (msg : string) (t : list event) (o : outcome unit) : Prop :=
  collect result_step t = [] /\
  exists (before : list event) (sele : string) (d : outcome unit),
    t = (before ++ [Ev (cmd_delete sele) d])%list /\
    o = match d with
        | Ok _ => Raised (CmdException msg)
        | Raised e => Raised e
        end.

(** From the try block to the adapter. *)
Lemma refused_adapter {A : Type} (f : event -> option A) (trigger : list A)
  (msg : string) (selection : string) (t : list event) (o : outcome unit) :
  trigger <> [] ->
  (forall c r, is_opening c = true -> f (Ev c r) = None) ->
  (forall name r, f (Ev (cmd_delete name) r) = None) ->
  adapter_ran selection
    (fun _ tb ob =>
       collect f tb = trigger ->
       ob = Raised (CmdException msg) /\ collect result_step tb = [])
    t o ->
  collect f t = trigger ->
  refused msg t o.
Proof.
  intros Hne Hopen Hdel Hran Htrig.
  unfold adapter_ran in Hran.
  assert (Hquiet : forallb is_opening (calls t) = true -> False).
  { intros Hall. apply Hne. rewrite <- Htrig.
    apply (collect_class f is_opening t Hopen Hall). }
  destruct (select_outcome t) as [[n | e] | ]; try (exfalso; exact (Hquiet Hran)).
  destruct Hran as [imports [body [sele [ob [d [Ht [Himp [Hb Ho]]]]]]]].
  clear Hquiet. rewrite Ht in Htrig. rewrite Ht. clear Ht.
  rewrite (collect_adapter_run f imports body sele selection n d Hopen Hdel Himp)
    in Htrig.
  destruct (Hb Htrig) as [Hob Hnone].
  split.
  - rewrite (collect_adapter_run result_step imports body sele selection n d);
      [exact Hnone | | | exact Himp].
    + intros c r Hc. destruct c; first [discriminate Hc | reflexivity].
    + reflexivity.
  - exists (imports ++ Ev (cmd_get_unused_name "_sele") (Ok sele)
                    :: Ev (cmd_select sele selection 0) (Ok n) :: body)%list,
           sele, d.
    split.
    + rewrite <- app_assoc. reflexivity.
    + rewrite Ho, Hob. reflexivity.
Qed.

(** What [FindForceField] answered. *)
Definition forcefield_found (ev : event) : option (option pyobj) :=
  match ev with
  | Ev c r =>
      match c return outcome (answer c) -> option (option pyobj) with
      | ob_FindForceField _ =>
          fun r => match r with Ok x => Some x | Raised _ => None end
      | _ => fun _ => None
      end r
  end.

Definition not_forcefield_lookup (c : call) : bool :=
  match c with ob_FindForceField _ => false | _ => negb (is_result_step c) end.

Lemma minimize_ob_try_refused
  (sele : string) (natoms : Z) (state : Z) (ff : string) (nsteps : Z) (conv : R)
  (cutoff : Z) (cut_vdw cut_elec : R) (name : string) (quiet : Z) :
  all_runs
    (minimize_ob_try sele natoms state ff nsteps conv cutoff cut_vdw cut_elec
       name quiet)
    (fun t o =>
       collect forcefield_found t = [None] ->
       o = Raised (CmdException
             "FindForceField returned None, please check BABEL_LIBDIR and BABEL_DATADIR")
       /\ collect result_step t = []).
Proof.
  unfold minimize_ob_try, randomize_coords_if_collapsed, get_fixed_indices.
  repeat first [ exec_step
               | reconcile_step load_or_update_calls
               | class_step not_forcefield_lookup ].
  all: cbv beta.
  all: repeat first
         [ progress cbn [app collect forcefield_found result_step is_result_step
                         call_of]
         | rewrite collect_app ].
  all: collect_silent.
  all: cbn [app]; try discriminate.
  all: intros _; split; reflexivity.
Qed.

(** X7: when openbabel does not know the force field ([FindForceField]
    answers [None]), [minimize_ob] raises the [CmdException] that names
    [BABEL_LIBDIR] and [BABEL_DATADIR]: nothing is minimised, loaded or
    updated, and the temporary selection is deleted before the exception
    reaches the caller. *)
Theorem minimize_ob_unknown_force_field
  (E : Env) (w : world E) (selection : string) (state : Z) (ff : string)
  (nsteps : Z) (conv : R) (cutoff : Z) (cut_vdw cut_elec : R)
  (name : string) (quiet : Z) :
  let r := run E (minimize_ob selection state ff nsteps conv cutoff cut_vdw
                    cut_elec name quiet) w in
  collect forcefield_found (trace_of r) = [None] ->
  refused "FindForceField returned None, please check BABEL_LIBDIR and BABEL_DATADIR"
    (trace_of r) (result_of r).
Proof.
  intros r.
  apply (refused_adapter forcefield_found [None] _ selection).
  - discriminate.
  - intros c0 r0 Hc. destruct c0; first [discriminate Hc | reflexivity].
  - reflexivity.
  - apply (all_runs_run _ _
             (minimize_ob_ran selection state ff nsteps conv cutoff cut_vdw
                cut_elec name quiet _
                (fun sele natoms =>
                   minimize_ob_try_refused sele natoms state ff nsteps conv
                     cutoff cut_vdw cut_elec name quiet))).
Qed.

Lemma minimize_ob_unknown_force_field_witness :
  refused "FindForceField returned None, please check BABEL_LIBDIR and BABEL_DATADIR"
    (trace_of (run scripted
                 (minimize_ob "polymer" (-1) "nosuchff" 500 (1 / 10000) 0 6 8 "" 1)
                 session))
    (result_of (run scripted
                  (minimize_ob "polymer" (-1) "nosuchff" 500 (1 / 10000) 0 6 8 "" 1)
                  session)).
Proof.
  apply (minimize_ob_unknown_force_field scripted session
           "polymer" (-1) "nosuchff" 500 (1 / 10000) 0 6 8 "" 1).
  run_in_session.
Defined.

(** What [MolFromMolBlock] answered, and what the force-field constructors
    answered. *)
Definition molecule_read (ev : event) : option (option pyobj) :=
  match ev with
  | Ev c r =>
      match c return outcome (answer c) -> option (option pyobj) with
      | rd_MolFromMolBlock _ _ _ =>
          fun r => match r with Ok x => Some x | Raised _ => None end
      | _ => fun _ => None
      end r
  end.

Definition field_made (ev : event) : option (option pyobj) :=
  match ev with
  | Ev c r =>
      match c return outcome (answer c) -> option (option pyobj) with
      | rd_MMFFGetMoleculeForceField _ _ | rd_UFFGetMoleculeForceField _ =>
          fun r => match r with Ok x => Some x | Raised _ => None end
      | _ => fun _ => None
      end r
  end.

Definition rdkit_quiet (c : call) : bool :=
  match c with
  | rd_MolFromMolBlock _ _ _ | rd_MMFFGetMoleculeForceField _ _
  | rd_UFFGetMoleculeForceField _ => false
  | _ => negb (is_result_step c)
  end.

Ltac rdkit_refusal :=
  repeat first [ exec_step
               | reconcile_step load_or_update_calls
               | class_step rdkit_quiet ];
  cbv beta;
  repeat first
    [ progress cbn [app collect molecule_read field_made result_step
                    is_result_step call_of]
    | rewrite collect_app ];
  collect_silent;
  cbn [app]; try discriminate;
  intros _; split; reflexivity.

Lemma minimize_rdkit_try_unreadable
  (sele : string) (natoms : Z) (state : Z) (ff : string) (nsteps : Z)
  (name : string) (quiet : Z) :
  all_runs
    (minimize_rdkit_try sele natoms state ff nsteps name quiet)
    (fun t o =>
       collect molecule_read t = [None] ->
       o = Raised (CmdException
             "Failed to load molecule into RDKit. Please check bond orders and formal charges.")
       /\ collect result_step t = []).
Proof.
  unfold minimize_rdkit_try, randomize_coords_if_collapsed, get_fixed_indices.
  rdkit_refusal.
Qed.

Lemma minimize_rdkit_try_unknown
  (sele : string) (natoms : Z) (state : Z) (ff : string) (nsteps : Z)
  (name : string) (quiet : Z) (mol : pyobj) :
  prefix "MMFF" ff = false ->
  (ff =? "UFF")%string = false ->
  all_runs
    (minimize_rdkit_try sele natoms state ff nsteps name quiet)
    (fun t o =>
       collect molecule_read t = [Some mol] ->
       o = Raised (CmdException ("unknown forcefield: " ++ ff))
       /\ collect result_step t = []).
Proof.
  intros Hp Hu.
  unfold minimize_rdkit_try, randomize_coords_if_collapsed, get_fixed_indices.
  rewrite Hp, Hu.
  rdkit_refusal.
Qed.

Lemma minimize_rdkit_try_no_field
  (sele : string) (natoms : Z) (state : Z) (ff : string) (nsteps : Z)
  (name : string) (quiet : Z) :
  all_runs
    (minimize_rdkit_try sele natoms state ff nsteps name quiet)
    (fun t o =>
       collect field_made t = [None] ->
       o = Raised (CmdException "forcefield setup failed")
       /\ collect result_step t = []).
Proof.
  unfold minimize_rdkit_try, randomize_coords_if_collapsed, get_fixed_indices.
  rdkit_refusal.
Qed.

(** X8: the three refusals of [minimize_rdkit].  When RDKit cannot read
    the exported molecule ([MolFromMolBlock] answers [None]), when the
    force-field name neither starts with [MMFF] nor is [UFF] (and the
    molecule was read), and when the force-field constructor answers
    [None], the adapter raises a [CmdException] with the message of that
    case; in each case nothing is minimised, loaded or updated, and the
    temporary selection is deleted before the exception reaches the
    caller. *)
Theorem minimize_rdkit_refusals
  (E : Env) (w : world E) (selection : string) (state : Z) (ff : string)
  (nsteps : Z) (name : string) (quiet : Z) :
  let r := run E (minimize_rdkit selection state ff nsteps name quiet) w in
  (collect molecule_read (trace_of r) = [None] ->
   refused
     "Failed to load molecule into RDKit. Please check bond orders and formal charges."
     (trace_of r) (result_of r)) /\
  (prefix "MMFF" ff = false -> ff <> "UFF" ->
   forall mol : pyobj,
     collect molecule_read (trace_of r) = [Some mol] ->
     refused ("unknown forcefield: " ++ ff) (trace_of r) (result_of r)) /\
  (collect field_made (trace_of r) = [None] ->
   refused "forcefield setup failed" (trace_of r) (result_of r)).
Proof.
  intros r.
  assert (Hopen : forall f : event -> option (option pyobj),
             f = molecule_read \/ f = field_made ->
             (forall c0 r0, is_opening c0 = true -> f (Ev c0 r0) = None) /\
             (forall nm r0, f (Ev (cmd_delete nm) r0) = None)).
  { intros f [-> | ->]; (split; [ | reflexivity]);
      intros c0 r0 Hc; destruct c0; first [discriminate Hc | reflexivity]. }
  split; [ | split].
  - apply (refused_adapter molecule_read [None] _ selection);
      [discriminate | apply Hopen; left; reflexivity
       | apply Hopen; left; reflexivity | ].
    apply (all_runs_run _ _
             (minimize_rdkit_ran selection state ff nsteps name quiet _
                (fun sele natoms =>
                   minimize_rdkit_try_unreadable sele natoms state ff nsteps
                     name quiet))).
  - intros Hp Hu mol.
    apply String.eqb_neq in Hu.
    apply (refused_adapter molecule_read [Some mol] _ selection);
      [discriminate | apply Hopen; left; reflexivity
       | apply Hopen; left; reflexivity | ].
    apply (all_runs_run _ _
             (minimize_rdkit_ran selection state ff nsteps name quiet _
                (fun sele natoms =>
                   minimize_rdkit_try_unknown sele natoms state ff nsteps
                     name quiet mol Hp Hu))).
  - apply (refused_adapter field_made [None] _ selection);
      [discriminate | apply Hopen; right; reflexivity
       | apply Hopen; right; reflexivity | ].
    apply (all_runs_run _ _
             (minimize_rdkit_ran selection state ff nsteps name quiet _
                (fun sele natoms =>
                   minimize_rdkit_try_no_field sele natoms state ff nsteps
                     name quiet))).
Qed.

(** A session whose molecule RDKit cannot read, and an environment that
    answers like [scripted] except that RDKit builds no force field. *)
Definition session_unreadable : script :=
  {| env_flags := env_flags session; env_coords := env_coords session;
     env_sample := []; env_missing := [];
     env_xfit := Ok 0%R; env_fit := Ok 0%R;
     env_forcefields := env_forcefields session; env_heavy := env_heavy session;
     env_hydrogens := env_hydrogens session; env_protonated := false;
     env_rdkit_reads := false; env_rc := 0 |}.

Definition fieldless_handle (c : call) (s : script) : outcome (answer c) * script :=
  match c return outcome (answer c) * script with
  | rd_MMFFGetMoleculeForceField _ _ => (Ok None, s)
  | rd_UFFGetMoleculeForceField _ => (Ok None, s)
  | c' => scripted_handle c' s
  end.

Definition fieldless : Env := {| world := script; handle := fieldless_handle |}.

Lemma minimize_rdkit_refusals_witness :
  refused
    "Failed to load molecule into RDKit. Please check bond orders and formal charges."
    (trace_of (run scripted (minimize_rdkit "polymer" (-1) "MMFF94" 200 "" 1)
                 session_unreadable))
    (result_of (run scripted (minimize_rdkit "polymer" (-1) "MMFF94" 200 "" 1)
                  session_unreadable)) /\
  refused ("unknown forcefield: " ++ "GAFF")
    (trace_of (run scripted (minimize_rdkit "polymer" (-1) "GAFF" 200 "" 1) session))
    (result_of (run scripted (minimize_rdkit "polymer" (-1) "GAFF" 200 "" 1) session)) /\
  refused "forcefield setup failed"
    (trace_of (run fieldless (minimize_rdkit "polymer" (-1) "UFF" 200 "" 1) session))
    (result_of (run fieldless (minimize_rdkit "polymer" (-1) "UFF" 200 "" 1) session)).
Proof.
  destruct (minimize_rdkit_refusals scripted session_unreadable
              "polymer" (-1) "MMFF94" 200 "" 1) as [Hread _].
  destruct (minimize_rdkit_refusals scripted session
              "polymer" (-1) "GAFF" 200 "" 1) as [_ [Hname _]].
  destruct (minimize_rdkit_refusals fieldless session
              "polymer" (-1) "UFF" 200 "" 1) as [_ [_ Hfield]].
  split; [ | split].
  - apply Hread. run_in_session.
  - apply (Hname eq_refl ltac:(discriminate) (PyRef 1)). run_in_session.
  - apply Hfield. run_in_session.
Defined.

(** ** The scene after an update-mode run *)

(** The names the host generated during a run. *)
Definition generated (ev : event) : option string :=
  match ev with
  | Ev c r =>
      match c return outcome (answer c) -> option string with
      | cmd_get_unused_name _ =>
          fun r => match r with Ok nm => Some nm | Raised _ => None end
      | _ => fun _ => None
      end r
  end.

(** The calls that neither add nor remove a name, nor generate one. *)
Definition scene_quiet (c : call) : bool :=
  match c with
  | cmd_select _ _ _ | cmd_load_raw _ _ _ _ _ | cmd_delete _
  | cmd_get_unused_name _ => false
  | _ => true
  end.

(** A stretch of a run that leaves the scene's names as it found them,
    provided the names generated in it were unused and distinct. *)
Definition restoring (t : list event) : Prop :=
  forall names : list string,
    NoDup (collect generated t ++ names) ->
    scene_after names t = names.

Lemma NoDup_app_skip {A : Type} (a b c : list A) :
  NoDup (a ++ b ++ c) -> NoDup (a ++ c).
Proof.
  induction a as [ | x a IH]; cbn [app]; intros H.
  - exact (NoDup_app_remove_l _ _ H).
  - inversion H as [ | y l Hx Hl]; subst.
    constructor; [ | exact (IH Hl)].
    intros Hin. apply Hx.
    apply in_app_or in Hin. apply in_or_app.
    destruct Hin as [Hin | Hin]; [left; exact Hin | right].
    apply in_or_app. right; exact Hin.
Qed.

Lemma NoDup_app_disjoint {A : Type} (a b : list A) :
  NoDup (a ++ b) -> forall x, In x a -> ~ In x b.
Proof.
  induction a as [ | y a IH]; cbn [app]; intros H x Hx; [destruct Hx | ].
  inversion H as [ | z l Hy Hl]; subst.
  destruct Hx as [-> | Hx].
  - intros Hin. apply Hy. apply in_or_app. right; exact Hin.
  - exact (IH Hl x Hx).
Qed.

Lemma scene_after_app (names : list string) (a b : list event) :
  scene_after names (a ++ b) = scene_after (scene_after names a) b.
Proof. unfold scene_after. apply fold_left_app. Qed.

Lemma scene_quiet_after (t : list event) (names : list string) :
  forallb scene_quiet (calls t) = true -> scene_after names t = names.
Proof.
  induction t as [ | [c r] t IH]; cbn [calls map forallb call_of];
    intros H; [reflexivity | ].
  apply andb_prop in H. destruct H as [Hc Ht].
  unfold scene_after in *. cbn [fold_left].
  destruct c; first [discriminate Hc | exact (IH Ht)].
Qed.

Lemma restoring_quiet (t : list event) :
  forallb scene_quiet (calls t) = true -> restoring t.
Proof. intros H names _. apply scene_quiet_after, H. Qed.

Lemma restoring_app (a b : list event) :
  restoring a -> restoring b -> restoring (a ++ b).
Proof.
  intros Ha Hb names Hnd.
  rewrite collect_app, <- app_assoc in Hnd.
  rewrite scene_after_app.
  rewrite (Ha names (NoDup_app_skip _ _ _ Hnd)).
  apply Hb. exact (NoDup_app_remove_l _ _ Hnd).
Qed.

Lemma restoring_cons (ev : event) (t : list event) :
  scene_quiet (call_of ev) = true -> restoring t -> restoring (ev :: t).
Proof.
  intros Hev Ht.
  apply (restoring_app [ev] t); [ | exact Ht].
  apply restoring_quiet. cbn [calls map forallb]. rewrite Hev. reflexivity.
Qed.

Lemma restoring_nil : restoring [].
Proof. intros names _. reflexivity. Qed.

(** The reconciler in update mode, lock included. *)
Lemma load_or_update_restoring (molstr sele : string) (state : Z) :
  all_runs (load_or_update molstr "" sele state)
    (fun t o => o = Ok tt -> restoring t).
Proof.
  unfold load_or_update, with_lockcm.
  apply all_runs_perform_bind; [intros [] | intros e; discriminate].
  apply all_runs_try_finally.
  apply (all_runs_mono _ _ _) with (2 := _load_or_update_all_runs_update molstr sele state).
  intros t o Ht.
  apply all_runs_perform. intros [[] | e]; [ | discriminate].
  intros Ho. destruct (Ht Ho) as [tmp [fit_step [Hshape [Hfit Hscene]]]].
  intros names Hnd.
  assert (Hfresh : ~ In tmp names).
  { rewrite Hshape in Hnd. cbn [app collect generated] in Hnd.
    inversion Hnd as [ | y l Hx Hl]; subst.
    intros Hin. apply Hx. apply in_or_app. right; exact Hin. }
  unfold scene_after. cbn [fold_left scene_step].
  rewrite fold_left_app. fold (scene_after names t).
  rewrite (Hscene names Hfresh). reflexivity.
Qed.

Ltac restoring_step :=
  lazymatch goal with
  | |- all_runs (bind (load_or_update _ "" _ _) _) _ =>
      apply all_runs_bind;
      eapply all_runs_mono; [ | apply load_or_update_restoring ];
      cbv beta;
      let tR := fresh "tR" in
      let HR := fresh "HR" in
      intros tR [[] | ?] HR; [ specialize (HR eq_refl) | ]
  end.

Ltac restoring_leaf :=
  repeat first
    [ apply restoring_nil
    | apply restoring_cons; [reflexivity | ]
    | apply restoring_app;
      [ first [assumption | apply restoring_quiet; assumption] | ] ].

Lemma minimize_ob_try_restoring
  (sele : string) (natoms : Z) (state : Z) (ff : string) (nsteps : Z) (conv : R)
  (cutoff : Z) (cut_vdw cut_elec : R) (quiet : Z) :
  all_runs
    (minimize_ob_try sele natoms state ff nsteps conv cutoff cut_vdw cut_elec
       "" quiet)
    (fun t o => o = Ok tt -> restoring t).
Proof.
  unfold minimize_ob_try, randomize_coords_if_collapsed, get_fixed_indices.
  repeat first [ exec_step | restoring_step | class_step scene_quiet ].
  all: cbv beta; try discriminate.
  all: intros _; restoring_leaf.
Qed.

Lemma minimize_rdkit_try_restoring
  (sele : string) (natoms : Z) (state : Z) (ff : string) (nsteps : Z) (quiet : Z) :
  all_runs
    (minimize_rdkit_try sele natoms state ff nsteps "" quiet)
    (fun t o => o = Ok tt -> restoring t).
Proof.
  unfold minimize_rdkit_try, randomize_coords_if_collapsed, get_fixed_indices.
  repeat first [ exec_step | restoring_step | class_step scene_quiet ].
  all: cbv beta; try discriminate.
  all: intros _; restoring_leaf.
Qed.

(** An adapter's run that returned, around a try block that restores. *)
Lemma adapter_returned_restoring (selection : string) (t : list event) :
  adapter_returned selection (fun _ body => restoring body) t -> restoring t.
Proof.
  intros [imports [body [sele [n [Ht [Himp Hbody]]]]]] names Hnd.
  rewrite Ht in Hnd |- *. clear Ht.
  assert (Hsilent : collect generated imports = []).
  { apply (collect_class generated is_import); [ | exact Himp].
    intros c r Hc. destruct c; first [discriminate Hc | reflexivity]. }
  assert (Hquiet : forallb scene_quiet (calls imports) = true).
  { clear - Himp. unfold calls in *.
    induction imports as [ | [c r] l IH]; [reflexivity | ].
    cbn [map forallb call_of] in *.
    apply andb_prop in Himp. destruct Himp as [Hc Hl].
    rewrite (IH Hl). destruct c; first [discriminate Hc | reflexivity]. }
  rewrite collect_app, Hsilent in Hnd.
  cbn [app collect generated] in Hnd.
  rewrite collect_app in Hnd. cbn [collect generated] in Hnd.
  rewrite app_nil_r in Hnd.
  inversion Hnd as [ | y l Hsele Hrest]; subst.
  rewrite scene_after_app, (scene_quiet_after imports names Hquiet).
  unfold scene_after. cbn [fold_left scene_step].
  rewrite fold_left_app. fold (scene_after (sele :: names) body).
  rewrite (Hbody (sele :: names)).
  - cbn [fold_left scene_step filter]. rewrite String.eqb_refl. cbn [negb].
    apply filter_absent.
    intros Hin. apply Hsele. apply in_or_app. right; exact Hin.
  - apply NoDup_app.
    + exact (NoDup_app_remove_r _ _ Hrest).
    + constructor.
      * intros Hin. apply Hsele. apply in_or_app. right; exact Hin.
      * exact (NoDup_app_remove_l _ _ Hrest).
    + intros x Hx [<- | Hin].
      * apply Hsele. apply in_or_app. left; exact Hx.
      * exact (NoDup_app_disjoint _ _ Hrest x Hx Hin).
Qed.

(** X9: an adapter called without a destination name leaves the scene's
    names as it found them.  In every run of [minimize_ob] or
    [minimize_rdkit] in update mode that returns, if the names the host
    generated during the run were unused and distinct, the scene holds
    after the run exactly the names it held before: the temporary
    selection and the temporary object are both gone. *)
Theorem update_mode_restores_scene
  (E : Env) (w : world E) (selection : string) (state : Z) (ff : string)
  (nsteps : Z) (conv : R) (cutoff : Z) (cut_vdw cut_elec : R) (quiet : Z)
  (names : list string) :
  let ob := run E (minimize_ob selection state ff nsteps conv cutoff cut_vdw
                     cut_elec "" quiet) w in
  let rd := run E (minimize_rdkit selection state ff nsteps "" quiet) w in
  (result_of ob = Ok tt ->
   NoDup (collect generated (trace_of ob) ++ names) ->
   scene_after names (trace_of ob) = names) /\
  (result_of rd = Ok tt ->
   NoDup (collect generated (trace_of rd) ++ names) ->
   scene_after names (trace_of rd) = names).
Proof.
  intros ob rd. split; intros Hr.
  - apply (adapter_returned_restoring selection).
    apply (all_runs_run _ _
             (minimize_ob_returned selection state ff nsteps conv cutoff
                cut_vdw cut_elec "" quiet
                (fun _ t => restoring t)
                (fun sele natoms =>
                   minimize_ob_try_restoring sele natoms state ff nsteps conv
                     cutoff cut_vdw cut_elec quiet))
             E w Hr).
  - apply (adapter_returned_restoring selection).
    apply (all_runs_run _ _
             (minimize_rdkit_returned selection state ff nsteps "" quiet
                (fun _ t => restoring t)
                (fun sele natoms =>
                   minimize_rdkit_try_restoring sele natoms state ff nsteps quiet))
             E w Hr).
Qed.

Lemma session_generated_names :
  collect generated
    (trace_of (run scripted (minimize_ob "polymer" (-1) "UFF" 500 (1 / 10000) 0 6 8 "" 1)
                 session))
  = ["_sele01"; "_minimized01"] /\
  collect generated
    (trace_of (run scripted (minimize_rdkit "polymer" (-1) "UFF" 500 "" 1) session))
  = ["_sele01"; "_minimized01"].
Proof. split; run_in_session. Qed.

Lemma update_mode_restores_scene_witness :
  scene_after ["ligand"; "polymer"]
    (trace_of (run scripted (minimize_ob "polymer" (-1) "UFF" 500 (1 / 10000) 0 6 8 "" 1)
                 session))
  = ["ligand"; "polymer"] /\
  scene_after ["ligand"; "polymer"]
    (trace_of (run scripted (minimize_rdkit "polymer" (-1) "UFF" 500 "" 1) session))
  = ["ligand"; "polymer"].
Proof.
  destruct (update_mode_restores_scene scripted session
              "polymer" (-1) "UFF" 500 (1 / 10000) 0 6 8 1 ["ligand"; "polymer"])
    as [Hob Hrd].
  destruct session_generated_names as [Gob Grd].
  assert (Hnd : NoDup (["_sele01"; "_minimized01"] ++ ["ligand"; "polymer"])).
  { repeat constructor; cbn [app In]; intuition discriminate. }
  split.
  - apply Hob; [run_in_session | rewrite Gob; exact Hnd].
  - apply Hrd; [run_in_session | rewrite Grd; exact Hnd].
Defined.

(** ** The reconciler with a destination name *)

Definition is_merge (c : call) : bool :=
  match c with
  | cmd_update _ _ _ _ _ | cmd_get_unused_name _ => true
  | _ => false
  end.

(** A run of create mode that returns: the object of that name, if any, is
    deleted, the structure is loaded under the name, and the fit step
    follows; nothing is merged into the selection and the object stays, so
    the scene holds the name once, in front of the other names it had. *)
Definition create_mode_run (molstr name : string) (t : list event) : Prop :=
  exists fit_step : list event,
    t = Ev (cmd_delete name) (Ok tt)
        :: Ev (cmd_load_raw molstr "mol" name 1 0) (Ok tt)
        :: fit_step /\
    forallb is_fit_step (calls fit_step) = true /\
    forall names : list string,
      scene_after names t
      = name :: filter (fun n => negb (n =? name)%string) names.

Ltac create_leaf :=
  let H := fresh "H" in
  intros H; first
    [ discriminate H
    | eexists; split; [reflexivity | ];
      split; [reflexivity | ];
      intros ?; reflexivity ].

Lemma _load_or_update_all_runs_create (molstr name sele : string) (state : Z) :
  nonempty name = true ->
  all_runs (_load_or_update molstr name sele state)
    (fun t o => o = Ok tt -> create_mode_run molstr name t).
Proof.
  intros Hname.
  unfold _load_or_update, _load_or_update_fit. rewrite Hname. simpl.
  repeat first [ next_answer | create_leaf ].
Qed.

Lemma _load_or_update_create_calls (molstr name sele : string) (state : Z) :
  nonempty name = true ->
  all_calls (fun c => negb (is_merge c)) (_load_or_update molstr name sele state).
Proof.
  intros Hname.
  unfold _load_or_update, _load_or_update_fit. rewrite Hname. cbn [negb].
  walk_calls.
Qed.

(** X10: with a destination name the reconciler creates and keeps the
    object.  No run generates a name or calls [cmd.update]; and in every
    run that returns, an existing object of that name was deleted first,
    the minimised structure was loaded under the name, only fitting calls
    followed, and the scene holds the name once, before the other names it
    had. *)
Theorem create_mode_keeps_object
  (E : Env) (w : world E) (molstr name sele : string) (state : Z) :
  let r := run E (_load_or_update molstr name sele state) w in
  name <> "" ->
  existsb is_merge (calls (trace_of r)) = false /\
  (result_of r = Ok tt -> create_mode_run molstr name (trace_of r)).
Proof.
  intros r Hname.
  assert (Hne : nonempty name = true).
  { unfold nonempty. apply negb_true_iff, String.eqb_neq, Hname. }
  split.
  - apply (none_of_class is_merge).
    exact (all_runs_run _ _ (_load_or_update_create_calls molstr name sele state Hne) E w).
  - exact (all_runs_run _ _ (_load_or_update_all_runs_create molstr name sele state Hne)
             E w).
Qed.

Lemma create_mode_keeps_object_witness :
  existsb is_merge
    (calls (trace_of (run scripted (_load_or_update "molfile" "relaxed" "_sele01" (-1))
                        session_no_fitting))) = false /\
  create_mode_run "molfile" "relaxed"
    (trace_of (run scripted (_load_or_update "molfile" "relaxed" "_sele01" (-1))
                 session_no_fitting)).
Proof.
  destruct (create_mode_keeps_object scripted session_no_fitting
              "molfile" "relaxed" "_sele01" (-1)) as [Hnone Hrun].
  - discriminate.
  - split; [exact Hnone | apply Hrun; reflexivity].
Defined.

(** ** Failures of the fit that are not an [Exception] *)

Ltac passes_leaf :=
  let H := fresh "H" in
  let Hex := fresh "Hex" in
  intros ? ? H Hex; simpl in H; first
    [ discriminate H
    | injection H as <- <-;
      first [ discriminate Hex | split; reflexivity ] ].

Lemma _load_or_update_all_runs_passes (molstr name sele : string) (state : Z) :
  all_runs (_load_or_update molstr name sele state)
    (fun t o =>
       forall e after,
         preferred_failure t = Some (e, after) ->
         is_Exception e = false ->
         after = [] /\ o = Raised e).
Proof.
  unfold _load_or_update, _load_or_update_fit.
  destruct (nonempty name) eqn:Hname; simpl;
    repeat first [ next_answer | passes_leaf ].
Qed.

(** X11: a failure of the preferred fit that is not an [Exception] (a
    [KeyboardInterrupt], say) is not handled by the reconciler: the failing
    call is its last call (no fallback fit, no log line, no update, no
    deletion of the object just loaded) and the exception is the caller's. *)
Theorem fit_interrupt_passes
  (E : Env) (w : world E) (molstr name sele : string) (state : Z)
  (e : exn) (after : list event) :
  let r := run E (_load_or_update molstr name sele state) w in
  preferred_failure (trace_of r) = Some (e, after) ->
  is_Exception e = false ->
  after = [] /\ result_of r = Raised e.
Proof.
  intros r.
  apply (all_runs_run _ _ (_load_or_update_all_runs_passes molstr name sele state) E w).
Qed.

(** A session in which [xfit] is interrupted. *)
Definition session_interrupted : script :=
  {| env_flags := env_flags session; env_coords := env_coords session;
     env_sample := []; env_missing := [];
     env_xfit := Raised (PyBaseException "KeyboardInterrupt");
     env_fit := Ok 0%R;
     env_forcefields := env_forcefields session; env_heavy := env_heavy session;
     env_hydrogens := env_hydrogens session; env_protonated := false;
     env_rdkit_reads := true; env_rc := 0 |}.

Lemma fit_interrupt_passes_witness :
  ([] : list event) = [] /\
  result_of (run scripted (_load_or_update "molfile" "" "_sele01" (-1))
               session_interrupted)
  = Raised (PyBaseException "KeyboardInterrupt").
Proof.
  apply (fit_interrupt_passes scripted session_interrupted "molfile" "" "_sele01" (-1)
           (PyBaseException "KeyboardInterrupt") []);
    reflexivity.
Defined.

(** ** The calls of [clean_ob] *)

Definition is_clean_step (c : call) : bool :=
  match c with
  | cmd_flag _ _ _ | cmd_select _ _ _ | ob_FindForceField _
  | ob_EnableCutOff _ _ | ob_SetVDWCutOff _ _ | ob_SetElectrostaticCutOff _ _
  | ob_SteepestDescent _ _ _ | ob_ConjugateGradients _ _ _ => true
  | _ => false
  end.

(** The flag changes, the selection, the force-field lookup, the cut-off
    and the minimisation calls of a run, in order. *)
Definition clean_step (ev : event) : option call :=
  if is_clean_step (call_of ev) then Some (call_of ev) else None.

Definition no_clean_step (c : call) : bool := negb (is_clean_step c).

Lemma minimize_ob_try_clean_steps
  (sele : string) (natoms : Z) (state : Z) (ff : string) (nsteps : Z) (conv : R)
  (cut_vdw cut_elec : R) (name : string) (quiet : Z) :
  all_runs
    (minimize_ob_try sele natoms state ff nsteps conv 0 cut_vdw cut_elec name quiet)
    (fun t o =>
       o = Ok tt ->
       exists field : pyobj,
         collect clean_step t
         = [ob_FindForceField ff;
            ob_SteepestDescent field (nsteps / 2) conv;
            ob_ConjugateGradients field (nsteps / 2) conv]).
Proof.
  unfold minimize_ob_try, randomize_coords_if_collapsed, get_fixed_indices.
  change (truthy 0) with false. cbv iota.
  repeat first [ exec_step | class_step no_clean_step ].
  all: cbv beta; try discriminate.
  all: intros _.
  all: repeat first
         [ progress cbn [app collect clean_step is_clean_step call_of]
         | rewrite collect_app ].
  all: collect_silent.
  all: cbn [app]; eexists; reflexivity.
Qed.

Lemma minimize_ob_all_runs_clean_steps
  (selection : string) (state : Z) (ff : string) (nsteps : Z) (conv : R)
  (cut_vdw cut_elec : R) (name : string) (quiet : Z) :
  all_runs
    (minimize_ob selection state ff nsteps conv 0 cut_vdw cut_elec name quiet)
    (fun t o =>
       o = Ok tt ->
       exists (sele : string) (field : pyobj),
         collect clean_step t
         = [cmd_select sele selection 0;
            ob_FindForceField ff;
            ob_SteepestDescent field (nsteps / 2) conv;
            ob_ConjugateGradients field (nsteps / 2) conv]).
Proof.
  eapply all_runs_mono;
    [ | apply (minimize_ob_returned selection state ff nsteps conv 0 cut_vdw
                 cut_elec name quiet _
                 (fun sele natoms =>
                    minimize_ob_try_clean_steps sele natoms state ff nsteps conv
                      cut_vdw cut_elec name quiet)) ].
  cbv beta. intros t o H Ho.
  destruct (H Ho) as [imports [body [sele [n [Ht [Himp [field Hbody]]]]]]].
  exists sele, field. rewrite Ht.
  rewrite collect_app.
  rewrite (collect_class clean_step is_import imports);
    [ | intros c r Hc; destruct c; first [discriminate Hc | reflexivity]
      | exact Himp ].
  cbn [app collect clean_step is_clean_step call_of].
  rewrite collect_app, Hbody. reflexivity.
Qed.

(** What a run of [clean_ob] that returns has done: with [present], the
    atoms of [present] are fixed and those of [selection] freed before, and
    [present] is freed again after; the atoms minimised are those of
    [selection], with those of [present] when given; [mmff] stands for
    openbabel's [MMFF94] and any other method name is passed on; the budget
    is 25 steps of each method at threshold [1e-4], without cut-off. *)
Definition clean_ob_protocol
  (selection present method : string) (t : list event) : Prop :=
  exists (sele : string) (field : pyobj),
    collect clean_step t
    = ((if nonempty present
        then [cmd_flag "fix" present "set"; cmd_flag "fix" selection "clear"]
        else [])
       ++ [cmd_select sele
             (if nonempty present
              then "(" ++ selection ++ ")|(" ++ present ++ ")"
              else selection) 0;
           ob_FindForceField (if (method =? "mmff")%string then "MMFF94" else method);
           ob_SteepestDescent field 25 (1 / 10000);
           ob_ConjugateGradients field 25 (1 / 10000)]
       ++ (if nonempty present then [cmd_flag "fix" present "clear"] else []))%list.

Lemma clean_ob_all_runs_protocol
  (selection present : string) (state : Z) (fix_ restrain method : string)
  (save_undo : Z) (message : option string) :
  all_runs
    (clean_ob selection present state fix_ restrain method save_undo message)
    (fun t o => o = Ok tt -> clean_ob_protocol selection present method t).
Proof.
  unfold clean_ob, clean_ob_protocol.
  destruct (nonempty present) eqn:Hp.
  all: repeat exec_step.
  all: cbv beta; try discriminate.
  all: try (apply all_runs_bind;
            eapply all_runs_mono;
            [ | apply minimize_ob_all_runs_clean_steps ];
            cbv beta;
            let tM := fresh "tM" in
            let HM := fresh "HM" in
            intros tM [[] | ?] HM;
            [ destruct (HM eq_refl) as [sele [field Hsteps]]; clear HM | ]).
  all: repeat exec_step.
  all: cbv beta; try discriminate.
  all: intros _; exists sele, field.
  all: repeat first
         [ progress cbn [app collect clean_step is_clean_step call_of]
         | rewrite collect_app ].
  all: rewrite Hsteps; reflexivity.
Qed.

(** X12: the calls of [clean_ob], in every run that returns.  The atoms
    minimised are those of [selection] together with those of [present]
    (the selection expression is [(selection)|(present)]), or those of
    [selection] alone when [present] is empty, in which case no flag is
    changed; the method [mmff] is looked up as openbabel's [MMFF94] and any
    other method name as it is; the minimisation is 25 steepest-descent and
    25 conjugate-gradient steps at [1e-4] without cut-off; the arguments
    [fix], [restrain], [save_undo] and [message] change nothing. *)
Theorem clean_ob_calls
  (E : Env) (w : world E) (selection present : string) (state : Z)
  (fix_ restrain method : string) (save_undo : Z) (message : option string) :
  let r := run E (clean_ob selection present state fix_ restrain method
                    save_undo message) w in
  result_of r = Ok tt ->
  clean_ob_protocol selection present method (trace_of r).
Proof.
  intros r.
  apply (all_runs_run _ _
           (clean_ob_all_runs_protocol selection present state fix_ restrain
              method save_undo message) E w).
Qed.

Lemma clean_ob_calls_witness :
  clean_ob_protocol "polymer" "ligand" "mmff"
    (trace_of (run scripted (clean_ob "polymer" "ligand" (-1) "" "" "mmff" 1 None)
                 session)).
Proof.
  apply (clean_ob_calls scripted session "polymer" "ligand" (-1) "" "" "mmff" 1 None).
  unfold clean_ob. run_in_session.
Defined.

(** ** The order of the stages *)

Definition is_stage (c : call) : bool :=
  match c with
  | cmd_get_coords _ _ | cmd_load_coords _ _ _ | cmd_get_str _ _ _
  | cmd_iterate_state _ _ | cmd_lockcm_enter | cmd_lockcm_exit
  | ob_SteepestDescent _ _ _ | ob_ConjugateGradients _ _ _ | rd_Minimize _ _ => true
  | _ => false
  end.

(** The calls that mark the stages of an adapter's try block: the guard's
    read and write, the export, the Locator's iteration, the minimisation,
    and the lock around the reconciliation. *)
Definition stage (ev : event) : option call :=
  if is_stage (call_of ev) then Some (call_of ev) else None.

Definition no_stage (c : call) : bool := negb (is_stage c).

(** The stages of a try block that returned: the guard reads the
    coordinates of the temporary selection and writes them back at most
    once; then the selection is exported; then its flags are iterated;
    then the force field is minimised; then the result is reconciled under
    the lock. *)
Definition pipeline
  (state : Z) (minimisation : pyobj -> list call) (sele : string)
  (t : list event) : Prop :=
  exists (written : list call) (field : pyobj),
    collect stage t
    = (cmd_get_coords sele state
       :: written
       ++ [cmd_get_str "mol" sele state; cmd_iterate_state state sele]
       ++ minimisation field
       ++ [cmd_lockcm_enter; cmd_lockcm_exit])%list /\
    (written = [] \/ exists coords, written = [cmd_load_coords coords sele state]).

Lemma _load_or_update_no_stage (molstr name sele : string) (state : Z) :
  all_calls no_stage (_load_or_update molstr name sele state).
Proof.
  unfold _load_or_update, _load_or_update_fit.
  walk_calls.
Qed.

Lemma load_or_update_stages (molstr name sele : string) (state : Z) :
  all_runs (load_or_update molstr name sele state)
    (fun t o => o = Ok tt -> collect stage t = [cmd_lockcm_enter; cmd_lockcm_exit]).
Proof.
  unfold load_or_update, with_lockcm.
  apply all_runs_perform_bind; [intros [] | intros e; discriminate].
  apply all_runs_try_finally.
  apply (all_runs_mono _ _ _) with (2 := _load_or_update_no_stage molstr name sele state).
  intros body o Hbody.
  apply all_runs_perform. intros [[] | e]; [ | discriminate].
  intros _.
  cbn [collect stage is_stage call_of]. rewrite collect_app.
  rewrite (collect_class stage no_stage body); [reflexivity | | exact Hbody].
  intros c r Hc. unfold stage, no_stage in *. cbn [call_of].
  apply negb_true_iff in Hc. rewrite Hc. reflexivity.
Qed.

Ltac stages_step :=
  lazymatch goal with
  | |- all_runs (bind (load_or_update _ _ _ _) _) _ =>
      apply all_runs_bind;
      eapply all_runs_mono; [ | apply load_or_update_stages ];
      cbv beta;
      let tR := fresh "tR" in
      let HR := fresh "HR" in
      intros tR [[] | ?] HR; [ specialize (HR eq_refl) | ]
  end.

Ltac pipeline_leaf :=
  intros _; unfold pipeline;
  repeat first
    [ progress cbn [app collect stage is_stage call_of]
    | rewrite collect_app ];
  collect_silent;
  repeat match goal with
         | H : collect stage ?t = _ |- context [collect stage ?t] => rewrite H
         end;
  cbn [app];
  first
    [ match goal with
      | |- context [cmd_load_coords ?c ?s ?st :: _] =>
          exists [cmd_load_coords c s st]
      end
    | exists (@nil call) ];
  first
    [ match goal with
      | |- context [ob_SteepestDescent ?f _ _ :: _] => exists f
      end
    | match goal with
      | |- context [rd_Minimize ?f _ :: _] => exists f
      end ];
  split;
  [ reflexivity
  | first [ left; reflexivity | right; eexists; reflexivity ] ].

Lemma minimize_ob_try_pipeline
  (sele : string) (natoms : Z) (state : Z) (ff : string) (nsteps : Z) (conv : R)
  (cutoff : Z) (cut_vdw cut_elec : R) (name : string) (quiet : Z) :
  all_runs
    (minimize_ob_try sele natoms state ff nsteps conv cutoff cut_vdw cut_elec
       name quiet)
    (fun t o =>
       o = Ok tt ->
       pipeline state
         (fun field => [ob_SteepestDescent field (nsteps / 2) conv;
                        ob_ConjugateGradients field (nsteps / 2) conv])
         sele t).
Proof.
  unfold minimize_ob_try, randomize_coords_if_collapsed, get_fixed_indices.
  repeat first [ exec_step | stages_step | class_step no_stage ].
  all: cbv beta; try discriminate.
  all: pipeline_leaf.
Qed.

Lemma minimize_rdkit_try_pipeline
  (sele : string) (natoms : Z) (state : Z) (ff : string) (nsteps : Z)
  (name : string) (quiet : Z) :
  all_runs
    (minimize_rdkit_try sele natoms state ff nsteps name quiet)
    (fun t o =>
       o = Ok tt ->
       pipeline state (fun field => [rd_Minimize field nsteps]) sele t).
Proof.
  unfold minimize_rdkit_try, randomize_coords_if_collapsed, get_fixed_indices.
  repeat first [ exec_step | stages_step | class_step no_stage ].
  all: cbv beta; try discriminate.
  all: pipeline_leaf.
Qed.

(** X13: the stages of an adapter run in a fixed order, all on the
    temporary selection.  Every run of [minimize_ob] or [minimize_rdkit]
    that returns is: the imports; the name generated for the temporary
    selection; the [select] of the caller's expression under that name;
    the try block; the deletion of the temporary selection.  In the try
    block the guard reads the coordinates of the temporary selection and
    writes them back at most once, then the temporary selection is
    exported as a molfile, then its flags are iterated, then the force
    field is minimised (steepest descent and conjugate gradients for
    openbabel, one [Minimize] for RDKit), then the lock is taken and
    released around the reconciliation. *)
Theorem adapters_run_in_stages
  (E : Env) (w : world E) (selection : string) (state : Z) (ff : string)
  (nsteps : Z) (conv : R) (cutoff : Z) (cut_vdw cut_elec : R)
  (name : string) (quiet : Z) :
  let ob := run E (minimize_ob selection state ff nsteps conv cutoff cut_vdw
                     cut_elec name quiet) w in
  let rd := run E (minimize_rdkit selection state ff nsteps name quiet) w in
  (result_of ob = Ok tt ->
   adapter_returned selection
     (pipeline state
        (fun field => [ob_SteepestDescent field (nsteps / 2) conv;
                       ob_ConjugateGradients field (nsteps / 2) conv]))
     (trace_of ob)) /\
  (result_of rd = Ok tt ->
   adapter_returned selection
     (pipeline state (fun field => [rd_Minimize field nsteps]))
     (trace_of rd)).
Proof.
  split.
  - apply (all_runs_run _ _
             (minimize_ob_returned selection state ff nsteps conv cutoff
                cut_vdw cut_elec name quiet _
                (fun sele natoms =>
                   minimize_ob_try_pipeline sele natoms state ff nsteps conv
                     cutoff cut_vdw cut_elec name quiet))).
  - apply (all_runs_run _ _
             (minimize_rdkit_returned selection state ff nsteps name quiet _
                (fun sele natoms =>
                   minimize_rdkit_try_pipeline sele natoms state ff nsteps
                     name quiet))).
Qed.

Lemma adapters_run_in_stages_witness :
  adapter_returned "polymer"
    (pipeline (-1)
       (fun field => [ob_SteepestDescent field (500 / 2) (1 / 10000);
                      ob_ConjugateGradients field (500 / 2) (1 / 10000)]))
    (trace_of (run scripted (minimize_ob "polymer" (-1) "UFF" 500 (1 / 10000) 0 6 8 "" 1)
                 session)) /\
  adapter_returned "polymer"
    (pipeline (-1) (fun field => [rd_Minimize field 500]))
    (trace_of (run scripted (minimize_rdkit "polymer" (-1) "UFF" 500 "" 1) session)).
Proof.
  destruct (adapters_run_in_stages scripted session
              "polymer" (-1) "UFF" 500 (1 / 10000) 0 6 8 "" 1) as [Hob Hrd].
  split; [apply Hob | apply Hrd]; run_in_session.
Defined.

(** ** One set of atoms *)

(** The calls of a try block that name atoms name the temporary
    selection [sele]; there is no second [select] and no flag change. *)
Definition on_selection (sele : string) (c : call) : bool :=
  match c with
  | cmd_get_coords s _ | cmd_load_coords _ s _ | cmd_get_str _ s _
  | cmd_iterate_state _ s => (s =? sele)%string
  | xfit _ target _ _ _ _ _ | cmd_fit _ target _ _ _ _
  | cmd_update target _ _ _ _ => (target =? sele)%string
  | cmd_select _ _ _ | cmd_flag _ _ _ => false
  | _ => true
  end.

Ltac walk_selection :=
  repeat first
    [ apply all_calls_bind; [ | intros ? ]
    | apply all_calls_perform; first [reflexivity | apply String.eqb_refl]
    | apply all_calls_try_finally
    | apply all_calls_try_except; [ | intros ? ]
    | apply all_calls_for_each; intros ?
    | match goal with
      | |- all_calls _ (if ?b then _ else _) => destruct b
      | |- all_calls _ (match ?x with Some _ => _ | None => _ end) => destruct x
      | |- all_calls _ (Ret _) => reflexivity
      | |- all_calls _ (Raise _) => reflexivity
      end ].

Lemma minimize_ob_try_on_selection
  (sele : string) (natoms : Z) (state : Z) (ff : string) (nsteps : Z) (conv : R)
  (cutoff : Z) (cut_vdw cut_elec : R) (name : string) (quiet : Z) :
  all_calls (on_selection sele)
    (minimize_ob_try sele natoms state ff nsteps conv cutoff cut_vdw cut_elec
       name quiet).
Proof.
  unfold minimize_ob_try, randomize_coords_if_collapsed, get_fixed_indices,
    load_or_update, with_lockcm, _load_or_update, _load_or_update_fit.
  walk_selection.
Qed.

Lemma minimize_rdkit_try_on_selection
  (sele : string) (natoms : Z) (state : Z) (ff : string) (nsteps : Z)
  (name : string) (quiet : Z) :
  all_calls (on_selection sele)
    (minimize_rdkit_try sele natoms state ff nsteps name quiet).
Proof.
  unfold minimize_rdkit_try, randomize_coords_if_collapsed, get_fixed_indices,
    load_or_update, with_lockcm, _load_or_update, _load_or_update_fit.
  walk_selection.
Qed.

(** X14: the caller's selection expression is evaluated once.  In every
    run of [minimize_ob] or [minimize_rdkit] in which [select] returned,
    every later call that reads or writes atoms (the guard's read and
    write, the export, the Locator's iteration, the fits and the update of
    the reconciler) names the temporary selection that [select] made;
    there is no second [select] and no flag is changed.  A run in which
    [select] did not return made no call but imports, the name generation
    and [select]. *)
Theorem adapters_work_on_one_selection
  (E : Env) (w : world E) (selection : string) (state : Z) (ff : string)
  (nsteps : Z) (conv : R) (cutoff : Z) (cut_vdw cut_elec : R)
  (name : string) (quiet : Z) :
  let ob := run E (minimize_ob selection state ff nsteps conv cutoff cut_vdw
                     cut_elec name quiet) w in
  let rd := run E (minimize_rdkit selection state ff nsteps name quiet) w in
  adapter_ran selection
    (fun sele body _ => forallb (on_selection sele) (calls body) = true)
    (trace_of ob) (result_of ob) /\
  adapter_ran selection
    (fun sele body _ => forallb (on_selection sele) (calls body) = true)
    (trace_of rd) (result_of rd).
Proof.
  split.
  - apply (all_runs_run _ _
             (minimize_ob_ran selection state ff nsteps conv cutoff cut_vdw
                cut_elec name quiet _
                (fun sele natoms =>
                   minimize_ob_try_on_selection sele natoms state ff nsteps conv
                     cutoff cut_vdw cut_elec name quiet))).
  - apply (all_runs_run _ _
             (minimize_rdkit_ran selection state ff nsteps name quiet _
                (fun sele natoms =>
                   minimize_rdkit_try_on_selection sele natoms state ff nsteps
                     name quiet))).
Qed.

(** ** The completion table

    The module ends by giving its three commands the first-argument
    completion of [zoom]:
    [cmd.auto_arg[0].update([('clean_ob', cmd.auto_arg[0]['zoom']), ...])].
    [cmd.auto_arg] is a list of dictionaries from command names to
    completers; a dictionary is kept as its items in insertion order. *)












(** ** The block the ring strategy writes is not degenerate *)

(** *** Sums over the first [n] indices *)















(** *** Cosines of equally spaced angles *)







(** *** The spread of the second column *)








(** ** The structure handed from stage to stage *)

(** The uses of a molfile string in a run: exported by the host, read by
    the engine, written by the engine, loaded into the host. *)
Inductive structure_use : Type :=
| Exported (molstr : string)
| Read (molstr : string)
| Written (molstr : string)
| Loaded (molstr : string).

Definition structure (ev : event) : option structure_use :=
  match ev with
  | Ev c r =>
      match c return outcome (answer c) -> option structure_use with
      | cmd_get_str _ _ _ =>
          fun r => match r with Ok s => Some (Exported s) | Raised _ => None end
      | ob_ReadString _ _ s => fun _ => Some (Read s)
      | rd_MolFromMolBlock s _ _ => fun _ => Some (Read s)
      | ob_WriteString _ _ =>
          fun r => match r with Ok s => Some (Written s) | Raised _ => None end
      | rd_MolToMolBlock _ =>
          fun r => match r with Ok s => Some (Written s) | Raised _ => None end
      | cmd_load_raw s _ _ _ _ => fun _ => Some (Loaded s)
      | _ => fun _ => None
      end r
  end.

Definition no_structure (c : call) : bool :=
  match c with
  | cmd_get_str _ _ _ | ob_ReadString _ _ _ | rd_MolFromMolBlock _ _ _
  | ob_WriteString _ _ | rd_MolToMolBlock _ | cmd_load_raw _ _ _ _ _ => false
  | _ => true
  end.

(** The engine read what the host exported, and the host loaded what the
    engine wrote. *)
Definition hands_over (t : list event) : Prop :=
  exists exported minimised : string,
    collect structure t
    = [Exported exported; Read exported; Written minimised; Loaded minimised].

Lemma load_or_update_loads (molstr name sele : string) (state : Z) :
  all_runs (load_or_update molstr name sele state)
    (fun t o => o = Ok tt -> collect structure t = [Loaded molstr]).
Proof.
  unfold load_or_update, with_lockcm, _load_or_update, _load_or_update_fit.
  destruct (nonempty name); simpl;
    repeat first
      [ next_answer
      | let H := fresh "H" in
        intros H; first [discriminate H | reflexivity] ].
Qed.

Ltac returned_step lemma :=
  lazymatch goal with
  | |- all_runs (bind (load_or_update _ _ _ _) _) _ =>
      apply all_runs_bind;
      eapply all_runs_mono; [ | apply lemma ];
      cbv beta;
      let tR := fresh "tR" in
      let HR := fresh "HR" in
      intros tR [[] | ?] HR; [ specialize (HR eq_refl) | ]
  end.

Ltac hands_over_leaf :=
  intros _; unfold hands_over;
  repeat first
    [ progress cbn [app collect structure call_of]
    | rewrite collect_app ];
  collect_silent;
  repeat match goal with
         | H : collect structure ?t = _ |- context [collect structure ?t] => rewrite H
         end;
  cbn [app];
  eexists; eexists; reflexivity.

Lemma minimize_ob_try_hands_over
  (sele : string) (natoms : Z) (state : Z) (ff : string) (nsteps : Z) (conv : R)
  (cutoff : Z) (cut_vdw cut_elec : R) (name : string) (quiet : Z) :
  all_runs
    (minimize_ob_try sele natoms state ff nsteps conv cutoff cut_vdw cut_elec
       name quiet)
    (fun t o => o = Ok tt -> hands_over t).
Proof.
  unfold minimize_ob_try, randomize_coords_if_collapsed, get_fixed_indices.
  repeat first [ exec_step
               | returned_step load_or_update_loads
               | class_step no_structure ].
  all: cbv beta; try discriminate.
  all: hands_over_leaf.
Qed.

Lemma minimize_rdkit_try_hands_over
  (sele : string) (natoms : Z) (state : Z) (ff : string) (nsteps : Z)
  (name : string) (quiet : Z) :
  all_runs
    (minimize_rdkit_try sele natoms state ff nsteps name quiet)
    (fun t o => o = Ok tt -> hands_over t).
Proof.
  unfold minimize_rdkit_try, randomize_coords_if_collapsed, get_fixed_indices.
  repeat first [ exec_step
               | returned_step load_or_update_loads
               | class_step no_structure ].
  all: cbv beta; try discriminate.
  all: hands_over_leaf.
Qed.

(** X17: no stale structure.  In every run of [minimize_ob] or
    [minimize_rdkit] that returns, the molfile string the engine read is
    the one the host exported from the temporary selection (after the
    guard), the string loaded into the scene by the reconciler is the one
    the engine wrote after the minimisation, and these are the only
    export, read, write and load of the run. *)
Theorem adapters_hand_structure_over
  (E : Env) (w : world E) (selection : string) (state : Z) (ff : string)
  (nsteps : Z) (conv : R) (cutoff : Z) (cut_vdw cut_elec : R)
  (name : string) (quiet : Z) :
  let ob := run E (minimize_ob selection state ff nsteps conv cutoff cut_vdw
                     cut_elec name quiet) w in
  let rd := run E (minimize_rdkit selection state ff nsteps name quiet) w in
  (result_of ob = Ok tt -> hands_over (trace_of ob)) /\
  (result_of rd = Ok tt -> hands_over (trace_of rd)).
Proof.
  intros ob rd. split; intros Hr.
  - pose proof (all_runs_run _ _
                  (minimize_ob_returned selection state ff nsteps conv cutoff
                     cut_vdw cut_elec name quiet
                     (fun _ t => hands_over t)
                     (fun sele natoms =>
                        minimize_ob_try_hands_over sele natoms state ff nsteps conv
                          cutoff cut_vdw cut_elec name quiet))
                  E w Hr) as H.
    destruct H as [imports [body [sele [n [Ht [Himp [exported [minimised H]]]]]]]].
    fold ob in Ht. rewrite Ht.
    exists exported, minimised.
    rewrite (collect_adapter_run _ imports body sele selection n) by
      first [ exact Himp
            | intros c0 r0 Hc; destruct c0; first [discriminate Hc | reflexivity]
            | reflexivity ].
    exact H.
  - pose proof (all_runs_run _ _
                  (minimize_rdkit_returned selection state ff nsteps name quiet
                     (fun _ t => hands_over t)
                     (fun sele natoms =>
                        minimize_rdkit_try_hands_over sele natoms state ff nsteps
                          name quiet))
                  E w Hr) as H.
    destruct H as [imports [body [sele [n [Ht [Himp [exported [minimised H]]]]]]]].
    fold rd in Ht. rewrite Ht.
    exists exported, minimised.
    rewrite (collect_adapter_run _ imports body sele selection n) by
      first [ exact Himp
            | intros c0 r0 Hc; destruct c0; first [discriminate Hc | reflexivity]
            | reflexivity ].
    exact H.
Qed.

Lemma adapters_hand_structure_over_witness :
  hands_over
    (trace_of (run scripted (minimize_ob "polymer" (-1) "UFF" 500 (1 / 10000) 0 6 8 "" 1)
                 session)) /\
  hands_over
    (trace_of (run scripted (minimize_rdkit "polymer" (-1) "UFF" 500 "" 1) session)).
Proof.
  destruct (adapters_hand_structure_over scripted session
              "polymer" (-1) "UFF" 500 (1 / 10000) 0 6 8 "" 1) as [Hob Hrd].
  split; [apply Hob | apply Hrd]; run_in_session.
Defined.

(** ** Failures that reach the caller *)














